(** * Resonance: ripple field, audio engine and trigger dispatcher

    A shallow embedding of the TypeScript sources

      - [constants.ts]                  (scale table, visual and signal configuration)
      - [components/RippleCanvas.tsx]   (class [Ripple], [addRipple], the render loop)
      - [services/AudioService]         (class [AudioService])
      - [App]                           (the trigger dispatcher and its four input adapters)

    JavaScript numbers are modelled by exact rationals ([Q]) where the code
    computes with fractions and by [Z] where it counts frames; where a
    number is cut to an integer (the index into the scale table) the
    rounding of the product to the nearest double comes first, as the
    platform does it.  Arrays are lists indexed from 0; a thrown exception
    is the [None] of an [option] or the [Threw] of an outcome. *)

From Stdlib Require Import List ZArith NArith QArith Qround Qabs Qpower Lia Lqa Bool Ascii String Sorted.
From Stdlib.Strings Require Byte.
Import ListNotations.

Set Warnings "-register-all".
Local Open Scope Z_scope.

(* ====================================================================== *)
(** * constants.ts *)
(* ====================================================================== *)

Module Constants.

Record AudioNote := { freq : Q; name : string }.

(** D minor pentatonic scale: D4, F4, G4, A4, C5. *)
Definition PENTATONIC_SCALE : list AudioNote :=
  [ {| freq := 29366 # 100; name := "D4" |};
    {| freq := 34923 # 100; name := "F4" |};
    {| freq := 39200 # 100; name := "G4" |};
    {| freq := 44000 # 100; name := "A4" |};
    {| freq := 52325 # 100; name := "C5" |} ].

Record VisualConfig := {
  bgColor : string;
  rippleColor : string;
  maxRadius : Q;
  expansionDuration : Z;
  frameCountToMax : Z
}.

Definition VISUAL_CONFIG : VisualConfig :=
  {| bgColor := "#C3D0E3";
     rippleColor := "255, 255, 255";
     maxRadius := 80;
     expansionDuration := 1500;
     frameCountToMax := 90 |}.

(** A JavaScript string is a sequence of UTF-16 code units. *)
Definition text := list N.

Fixpoint str (s : string) : text :=
  match s with
  | EmptyString => []
  | String c r => N_of_ascii c :: str r
  end.

Record SignalConfig := { oscPort : Z; oscAddress : text }.

Definition SIGNAL_CONFIG : SignalConfig :=
  {| oscPort := 8000; oscAddress := str "/sensor/vibration" |}.

End Constants.

(* ====================================================================== *)
(** * The platform's numbers *)
(* ====================================================================== *)

(** A JavaScript number is an IEEE 754 double: 53 significant bits, the
    smallest unit in the last place [2 ^ -1074].  A double is modelled by
    the rational it stands for; [round] is the rounding of an exact result
    to the nearest double, ties to the even significand, below the
    overflow threshold (every number rounded here is below 5). *)
Module Double.

Local Open Scope Q_scope.

Definition prec : Z := 53.
Definition emin : Z := -1074.

(** The integer part of the binary logarithm of a positive rational. *)
Definition ilog2 (x : Q) : Z :=
  let l := (Z.log2 (Qnum x) - Z.log2 (Zpos (Qden x)))%Z in
  if Qle_bool (2 ^ l) x then l else (l - 1)%Z.

(** The exponent of the unit in the last place of the doubles around [x]. *)
Definition ulp_exp (x : Q) : Z := Z.max emin (ilog2 (Qabs x) - (prec - 1)).

(** The nearest integer, ties to even. *)
Definition nearest_even (x : Q) : Z :=
  let f := Qfloor x in
  match Qcompare (x - inject_Z f) (1 # 2) with
  | Lt => f
  | Gt => (f + 1)%Z
  | Eq => if Z.even f then f else (f + 1)%Z
  end.

(** [x] brought onto the multiples of its unit in the last place. *)
Definition scaled (rnd : Q -> Z) (x : Q) : Q :=
  inject_Z (rnd (x / 2 ^ ulp_exp x)) * 2 ^ ulp_exp x.

(** The nearest double, and the nearest double below. *)
Definition round (x : Q) : Q := scaled nearest_even x.
Definition floor (x : Q) : Q := scaled Qfloor x.

Definition is_double (x : Q) : bool := Qeq_bool (round x) x.

(** The double just below three fifths, which the literal [0.6] denotes. *)
Definition below_three_fifths : Q := 5404319552844595 # 9007199254740992.

End Double.

(* ====================================================================== *)
(** * The platform's random source *)
(* ====================================================================== *)

(** [Math.random()] is modelled by an oracle: the sequence of values the
    platform is going to return, and the number of calls made so far.  The
    platform contract (a double in [[0, 1)]) is built into the value: the
    k-th draw is the fraction [(n mod d) / d] of the oracle's k-th pair,
    brought down to the nearest double; every double in [[0, 1)] is the
    value of some pair. *)
Module Rand.

Record t := { draw_at : nat -> N * positive; pos : nat }.

Definition value (nd : N * positive) : Q :=
  Double.floor (Z.of_N (fst nd mod Npos (snd nd)) # snd nd).

Definition Math_random (g : t) : Q * t :=
  (value (draw_at g (pos g)), {| draw_at := draw_at g; pos := S (pos g) |}).

(** An oracle that always answers [n / d]. *)
Definition constant (n : N) (d : positive) : t :=
  {| draw_at := fun _ => (n, d); pos := 0 |}.

End Rand.

(* ====================================================================== *)
(** * components/RippleCanvas.tsx: class Ripple *)
(* ====================================================================== *)

Module Ripple.

Record t := mk { x : Q; y : Q; age : Z; maxAge : Z; active : bool }.

(** [constructor(x, y)] *)
Definition new (x0 y0 : Q) : t :=
  {| x := x0; y := y0; age := 0; maxAge := 100; active := true |}.

(** [update()]: [this.age++; if (this.age > this.maxAge) this.active = false;] *)
Definition update (r : t) : t :=
  let age' := age r + 1 in
  {| x := x r; y := y r; age := age'; maxAge := maxAge r;
     active := if age' >? maxAge r then false else active r |}.

(** What one call of [draw(ctx)] puts on the drawing context. *)
Record Arc := { cx : Q; cy : Q; radius : Q }.

Record Drawn := {
  subject : t;             (* the entity as it is when drawn *)
  shadowBlur : Q;
  strokeOpacity : Q;
  lineWidth : Q;
  arcs : list Arc
}.

Definition progress (r : t) : Q := inject_Z (age r) / inject_Z (maxAge r).

Definition currentRadius (r : t) : Q :=
  (5 + (Constants.maxRadius Constants.VISUAL_CONFIG - 5) * progress r)%Q.

Definition opacity (r : t) : Q :=
  let o := (0.8 * (1 - progress r))%Q in
  if Qlt_le_dec o 0 then 0%Q else o.

Definition ringCount : nat := 3.

Definition ringScale (i : nat) : Q := (1 - inject_Z (Z.of_nat i) * 0.15)%Q.

Definition ringRadius (r : t) (i : nat) : Q := (currentRadius r * ringScale i)%Q.

(** The [for (let i = 0; i < ringCount; i++)] loop of [draw]. *)
Definition rings (r : t) : list Arc :=
  flat_map
    (fun i => if Qlt_le_dec 0%Q (ringRadius r i)
              then [ {| cx := x r; cy := y r; radius := ringRadius r i |} ]
              else [])
    (seq 0 ringCount).

Definition draw (r : t) : Drawn :=
  {| subject := r;
     shadowBlur := (10 + progress r * 10)%Q;
     strokeOpacity := opacity r;
     lineWidth := 2;
     arcs := rings r |}.

End Ripple.

(* ====================================================================== *)
(** * components/RippleCanvas.tsx: the component *)
(* ====================================================================== *)

Module RippleCanvas.

Record Canvas := { width : Q; height : Q }.

Inductive CanvasOp :=
| FillRect (color : string) (w h : Q)
| DrawRipple (d : Ripple.Drawn).

Record t := {
  canvasRef : option Canvas;           (* [canvasRef.current], null when not mounted *)
  ripplesRef : list Ripple.t;          (* [ripplesRef.current] *)
  animationFrameRef : nat;             (* number of frames requested so far *)
  ctx : list CanvasOp                  (* everything drawn so far, oldest first *)
}.

Definition initial : t :=
  {| canvasRef := None; ripplesRef := []; animationFrameRef := 0; ctx := [] |}.

Definition mount (c : Canvas) (s : t) : t :=
  {| canvasRef := Some c; ripplesRef := ripplesRef s;
     animationFrameRef := animationFrameRef s; ctx := ctx s |}.

(** [x ?? Math.random() * bound]: the random source is consulted only when
    the coordinate is absent. *)
Definition coalesce (v : option Q) (bound : Q) (g : Rand.t) : Q * Rand.t :=
  match v with
  | Some q => (q, g)
  | None => let '(u, g') := Rand.Math_random g in ((u * bound)%Q, g')
  end.

(** [addRipple(x?, y?)] *)
Definition addRipple (x y : option Q) (g : Rand.t) (s : t) : t * Rand.t :=
  match canvasRef s with
  | None => (s, g)
  | Some c =>
      let '(targetX, g1) := coalesce x (width c) g in
      let '(targetY, g2) := coalesce y (height c) g1 in
      ({| canvasRef := canvasRef s;
          ripplesRef := ripplesRef s ++ [Ripple.new targetX targetY];
          animationFrameRef := animationFrameRef s;
          ctx := ctx s |}, g2)
  end.

(** Array helpers: in-place write of one cell, and [splice(i, 1)]. *)
Fixpoint set_nth {A} (i : nat) (a : A) (l : list A) : list A :=
  match l, i with
  | [], _ => []
  | _ :: r, O => a :: r
  | h :: r, S j => h :: set_nth j a r
  end.

Fixpoint splice1 {A} (i : nat) (l : list A) : list A :=
  match l, i with
  | [], _ => []
  | _ :: r, O => r
  | h :: r, S j => h :: splice1 j r
  end.

(** The body of the backwards loop
    [for (let i = ripples.length - 1; i >= 0; i--)], with [n = i + 1]
    iterations left.  Reading past the array yields [undefined], on which
    [ripple.update()] throws: [None]. *)
Fixpoint render_loop (n : nat) (arr : list Ripple.t) (log : list CanvasOp)
  : option (list Ripple.t * list CanvasOp) :=
  match n with
  | O => Some (arr, log)
  | S i =>
      match nth_error arr i with
      | None => None
      | Some ripple =>
          let ripple' := Ripple.update ripple in
          let arr1 := set_nth i ripple' arr in
          let log1 := log ++ [DrawRipple (Ripple.draw ripple')] in
          let arr2 := if negb (Ripple.active ripple') then splice1 i arr1 else arr1 in
          render_loop i arr2 log1
      end
  end.

(** One pass of [render], for a mounted canvas [c]. *)
Definition render (c : Canvas) (s : t) : option t :=
  let log0 := ctx s ++ [FillRect (Constants.bgColor Constants.VISUAL_CONFIG) (width c) (height c)] in
  match render_loop (List.length (ripplesRef s)) (ripplesRef s) log0 with
  | None => None
  | Some (arr, log) =>
      Some {| canvasRef := canvasRef s; ripplesRef := arr;
              animationFrameRef := S (animationFrameRef s); ctx := log |}
  end.

(** A display frame: the loop runs only while the canvas is mounted. *)
Definition frame (s : t) : option t :=
  match canvasRef s with
  | None => Some s
  | Some c => render c s
  end.

End RippleCanvas.

(* ====================================================================== *)
(** * services/AudioService *)
(* ====================================================================== *)

Module Audio.

(** The platform's audio graph, as far as [AudioService] uses it. *)
Inductive AudioContextState := suspended | running | closed.

Inductive ParamEvent :=
| SetValueAtTime (value time : Q)
| LinearRampToValueAtTime (value time : Q)
| ExponentialRampToValueAtTime (value time : Q).

Inductive OscillatorType := sine | square | sawtooth | triangle.

Inductive Endpoint := ToNode (id : nat) | Destination.

Record OscillatorNode := {
  type : OscillatorType;
  frequency : list ParamEvent;
  startTime : option Q;
  stopTime : option Q;
  onended : option nat;     (* the node that the callback disconnects *)
  ended : bool              (* the [ended] event has been dispatched *)
}.

Record GainNode := { gain : list ParamEvent }.

Inductive AudioNode := Osc (o : OscillatorNode) | Gn (g : GainNode).

Record AudioContext := {
  state : AudioContextState;
  currentTime : Q;
  resumeRequested : bool;              (* a [resume()] promise is pending *)
  nodes : list AudioNode;              (* a node's id is its index *)
  connections : list (nat * Endpoint)
}.

Definition with_nodes (c : AudioContext) (ns : list AudioNode) : AudioContext :=
  {| state := state c; currentTime := currentTime c;
     resumeRequested := resumeRequested c; nodes := ns;
     connections := connections c |}.

Definition update_node (id : nat) (f : AudioNode -> AudioNode) (c : AudioContext)
  : AudioContext :=
  match nth_error (nodes c) id with
  | Some n => with_nodes c (RippleCanvas.set_nth id (f n) (nodes c))
  | None => c
  end.

Definition on_osc (f : OscillatorNode -> OscillatorNode) (n : AudioNode) : AudioNode :=
  match n with Osc o => Osc (f o) | Gn g => Gn g end.

Definition on_gain (f : GainNode -> GainNode) (n : AudioNode) : AudioNode :=
  match n with Osc o => Osc o | Gn g => Gn (f g) end.

(** What [new AudioContextClass()] does is the platform's: the new
    context starts running, or its start is deferred, or there is no such
    class (or its constructor fails) and the expression throws. *)
Inductive Construction := Starts (deferred : bool) | Throws.

(** [new AudioContextClass()]; the clock of a new context starts at 0. *)
Definition new_AudioContext (p : Construction) : option AudioContext :=
  match p with
  | Starts deferred =>
      Some {| state := if deferred then suspended else running;
              currentTime := 0; resumeRequested := false;
              nodes := []; connections := [] |}
  | Throws => None
  end.

(** [context.resume()]: asks the platform to start the context. *)
Definition resume (c : AudioContext) : AudioContext :=
  {| state := state c; currentTime := currentTime c; resumeRequested := true;
     nodes := nodes c; connections := connections c |}.

(** An oscillator whose [ended] event is due at clock time [now]: it was
    started, its stop time has come, and the event is not yet dispatched. *)
Definition due (now : Q) (n : AudioNode) : bool :=
  match n with
  | Osc o =>
      match startTime o, stopTime o with
      | Some _, Some ts => negb (ended o) && Qle_bool ts now
      | _, _ => false
      end
  | Gn _ => false
  end.

Definition mark_ended (now : Q) (n : AudioNode) : AudioNode :=
  match n with
  | Osc o =>
      if due now n
      then Osc {| type := type o; frequency := frequency o; startTime := startTime o;
                  stopTime := stopTime o; onended := onended o; ended := true |}
      else n
  | Gn _ => n
  end.

(** The [onended] callbacks of the oscillators that are due, in the order
    of the nodes (which is the order of their stop times: a node is
    created at the clock time it starts at). *)
Definition callbacks (now : Q) (ns : list AudioNode) : list nat :=
  flat_map (fun n =>
              match n with
              | Osc o => if due now n
                         then match onended o with Some g => [g] | None => [] end
                         else []
              | Gn _ => []
              end) ns.

(** [node.disconnect()]: every outgoing connection of the node goes. *)
Definition disconnect (id : nat) (cs : list (nat * Endpoint)) : list (nat * Endpoint) :=
  filter (fun e => negb (Nat.eqb (fst e) id)) cs.

(** The platform dispatches the [ended] events that are due: each such
    oscillator is marked and its callback runs. *)
Definition dispatch_ended (c : AudioContext) : AudioContext :=
  {| state := state c; currentTime := currentTime c;
     resumeRequested := resumeRequested c;
     nodes := map (mark_ended (currentTime c)) (nodes c);
     connections := fold_left (fun cs g => disconnect g cs)
                              (callbacks (currentTime c) (nodes c)) (connections c) |}.

(** The platform's clock: it advances while the context is running, and
    the oscillators that it takes past their stop time end. *)
Definition advance (dt : Q) (c : AudioContext) : AudioContext :=
  match state c with
  | running =>
      if Qle_bool 0 dt then
        dispatch_ended
          {| state := state c; currentTime := currentTime c + dt;
             resumeRequested := resumeRequested c; nodes := nodes c;
             connections := connections c |}
      else c
  | _ => c
  end.

(** The platform settles a pending [resume()]. *)
Definition confirm_resume (c : AudioContext) : AudioContext :=
  match state c, resumeRequested c with
  | suspended, true =>
      {| state := running; currentTime := currentTime c; resumeRequested := false;
         nodes := nodes c; connections := connections c |}
  | _, _ => c
  end.

Definition createOscillator (c : AudioContext) : nat * AudioContext :=
  (List.length (nodes c),
   with_nodes c (nodes c ++ [Osc {| type := sine; frequency := [];
                                    startTime := None; stopTime := None;
                                    onended := None; ended := false |}])).

Definition createGain (c : AudioContext) : nat * AudioContext :=
  (List.length (nodes c), with_nodes c (nodes c ++ [Gn {| gain := [] |}])).

Definition set_type (id : nat) (ty : OscillatorType) : AudioContext -> AudioContext :=
  update_node id (on_osc (fun o =>
    {| type := ty; frequency := frequency o; startTime := startTime o;
       stopTime := stopTime o; onended := onended o; ended := ended o |})).

Definition frequency_schedule (id : nat) (e : ParamEvent) : AudioContext -> AudioContext :=
  update_node id (on_osc (fun o =>
    {| type := type o; frequency := frequency o ++ [e]; startTime := startTime o;
       stopTime := stopTime o; onended := onended o; ended := ended o |})).

Definition gain_schedule (id : nat) (e : ParamEvent) : AudioContext -> AudioContext :=
  update_node id (on_gain (fun g => {| gain := gain g ++ [e] |})).

Definition start (id : nat) (t : Q) : AudioContext -> AudioContext :=
  update_node id (on_osc (fun o =>
    {| type := type o; frequency := frequency o; startTime := Some t;
       stopTime := stopTime o; onended := onended o; ended := ended o |})).

Definition stop (id : nat) (t : Q) : AudioContext -> AudioContext :=
  update_node id (on_osc (fun o =>
    {| type := type o; frequency := frequency o; startTime := startTime o;
       stopTime := Some t; onended := onended o; ended := ended o |})).

Definition set_onended (id : nat) (target : nat) : AudioContext -> AudioContext :=
  update_node id (on_osc (fun o =>
    {| type := type o; frequency := frequency o; startTime := startTime o;
       stopTime := stopTime o; onended := Some target; ended := ended o |})).

Definition connect (src : nat) (dst : Endpoint) (c : AudioContext) : AudioContext :=
  {| state := state c; currentTime := currentTime c;
     resumeRequested := resumeRequested c; nodes := nodes c;
     connections := connections c ++ [(src, dst)] |}.

(** ** class AudioService *)

Record t := {
  context : option AudioContext;
  isEnabled : bool;
  constructed : nat      (* how many times [new AudioContextClass()] has run *)
}.

Definition initial : t := {| context := None; isEnabled := false; constructed := 0 |}.

Definition with_context (s : t) (c : AudioContext) : t :=
  {| context := Some c; isEnabled := isEnabled s; constructed := constructed s |}.

(** [init()]; [p] is the platform's answer should this call construct
    the context.  When the constructor throws, [init] throws: [None], with
    the service as it was. *)
Definition init (p : Construction) (s : t) : option t :=
  let s1 :=
    match context s with
    | None =>
        match new_AudioContext p with
        | Some c => Some {| context := Some c; isEnabled := true;
                            constructed := S (constructed s) |}
        | None => None
        end
    | Some _ => Some s
    end in
  match s1 with
  | None => None
  | Some s1 =>
      match context s1 with
      | Some c =>
          match state c with
          | suspended => Some (with_context s1 (resume c))
          | _ => Some s1
          end
      | None => Some s1
      end
  end.

Inductive ContextState := uninitialized | ctx_state (st : AudioContextState).

(** [getContextState()] *)
Definition getContextState (s : t) : ContextState :=
  match context s with
  | Some c => ctx_state (state c)
  | None => uninitialized
  end.

(** [playTone(frequency)] *)
Definition playTone (freq : Q) (s : t) : t :=
  match context s with
  | None => s
  | Some c =>
      let t := currentTime c in
      let '(osc, c) := createOscillator c in
      let '(gn, c) := createGain c in
      let c := set_type osc sine c in
      let c := frequency_schedule osc (SetValueAtTime freq t) c in
      let duration := 1.5%Q in
      let c := connect osc (ToNode gn) c in
      let c := connect gn Destination c in
      let c := gain_schedule gn (SetValueAtTime 0 t) c in
      let c := gain_schedule gn (LinearRampToValueAtTime 0.8 (t + 0.05)) c in
      let c := gain_schedule gn (ExponentialRampToValueAtTime 0.001 (t + duration)) c in
      let c := start osc t c in
      let c := stop osc (t + duration + 0.1) c in
      let c := set_onended osc gn c in
      with_context s c
  end.

(** [Math.floor(Math.random() * PENTATONIC_SCALE.length)]: the product is
    a double, the nearest to the exact product. *)
Definition randomIndex (u : Q) : Z :=
  Qfloor (Double.round (u * inject_Z (Z.of_nat (List.length Constants.PENTATONIC_SCALE)))).

(** [PENTATONIC_SCALE[i]]: [undefined] off the table. *)
Definition scale_at (i : Z) : option Constants.AudioNote :=
  if i <? 0 then None else nth_error Constants.PENTATONIC_SCALE (Z.to_nat i).

(** [playRandomNote()]; reading [.freq] of [undefined] throws. *)
Definition playRandomNote (g : Rand.t) (s : t) : option (t * Rand.t) :=
  match context s with
  | None => Some (s, g)
  | Some _ =>
      if negb (isEnabled s) then Some (s, g)
      else
        let '(u, g') := Rand.Math_random g in
        match scale_at (randomIndex u) with
        | None => None
        | Some note => Some (playTone (Constants.freq note) s, g')
        end
  end.

(** The voices of the graph are its oscillators. *)
Definition is_osc (n : AudioNode) : bool :=
  match n with Osc _ => true | Gn _ => false end.

Definition voices (s : t) : list AudioNode :=
  match context s with
  | Some c => filter is_osc (nodes c)
  | None => []
  end.

Definition graph_size (s : t) : nat :=
  match context s with
  | Some c => List.length (nodes c) + List.length (connections c)
  | None => 0
  end.

End Audio.

(* ====================================================================== *)
(** * The platform's JSON.parse *)
(* ====================================================================== *)

(** [JSON.parse] over UTF-16 code units, following the JSON grammar
    (ECMA-404): a recursive-descent parser.  [fuel] bounds the nesting
    depth; each loop is bounded by the length of the text left. *)
Module JSON.

Import Constants.
Local Open Scope N_scope.

Inductive value :=
| JNull
| JBool (b : bool)
| JNumber (lexeme : text)
| JString (s : text)
| JArray (elems : list value)
| JObject (members : list (text * value)).

Definition is_ws (c : N) : bool :=
  (c =? 32) || (c =? 9) || (c =? 10) || (c =? 13).

Fixpoint skip_ws (s : text) : text :=
  match s with
  | c :: r => if is_ws c then skip_ws r else s
  | [] => []
  end.

(** [expect p s]: [s] without its prefix [p]. *)
Fixpoint expect (p s : text) : option text :=
  match p, s with
  | [], _ => Some s
  | a :: p', b :: s' => if a =? b then expect p' s' else None
  | _ :: _, [] => None
  end.

Definition is_digit (c : N) : bool := (48 <=? c) && (c <=? 57).

Definition hex_digit (c : N) : option N :=
  if is_digit c then Some (c - 48)
  else if (97 <=? c) && (c <=? 102) then Some (c - 87)
  else if (65 <=? c) && (c <=? 70) then Some (c - 55)
  else None.

Definition hex4 (a b c d : N) : option N :=
  match hex_digit a, hex_digit b, hex_digit c, hex_digit d with
  | Some x, Some y, Some z, Some w => Some (((x * 16 + y) * 16 + z) * 16 + w)
  | _, _, _, _ => None
  end.

(** The code unit an escape letter stands for. *)
Definition escape (e : N) : option N :=
  if (e =? 34) || (e =? 92) || (e =? 47) then Some e
  else if e =? 98 then Some 8
  else if e =? 102 then Some 12
  else if e =? 110 then Some 10
  else if e =? 114 then Some 13
  else if e =? 116 then Some 9
  else None.

(** The rest of a string literal, after its opening quote. *)
Fixpoint lex_string (s : text) (acc : text) : option (text * text) :=
  match s with
  | [] => None
  | c :: r =>
      if c =? 34 then Some (rev acc, r)
      else if c =? 92 then
        match r with
        | [] => None
        | e :: r1 =>
            if e =? 117 then
              match r1 with
              | h1 :: h2 :: h3 :: h4 :: r2 =>
                  match hex4 h1 h2 h3 h4 with
                  | Some u => lex_string r2 (u :: acc)
                  | None => None
                  end
              | _ => None
              end
            else
              match escape e with
              | Some u => lex_string r1 (u :: acc)
              | None => None
              end
        end
      else if c <? 32 then None
      else lex_string r (c :: acc)
  end.

Fixpoint span_digits (s : text) : text * text :=
  match s with
  | c :: r =>
      if is_digit c then let '(d, r') := span_digits r in (c :: d, r')
      else ([], s)
  | [] => ([], [])
  end.

(** A number: an optional minus sign; an integer part that is either a
    single zero or a non-zero digit followed by digits; optionally a dot
    and one or more digits; optionally an exponent mark, a sign and one
    or more digits. *)
Definition lex_int (s : text) : option (text * text) :=
  match s with
  | c :: r =>
      if c =? 48 then Some ([c], r)
      else if is_digit c then let '(d, r') := span_digits r in Some (c :: d, r')
      else None
  | [] => None
  end.

Definition lex_frac (s : text) : option (text * text) :=
  match s with
  | c :: r =>
      if c =? 46 then
        match span_digits r with
        | ([], _) => None
        | (d, r') => Some (c :: d, r')
        end
      else Some ([], s)
  | [] => Some ([], s)
  end.

Definition lex_exp (s : text) : option (text * text) :=
  match s with
  | c :: r =>
      if (c =? 101) || (c =? 69) then
        let '(sg, r0) :=
          match r with
          | c1 :: r1 => if (c1 =? 43) || (c1 =? 45) then ([c1], r1) else ([], r)
          | [] => ([], r)
          end in
        match span_digits r0 with
        | ([], _) => None
        | (d, r') => Some (c :: sg ++ d, r')
        end
      else Some ([], s)
  | [] => Some ([], s)
  end.

Definition lex_number (s : text) : option (text * text) :=
  let '(sg, s0) :=
    match s with
    | c :: r => if c =? 45 then ([c], r) else ([], s)
    | [] => ([], s)
    end in
  match lex_int s0 with
  | None => None
  | Some (i, s1) =>
      match lex_frac s1 with
      | None => None
      | Some (f, s2) =>
          match lex_exp s2 with
          | None => None
          | Some (e, s3) => Some (sg ++ i ++ f ++ e, s3)
          end
      end
  end.

Section Loops.

(** The parser of one value, which the two loops call for each item. *)
Variable pv : text -> option (value * text).

(** Elements of a non-empty array, up to and including the bracket. *)
Fixpoint parse_elements (n : nat) (s : text) (acc : list value)
  : option (list value * text) :=
  match n with
  | O => None
  | S n' =>
      match pv s with
      | None => None
      | Some (v, r) =>
          match skip_ws r with
          | c :: r' =>
              if c =? 44 then parse_elements n' r' (v :: acc)
              else if c =? 93 then Some (rev (v :: acc), r')
              else None
          | [] => None
          end
      end
  end.

(** Members of a non-empty object, up to and including the brace. *)
Fixpoint parse_members (n : nat) (s : text) (acc : list (text * value))
  : option (list (text * value) * text) :=
  match n with
  | O => None
  | S n' =>
      match skip_ws s with
      | q :: r0 =>
          if q =? 34 then
            match lex_string r0 [] with
            | None => None
            | Some (k, r1) =>
                match skip_ws r1 with
                | c :: r2 =>
                    if c =? 58 then
                      match pv r2 with
                      | None => None
                      | Some (v, r3) =>
                          match skip_ws r3 with
                          | d :: r4 =>
                              if d =? 44 then parse_members n' r4 ((k, v) :: acc)
                              else if d =? 125 then Some (rev ((k, v) :: acc), r4)
                              else None
                          | [] => None
                          end
                      end
                    else None
                | [] => None
                end
            end
          else None
      | [] => None
      end
  end.

End Loops.

Fixpoint parse_value (fuel : nat) (s : text) {struct fuel} : option (value * text) :=
  match fuel with
  | O => None
  | S f =>
      match skip_ws s with
      | [] => None
      | c :: r =>
          if c =? 110 then option_map (pair JNull) (expect (str "ull") r)
          else if c =? 116 then option_map (pair (JBool true)) (expect (str "rue") r)
          else if c =? 102 then option_map (pair (JBool false)) (expect (str "alse") r)
          else if c =? 34 then
            match lex_string r [] with
            | Some (k, r') => Some (JString k, r')
            | None => None
            end
          else if c =? 91 then
            match skip_ws r with
            | c1 :: r1 =>
                if c1 =? 93 then Some (JArray [], r1)
                else
                  match parse_elements (parse_value f) (S (List.length r)) r [] with
                  | Some (vs, r') => Some (JArray vs, r')
                  | None => None
                  end
            | [] => None
            end
          else if c =? 123 then
            match skip_ws r with
            | c1 :: r1 =>
                if c1 =? 125 then Some (JObject [], r1)
                else
                  match parse_members (parse_value f) (S (List.length r)) r [] with
                  | Some (ms, r') => Some (JObject ms, r')
                  | None => None
                  end
            | [] => None
            end
          else
            match lex_number (c :: r) with
            | Some (n, r') => Some (JNumber n, r')
            | None => None
            end
      end
  end.

(** [JSON.parse(s)]; [None] is a [SyntaxError]. *)
Definition parse (s : text) : option value :=
  match parse_value (S (List.length s)) s with
  | Some (v, r) => match skip_ws r with [] => Some v | _ :: _ => None end
  | None => None
  end.

(** ** Property access and comparison on parsed values *)

Fixpoint text_eqb (a b : text) : bool :=
  match a, b with
  | [], [] => true
  | x :: a', y :: b' => (x =? y) && text_eqb a' b'
  | _, _ => false
  end.

(** An object built by [JSON.parse] keeps, for a repeated key, the last
    value. *)
Fixpoint lookup (k : text) (ms : list (text * value)) : option value :=
  match ms with
  | [] => None
  | (k', v) :: r =>
      match lookup k r with
      | Some w => Some w
      | None => if text_eqb k k' then Some v else None
      end
  end.

Inductive completion (A : Type) := Normal (a : A) | Throw.
Arguments Normal {A} a.
Arguments Throw {A}.

(** [data.address]: [undefined] (the inner [None]) when there is no such
    property, a [TypeError] on [null]. *)
Definition get_address (data : value) : completion (option value) :=
  match data with
  | JNull => Throw
  | JObject ms => Normal (lookup (str "address") ms)
  | _ => Normal None
  end.

(** [v === s] for a string [s]. *)
Definition strict_eq_text (v : option value) (s : text) : bool :=
  match v with
  | Some (JString t) => text_eqb t s
  | _ => false
  end.

(** [String.prototype.includes] *)
Fixpoint starts_with (p s : text) : bool :=
  match p, s with
  | [], _ => true
  | a :: p', b :: s' => (a =? b) && starts_with p' s'
  | _ :: _, [] => false
  end.

Fixpoint includes (s p : text) : bool :=
  starts_with p s ||
  match s with
  | [] => false
  | _ :: r => includes r p
  end.

(** A parser whose rest is never longer than its input. *)
Definition shrinking {A} (p : text -> option (A * text)) : Prop :=
  forall s a r, p s = Some (a, r) -> (List.length r <= List.length s)%nat.

(** Message literals are written with an apostrophe where the text has
    a double quote. *)
Definition js (s : string) : text :=
  map (fun c => if c =? 39 then 34 else c) (str s).

End JSON.

(* ====================================================================== *)
(** * App: the trigger dispatcher *)
(* ====================================================================== *)

Module App.

Inductive Source :=
| SrcClick
| SrcKeyboard
| SrcMIDI (note : option Byte.byte)
| SrcOSC.

Inductive DebugMsg :=
| Waiting
| TriggerMsg (src : Source)
| AudioActive
| MIDIConnected
| BridgeConnected.

(** One call of [triggerEffect], as recorded for the proofs. *)
Record Trigger := { tx : option Q; ty : option Q; source : option Source }.

(** What the platform offers: how an audio context is constructed,
    whether [navigator.requestMIDIAccess] is there, and whether
    [new WebSocket(url)] gives a socket (it throws otherwise). *)
Record Platform := {
  audioContext : Audio.Construction;
  requestMIDIAccess : bool;
  webSocket : bool
}.

Record t := {
  audioReady : bool;                         (* React state *)
  debugMsg : DebugMsg;                       (* React state *)
  audioService : Audio.t;                    (* the module's singleton *)
  canvas : RippleCanvas.t;                   (* the child component *)
  rng : Rand.t;
  platform : Platform;
  midiRequested : bool;                      (* [requestMIDIAccess()] is pending *)
  onmidimessage : bool;                      (* the inputs carry [onMIDIMessage] *)
  socket : bool;                             (* the bridge socket exists *)
  triggers : list Trigger                    (* calls of [triggerEffect], oldest first *)
}.

Definition initial (p : Platform) (g : Rand.t) : t :=
  {| audioReady := false; debugMsg := Waiting; audioService := Audio.initial;
     canvas := RippleCanvas.initial; rng := g; platform := p;
     midiRequested := false; onmidimessage := false; socket := false;
     triggers := [] |}.

Definition set_ready (s : t) : t :=
  {| audioReady := true; debugMsg := AudioActive; audioService := audioService s;
     canvas := canvas s; rng := rng s; platform := platform s;
     midiRequested := midiRequested s; onmidimessage := onmidimessage s;
     socket := socket s; triggers := triggers s |}.

Definition setDebugMsg (m : DebugMsg) (s : t) : t :=
  {| audioReady := audioReady s; debugMsg := m; audioService := audioService s;
     canvas := canvas s; rng := rng s; platform := platform s;
     midiRequested := midiRequested s; onmidimessage := onmidimessage s;
     socket := socket s; triggers := triggers s |}.

Definition set_audio (a : Audio.t) (s : t) : t :=
  {| audioReady := audioReady s; debugMsg := debugMsg s; audioService := a;
     canvas := canvas s; rng := rng s; platform := platform s;
     midiRequested := midiRequested s; onmidimessage := onmidimessage s;
     socket := socket s; triggers := triggers s |}.

Definition set_canvas (c : RippleCanvas.t) (s : t) : t :=
  {| audioReady := audioReady s; debugMsg := debugMsg s; audioService := audioService s;
     canvas := c; rng := rng s; platform := platform s;
     midiRequested := midiRequested s; onmidimessage := onmidimessage s;
     socket := socket s; triggers := triggers s |}.

Definition set_rng (g : Rand.t) (s : t) : t :=
  {| audioReady := audioReady s; debugMsg := debugMsg s; audioService := audioService s;
     canvas := canvas s; rng := g; platform := platform s;
     midiRequested := midiRequested s; onmidimessage := onmidimessage s;
     socket := socket s; triggers := triggers s |}.

Definition set_adapters (req handler sock : bool) (s : t) : t :=
  {| audioReady := audioReady s; debugMsg := debugMsg s; audioService := audioService s;
     canvas := canvas s; rng := rng s; platform := platform s;
     midiRequested := req; onmidimessage := handler; socket := sock;
     triggers := triggers s |}.

Definition record_trigger (tr : Trigger) (s : t) : t :=
  {| audioReady := audioReady s; debugMsg := debugMsg s; audioService := audioService s;
     canvas := canvas s; rng := rng s; platform := platform s;
     midiRequested := midiRequested s; onmidimessage := onmidimessage s;
     socket := socket s; triggers := triggers s ++ [tr] |}.

(** How a handler ends: normally, or by an exception that leaves the
    state as it was when thrown. *)
Inductive outcome := Returned (s : t) | Threw (s : t).

Definition state_of (o : outcome) : t :=
  match o with Returned s => s | Threw s => s end.

(** One statement after another: an exception skips what follows. *)
Definition bind (o : outcome) (k : t -> outcome) : outcome :=
  match o with
  | Returned s => k s
  | Threw s => Threw s
  end.

Definition is_running (c : Audio.ContextState) : bool :=
  match c with Audio.ctx_state Audio.running => true | _ => false end.

Definition is_suspended (c : Audio.ContextState) : bool :=
  match c with Audio.ctx_state Audio.suspended => true | _ => false end.

(** [triggerEffect(x?, y?, source?)] *)
Definition triggerEffect (x y : option Q) (src : option Source) (s : t) : outcome :=
  let s := record_trigger {| tx := x; ty := y; source := src |} s in
  let s := match src with Some so => setDebugMsg (TriggerMsg so) s | None => s end in
  let '(cv, g) := RippleCanvas.addRipple x y (rng s) (canvas s) in
  let s := set_rng g (set_canvas cv s) in
  if is_running (Audio.getContextState (audioService s)) then
    match Audio.playRandomNote (rng s) (audioService s) with
    | Some (a, g') => Returned (set_rng g' (set_audio a s))
    | None => Threw s
    end
  else Returned s.

(** [startExperience()]; an exception of [audioService.init()] is not
    caught. *)
Definition startExperience (s : t) : outcome :=
  match Audio.init (audioContext (platform s)) (audioService s) with
  | None => Threw s
  | Some a =>
      let s := set_audio a s in
      let st := Audio.getContextState (audioService s) in
      Returned (if is_running st || is_suspended st then set_ready s else s)
  end.

(** [handleCanvasClick(e)] *)
Definition handleCanvasClick (clientX clientY : Q) (s : t) : outcome :=
  bind (if negb (audioReady s) then startExperience s else Returned s)
       (triggerEffect (Some clientX) (Some clientY) (Some SrcClick)).

(** [handleKeyDown(e)] *)
Definition handleKeyDown (code : string) (s : t) : outcome :=
  if String.eqb code "Space" || String.eqb code "Enter" then
    bind (if negb (audioReady s) then startExperience s else Returned s)
         (triggerEffect None None (Some SrcKeyboard))
  else Returned s.

(** [status & 0xF0] and [velocity > 0] on cells of the message that may be
    [undefined]. *)
Definition and_F0 (status : option Byte.byte) : N :=
  match status with
  | Some b => N.land (Byte.to_N b) 240
  | None => 0
  end.

Definition positive_byte (velocity : option Byte.byte) : bool :=
  match velocity with
  | Some b => (0 <? Byte.to_N b)%N
  | None => false
  end.

(** [onMIDIMessage(event)], on [event.data] *)
Definition onMIDIMessage (data : list Byte.byte) (s : t) : outcome :=
  let status := nth_error data 0 in
  let note := nth_error data 1 in
  let velocity := nth_error data 2 in
  if (and_F0 status =? 144)%N && positive_byte velocity
  then triggerEffect None None (Some (SrcMIDI note)) s
  else Returned s.

(** What a socket delivers as [event.data]. *)
Inductive MessageData :=
| TextData (s : Constants.text)
| BlobData
| ArrayBufferData.

(** The string that [JSON.parse] sees. *)
Definition to_text (d : MessageData) : Constants.text :=
  match d with
  | TextData s => s
  | BlobData => Constants.str "[object Blob]"
  | ArrayBufferData => Constants.str "[object ArrayBuffer]"
  end.

Definition keyword : Constants.text := Constants.str "vibration".

(** The [try] block of [socket.onmessage]. *)
Definition onmessage_try (d : MessageData) (s : t) : outcome :=
  match JSON.parse (to_text d) with
  | None => Threw s
  | Some data =>
      match JSON.get_address data with
      | JSON.Throw => Threw s
      | JSON.Normal a =>
          if JSON.strict_eq_text a (Constants.oscAddress Constants.SIGNAL_CONFIG)
          then triggerEffect None None (Some SrcOSC) s
          else Returned s
      end
  end.

(** [socket.onmessage(event)] *)
Definition onmessage (d : MessageData) (s : t) : outcome :=
  match onmessage_try d s with
  | Returned s' => Returned s'
  | Threw s' =>
      match d with
      | TextData raw =>
          if JSON.includes raw keyword
          then triggerEffect None None (Some SrcOSC) s'
          else Returned s'
      | _ => Returned s'
      end
  end.

(** The effects that depend on [audioReady] run again when it changes:
    the one asks for MIDI access [if (navigator.requestMIDIAccess)], the
    other opens the bridge socket unless [new WebSocket] throws, which it
    catches. *)
Definition commit (before : bool) (s : t) : t :=
  if negb before && audioReady s
  then set_adapters (requestMIDIAccess (platform s)) (onmidimessage s)
                    (webSocket (platform s)) s
  else s.

Definition commit_outcome (before : bool) (o : outcome) : outcome :=
  match o with
  | Returned s => Returned (commit before s)
  | Threw s => Threw (commit before s)
  end.

(** Everything the platform can deliver to the application. *)
Inductive Event :=
| Mount (c : RippleCanvas.Canvas)
| Resize (c : RippleCanvas.Canvas)
| AnimationFrame
| Click (clientX clientY : Q)
| StartButton
| KeyDown (code : string)
| MIDIAccess (granted : bool)
| MIDIMessage (data : list Byte.byte)
| SocketOpen
| SocketMessage (d : MessageData)
| Resumed
| Tick (dt : Q).

Definition on_audio_context (f : Audio.AudioContext -> Audio.AudioContext) (s : t) : t :=
  match Audio.context (audioService s) with
  | Some c => set_audio (Audio.with_context (audioService s) (f c)) s
  | None => s
  end.

Definition step (e : Event) (s : t) : outcome :=
  match e with
  | Mount c => Returned (set_canvas (RippleCanvas.mount c (canvas s)) s)
  | Resize c =>
      match RippleCanvas.canvasRef (canvas s) with
      | Some _ => Returned (set_canvas (RippleCanvas.mount c (canvas s)) s)
      | None => Returned s
      end
  | AnimationFrame =>
      match RippleCanvas.frame (canvas s) with
      | Some cv => Returned (set_canvas cv s)
      | None => Threw s
      end
  | Click x y => commit_outcome (audioReady s) (handleCanvasClick x y s)
  | StartButton =>
      if audioReady s then Returned s
      else commit_outcome false (startExperience s)
  | KeyDown code => commit_outcome (audioReady s) (handleKeyDown code s)
  | MIDIAccess granted =>
      if midiRequested s then
        if granted
        then Returned (setDebugMsg MIDIConnected (set_adapters false true (socket s) s))
        else Returned (set_adapters false (onmidimessage s) (socket s) s)
      else Returned s
  | MIDIMessage data =>
      if onmidimessage s then onMIDIMessage data s else Returned s
  | SocketOpen =>
      if socket s then Returned (setDebugMsg BridgeConnected s) else Returned s
  | SocketMessage d =>
      if socket s then onmessage d s else Returned s
  | Resumed => Returned (on_audio_context Audio.confirm_resume s)
  | Tick dt => Returned (on_audio_context (Audio.advance dt) s)
  end.

(** The application after a sequence of events; an uncaught exception
    ends its handler only. *)
Fixpoint run (es : list Event) (s : t) : t :=
  match es with
  | [] => s
  | e :: r => run r (state_of (step e s))
  end.

Definition user_gesture (e : Event) : bool :=
  match e with
  | Click _ _ | StartButton => true
  | KeyDown code => String.eqb code "Space" || String.eqb code "Enter"
  | _ => false
  end.

(** The four flags that gate the adapters. *)
Definition gates (s : t) : bool * bool * bool * bool :=
  (audioReady s, midiRequested s, onmidimessage s, socket s).

End App.

(* ====================================================================== *)
(** * Histories of the two time-stepped subsystems *)
(* ====================================================================== *)

(** The ripple field under a sequence of [addRipple] calls and frames. *)
Module Field.

Inductive op := Spawn (x y : option Q) | Frame.

Definition state : Type := RippleCanvas.t * Rand.t.

Definition apply (o : op) (st : state) : option state :=
  match o with
  | Spawn x y => Some (RippleCanvas.addRipple x y (snd st) (fst st))
  | Frame =>
      match RippleCanvas.frame (fst st) with
      | Some s => Some (s, snd st)
      | None => None
      end
  end.

Fixpoint exec (ops : list op) (st : state) : option state :=
  match ops with
  | [] => Some st
  | o :: r =>
      match apply o st with
      | Some st' => exec r st'
      | None => None
      end
  end.

Definition mounted (c : RippleCanvas.Canvas) (g : Rand.t) : state :=
  (RippleCanvas.mount c RippleCanvas.initial, g).

(** The lifetime that the constructor gives every entity. *)
Definition maxAge : Z := Ripple.maxAge (Ripple.new 0 0).

Fixpoint frames_in (ops : list op) : Z :=
  match ops with
  | [] => 0
  | Frame :: r => 1 + frames_in r
  | Spawn _ _ :: r => frames_in r
  end.

(** The spawns of a history whose age at its end is at most [maxAge]. *)
Fixpoint alive_spawns (ops : list op) : nat :=
  match ops with
  | [] => 0
  | Spawn _ _ :: r => (if frames_in r <=? maxAge then 1 else 0) + alive_spawns r
  | Frame :: r => alive_spawns r
  end.

Definition count (st : state) : nat := List.length (RippleCanvas.ripplesRef (fst st)).

(** What a frame draws for the entities of an array, in loop order. *)
Definition drawn_for (arr : list Ripple.t) : list RippleCanvas.CanvasOp :=
  map (fun r => RippleCanvas.DrawRipple (Ripple.draw (Ripple.update r))) (rev arr).

Definition survivors (arr : list Ripple.t) : list Ripple.t :=
  filter Ripple.active (map Ripple.update arr).

End Field.

(** The audio engine under calls of its methods and platform events. *)
Module Engine.

Inductive op :=
| Init (p : Audio.Construction)
| PlayRandomNote
| PlayTone (f : Q)
| GetContextState
| ConfirmResume
| Advance (dt : Q).

Definition state : Type := Audio.t * Rand.t.

Definition on_context (f : Audio.AudioContext -> Audio.AudioContext) (s : Audio.t) : Audio.t :=
  match Audio.context s with
  | Some c => Audio.with_context s (f c)
  | None => s
  end.

(** The engine after a call of [init()]: as it was, if the call threw. *)
Definition after_init (p : Audio.Construction) (s : Audio.t) : Audio.t :=
  match Audio.init p s with
  | Some s' => s'
  | None => s
  end.

Definition apply (o : op) (st : state) : state :=
  match o with
  | Init p => (after_init p (fst st), snd st)
  | PlayRandomNote =>
      match Audio.playRandomNote (snd st) (fst st) with
      | Some st' => st'
      | None => st
      end
  | PlayTone f => (Audio.playTone f (fst st), snd st)
  | GetContextState => st
  | ConfirmResume => (on_context Audio.confirm_resume (fst st), snd st)
  | Advance dt => (on_context (Audio.advance dt) (fst st), snd st)
  end.

Definition exec (ops : list op) (st : state) : state := fold_left (fun s o => apply o s) ops st.

Definition start (g : Rand.t) : state := (Audio.initial, g).

(** The transitions of the engine's observable state. *)
Definition allowed (a b : Audio.ContextState) : bool :=
  match a, b with
  | Audio.uninitialized, Audio.ctx_state Audio.running => true
  | Audio.uninitialized, Audio.ctx_state Audio.suspended => true
  | Audio.ctx_state Audio.suspended, Audio.ctx_state Audio.running => true
  | _, _ => false
  end.

Definition resume_pending (s : Audio.t) : bool :=
  match Audio.context s with
  | Some c => Audio.resumeRequested c
  | None => false
  end.

(** What a caller can tell of the engine: its state, whether a resume is
    pending, and how many contexts were ever made. *)
Definition view (s : Audio.t) : Audio.ContextState * bool * nat :=
  (Audio.getContextState s, resume_pending s, Audio.constructed s).

End Engine.

(* ====================================================================== *)
(** * Predicates used in the statements *)
(* ====================================================================== *)

Module Spec.

(** [active == (age <= maxAge)] *)
Definition ripple_inv (r : Ripple.t) : Prop :=
  Ripple.active r = (Ripple.age r <=? Ripple.maxAge r).

(** An entity as it sits in the collection between two frames. *)
Definition kept (r : Ripple.t) : Prop :=
  Ripple.maxAge r = Field.maxAge /\ 0 <= Ripple.age r <= Field.maxAge /\
  Ripple.active r = true.

(** An entry of the drawing log, when it is an entity. *)
Definition drawn (P : Ripple.Drawn -> Prop) (o : RippleCanvas.CanvasOp) : Prop :=
  match o with
  | RippleCanvas.DrawRipple d => P d
  | RippleCanvas.FillRect _ _ _ => True
  end.

(** An entity as a frame draws it. *)
Definition drawn_ok (d : Ripple.Drawn) : Prop :=
  let r := Ripple.subject d in
  d = Ripple.draw r /\ Ripple.maxAge r = Field.maxAge /\
  1 <= Ripple.age r <= Field.maxAge + 1 /\ ripple_inv r.

(** The entity's age is still at most [maxAge] after [k] more frames. *)
Definition alive_in (k : Z) (r : Ripple.t) : bool :=
  Ripple.age r + k <=? Field.maxAge.

(** The radius of an entity as a frame draws it: the linear formula, the
    three rings scaled from it, and its range. *)
Definition radius_ok (d : Ripple.Drawn) : Prop :=
  let r := Ripple.subject d in
  (Constants.maxRadius Constants.VISUAL_CONFIG == 80 /\
   Ripple.currentRadius r ==
     5 + (Constants.maxRadius Constants.VISUAL_CONFIG - 5)
         * (inject_Z (Ripple.age r) / inject_Z (Ripple.maxAge r)))%Q /\
  Ripple.arcs d =
    map (fun i => {| Ripple.cx := Ripple.x r; Ripple.cy := Ripple.y r;
                     Ripple.radius := (Ripple.currentRadius r * Ripple.ringScale i)%Q |})
        [0; 1; 2]%nat /\
  (5 < Ripple.currentRadius r /\ Ripple.currentRadius r <= 80.75)%Q /\
  (Ripple.age r <= Ripple.maxAge r -> (Ripple.currentRadius r <= 80)%Q) /\
  (Ripple.age r = Ripple.maxAge r + 1 ->
   Ripple.active r = false /\
   (Ripple.currentRadius r == 80.75 /\ Ripple.strokeOpacity d == 0)%Q).

(** The pair of nodes that is one voice started at time [t0] at
    frequency [f]; [gn] is the identifier of its gain node.  [voice_osc]
    is the oscillator while it sounds, [ended_voice_osc] once its [ended]
    event has been dispatched. *)
Definition voice_osc (f t0 : Q) (gn : nat) : Audio.AudioNode :=
  Audio.Osc {| Audio.type := Audio.sine;
               Audio.frequency := [Audio.SetValueAtTime f t0];
               Audio.startTime := Some t0;
               Audio.stopTime := Some (t0 + 1.5 + 0.1)%Q;
               Audio.onended := Some gn;
               Audio.ended := false |}.

Definition ended_voice_osc (f t0 : Q) (gn : nat) : Audio.AudioNode :=
  Audio.Osc {| Audio.type := Audio.sine;
               Audio.frequency := [Audio.SetValueAtTime f t0];
               Audio.startTime := Some t0;
               Audio.stopTime := Some (t0 + 1.5 + 0.1)%Q;
               Audio.onended := Some gn;
               Audio.ended := true |}.

(** The voice started at [t0] is over at clock time [now]. *)
Definition over (now t0 : Q) : bool := Qle_bool (t0 + 1.5 + 0.1) now.

Definition voice_gain (t0 : Q) : Audio.AudioNode :=
  Audio.Gn {| Audio.gain := [Audio.SetValueAtTime 0 t0;
                             Audio.LinearRampToValueAtTime 0.8 (t0 + 0.05);
                             Audio.ExponentialRampToValueAtTime 0.001 (t0 + 1.5)] |}.

(** A graph that, at clock time [now], consists of such voices only: each
    oscillator wired to its gain node, and the gain node wired to the
    destination exactly while the voice is not over. *)
Inductive voices_only (now : Q) : list Audio.AudioNode -> list (nat * Audio.Endpoint) -> Prop :=
| no_voice : voices_only now [] []
| one_more ns cs f t0 :
    voices_only now ns cs ->
    voices_only now
      (ns ++ [if over now t0
              then ended_voice_osc f t0 (S (List.length ns))
              else voice_osc f t0 (S (List.length ns));
              voice_gain t0])
      (cs ++ (List.length ns, Audio.ToNode (S (List.length ns)))
             :: if over now t0 then [] else [(S (List.length ns), Audio.Destination)]).


(** What holds of the engine at every point of a history: the context,
    once made, is the only one ever made, is enabled and not closed, and
    its graph holds voices only. *)
Definition engine_ok (s : Audio.t) : Prop :=
  match Audio.context s with
  | None => Audio.constructed s = 0%nat /\ Audio.isEnabled s = false
  | Some c =>
      Audio.constructed s = 1%nat /\ Audio.isEnabled s = true /\
      Audio.state c <> Audio.closed /\
      voices_only (Audio.currentTime c) (Audio.nodes c) (Audio.connections c)
  end.

(** A MIDI message is a Note On when the high nibble of its status byte
    is 9 and its velocity byte is not zero. *)
Definition note_on (data : list Byte.byte) : bool :=
  match data with
  | status :: _ :: velocity :: _ =>
      (N.shiftr (Byte.to_N status) 4 =? 9)%N && negb (Byte.to_N velocity =? 0)%N
  | _ => false
  end.

(** A parsed message addresses the target when it is a record whose
    [address] field is the configured string. *)
Definition addresses_target (v : JSON.value) : bool :=
  match v with
  | JSON.JObject ms =>
      match JSON.lookup (Constants.str "address") ms with
      | Some (JSON.JString a) =>
          JSON.text_eqb a (Constants.oscAddress Constants.SIGNAL_CONFIG)
      | _ => false
      end
  | _ => false
  end.

(** The trigger that the MIDI adapter and the bridge adapter produce. *)
Definition midi_trigger (data : list Byte.byte) : App.Trigger :=
  {| App.tx := None; App.ty := None;
     App.source := Some (App.SrcMIDI (nth_error data 1)) |}.

Definition osc_trigger : App.Trigger :=
  {| App.tx := None; App.ty := None; App.source := Some App.SrcOSC |}.

(** The dispatcher is locked, and none of the two adapters that wait for
    the unlocking is set up. *)
Definition adapters_wait (s : App.t) : Prop :=
  App.audioReady s = false ->
  App.midiRequested s = false /\ App.onmidimessage s = false /\ App.socket s = false.

(** What holds of the field at every point of a history. *)
Definition field_ok (s : RippleCanvas.t) : Prop :=
  Forall kept (RippleCanvas.ripplesRef s) /\
  Forall (drawn drawn_ok) (RippleCanvas.ctx s).

End Spec.

(** Concrete situations on which the statements are exercised. *)
Module Scenario.

Definition c0 : RippleCanvas.Canvas := {| RippleCanvas.width := 800; RippleCanvas.height := 600 |}.

Definition g0 : Rand.t := Rand.constant 1 2.

(** One spawn at the origin, then [n] frames. *)
Definition spawn_then (n : nat) : list Field.op :=
  Field.Spawn (Some 0%Q) (Some 0%Q) :: repeat Field.Frame n.

(** The mounted field holding one fresh entity. *)
Definition one_ripple : Field.state :=
  ({| RippleCanvas.canvasRef := Some c0;
      RippleCanvas.ripplesRef := [Ripple.new 0 0];
      RippleCanvas.animationFrameRef := 0;
      RippleCanvas.ctx := [] |}, g0).

(** Three platforms: one whose audio context starts at once, one that
    defers its start, one without an audio context class. *)
Definition plain : App.Platform :=
  {| App.audioContext := Audio.Starts false; App.requestMIDIAccess := true;
     App.webSocket := true |}.

Definition deferring : App.Platform :=
  {| App.audioContext := Audio.Starts true; App.requestMIDIAccess := true;
     App.webSocket := true |}.

Definition bare : App.Platform :=
  {| App.audioContext := Audio.Throws; App.requestMIDIAccess := false;
     App.webSocket := false |}.

(** The application once its canvas is mounted and a click has unlocked
    it, on the platform whose context starts at once: the engine is
    Running, the adapters are set up. *)
Definition playing : App.t :=
  App.run [App.Mount c0; App.Click 100 200; App.MIDIAccess true] (App.initial plain g0).

(** The engine after one [init()] whose context the platform defers. *)
Definition deferred_engine : Audio.t :=
  fst (Engine.apply (Engine.Init (Audio.Starts true)) (Engine.start g0)).

(** The three MIDI messages and the three bridge messages of the
    examples. *)
Definition note_on_60 : list Byte.byte := [Byte.x90; Byte.x3c; Byte.x64].
Definition note_on_velocity_0 : list Byte.byte := [Byte.x90; Byte.x3c; Byte.x00].
Definition note_off_60 : list Byte.byte := [Byte.x80; Byte.x3c; Byte.x64].

Definition msg_target : Constants.text :=
  JSON.js "{'address':'/sensor/vibration','args':[]}".
Definition msg_other : Constants.text := JSON.js "{'address':'/other'}".
Definition msg_raw : Constants.text := JSON.js "random vibration alert".
Definition msg_other_vibration : Constants.text :=
  JSON.js "{'address':'/other/vibration'}".
Definition msg_null : Constants.text := JSON.js "null".

(** The entity of [spawn_then] as its last frame draws it. *)
Definition expired : Ripple.t :=
  {| Ripple.x := 0; Ripple.y := 0; Ripple.age := 101; Ripple.maxAge := 100;
     Ripple.active := false |}.

(** A history that leaves the dispatcher locked: the canvas is mounted
    and resized, frames pass, keys that are no gesture are pressed, and
    MIDI and bridge events arrive that find no handler. *)
Definition locked_history : list App.Event :=
  [App.Mount c0; App.AnimationFrame; App.KeyDown "Escape"; App.MIDIAccess true;
   App.MIDIMessage note_on_60; App.SocketOpen; App.SocketMessage (App.TextData msg_target);
   App.Resize c0; App.Tick 2].

End Scenario.

(* ====================================================================== *)
(** * Further notions: lifetimes, drawing counts, the shape of the graph *)
(* ====================================================================== *)

Module Lifetime.

(** [n] calls of [update()] on an entity. *)
Fixpoint updates (n : nat) (r : Ripple.t) : Ripple.t :=
  match n with
  | O => r
  | S k => Ripple.update (updates k r)
  end.

(** The entities drawn in a drawing log. *)
Fixpoint draws (log : list RippleCanvas.CanvasOp) : list Ripple.Drawn :=
  match log with
  | [] => []
  | RippleCanvas.DrawRipple d :: r => d :: draws r
  | RippleCanvas.FillRect _ _ _ :: r => draws r
  end.

(** The background fills of a drawing log. *)
Fixpoint clears (log : list RippleCanvas.CanvasOp) : nat :=
  match log with
  | [] => 0
  | RippleCanvas.FillRect _ _ _ :: r => S (clears r)
  | RippleCanvas.DrawRipple _ :: r => clears r
  end.

(** The frames, among the next [k], that still draw an entity. *)
Definition remaining (k : Z) (r : Ripple.t) : Z :=
  Z.min k (Field.maxAge + 1 - Ripple.age r).

Fixpoint total_remaining (k : Z) (arr : list Ripple.t) : Z :=
  match arr with
  | [] => 0
  | r :: rest => remaining k r + total_remaining k rest
  end.

(** The drawings that the spawns of a history are due: each spawn one per
    frame that follows it, up to [maxAge + 1]. *)
Fixpoint spawn_draws (ops : list Field.op) : Z :=
  match ops with
  | [] => 0
  | Field.Spawn _ _ :: r => Z.min (Field.frames_in r) (Field.maxAge + 1) + spawn_draws r
  | Field.Frame :: r => spawn_draws r
  end.

(** [a] is at least as old as [b]. *)
Definition older (a b : Ripple.t) : Prop := Ripple.age b <= Ripple.age a.

End Lifetime.

Module Graph.

(** The nodes and the connections of the engine's graph; none before the
    context exists. *)
Definition nodes_of (s : Audio.t) : list Audio.AudioNode :=
  match Audio.context s with
  | Some c => Audio.nodes c
  | None => []
  end.

Definition connections_of (s : Audio.t) : list (nat * Audio.Endpoint) :=
  match Audio.context s with
  | Some c => Audio.connections c
  | None => []
  end.

(** A connection that leads an oscillator into the gain node created right
    after it, or a gain node into the destination. *)
Definition wired (ns : list Audio.AudioNode) (e : nat * Audio.Endpoint) : Prop :=
  match e with
  | (i, Audio.ToNode j) =>
      j = S i /\ (exists o, nth_error ns i = Some (Audio.Osc o)) /\
      (exists g, nth_error ns j = Some (Audio.Gn g))
  | (j, Audio.Destination) => exists g, nth_error ns j = Some (Audio.Gn g)
  end.

(** An oscillator that sounds a note of the scale. *)
Definition scale_tone (n : Audio.AudioNode) : Prop :=
  match n with
  | Audio.Osc o =>
      exists note t,
        In note Constants.PENTATONIC_SCALE /\
        Audio.frequency o = [Audio.SetValueAtTime (Constants.freq note) t]
  | Audio.Gn _ => True
  end.

(** What one operation adds to the graph: nothing, or one voice. *)
Definition grows_by_a_voice (before after : Audio.t) : Prop :=
  exists ns cs,
    nodes_of after = nodes_of before ++ ns /\
    connections_of after = connections_of before ++ cs /\
    ((ns = [] /\ cs = []) \/
     exists f t0,
       ns = [Spec.voice_osc f t0 (S (List.length (nodes_of before))); Spec.voice_gain t0] /\
       cs = [(List.length (nodes_of before),
              Audio.ToNode (S (List.length (nodes_of before))));
             (S (List.length (nodes_of before)), Audio.Destination)]).

(** A node without the mark that its [ended] event leaves. *)
Definition unended (n : Audio.AudioNode) : Audio.AudioNode :=
  Audio.on_osc (fun o =>
    {| Audio.type := Audio.type o; Audio.frequency := Audio.frequency o;
       Audio.startTime := Audio.startTime o; Audio.stopTime := Audio.stopTime o;
       Audio.onended := Audio.onended o; Audio.ended := false |}) n.

(** The oscillators that have not ended. *)
Definition is_sounding (n : Audio.AudioNode) : bool :=
  match n with
  | Audio.Osc o => negb (Audio.ended o)
  | Audio.Gn _ => false
  end.

Definition sounding (s : Audio.t) : list Audio.AudioNode :=
  filter is_sounding (nodes_of s).

Definition clock_of (s : Audio.t) : Q :=
  match Audio.context s with
  | Some c => Audio.currentTime c
  | None => 0
  end.

(** What the passing of time does to the graph: the nodes stay, up to
    the mark of the ended; no connection is added; and a connection goes
    only if it leaves the node that the callback of an oscillator names
    whose stop time has come. *)
Definition releases_the_ended (before after : Audio.t) : Prop :=
  map unended (nodes_of after) = map unended (nodes_of before) /\
  (forall e, In e (connections_of after) -> In e (connections_of before)) /\
  (forall e,
     In e (connections_of before) -> ~ In e (connections_of after) ->
     exists i o ts,
       nth_error (nodes_of before) i = Some (Audio.Osc o) /\
       Audio.onended o = Some (fst e) /\ Audio.ended o = false /\
       Audio.stopTime o = Some ts /\ (ts <= clock_of after)%Q).

End Graph.

Module Dispatch.

(** One move of the engine as the application makes it: [init()],
    [playRandomNote()], or the platform confirming a resume or advancing
    the clock. *)
Inductive audio_move : Audio.t -> Audio.t -> Prop :=
| move_init p a : audio_move a (Engine.after_init p a)
| move_play g a a' g' :
    Audio.playRandomNote g a = Some (a', g') -> audio_move a a'
| move_confirm a : audio_move a (Engine.on_context Audio.confirm_resume a)
| move_advance dt a : audio_move a (Engine.on_context (Audio.advance dt) a).

Inductive audio_path : Audio.t -> Audio.t -> Prop :=
| path_nil a : audio_path a a
| path_cons a b c : audio_move a b -> audio_path b c -> audio_path a c.

(** Only the pointer gives a trigger its coordinates. *)
Definition coordinates_from_click (tr : App.Trigger) : Prop :=
  match App.source tr with
  | Some App.SrcClick => App.tx tr <> None /\ App.ty tr <> None
  | _ => App.tx tr = None /\ App.ty tr = None
  end.

Definition voices_of (s : App.t) : list Audio.AudioNode :=
  Audio.voices (App.audioService s).

Definition ripples_of (s : App.t) : list Ripple.t :=
  RippleCanvas.ripplesRef (App.canvas s).

Definition click_trigger (x y : Q) : App.Trigger :=
  {| App.tx := Some x; App.ty := Some y; App.source := Some App.SrcClick |}.

Definition key_trigger : App.Trigger :=
  {| App.tx := None; App.ty := None; App.source := Some App.SrcKeyboard |}.

Definition is_trigger_key (code : string) : bool :=
  String.eqb code "Space" || String.eqb code "Enter".

Definition has_context (a : Audio.t) : Prop := exists c, Audio.context a = Some c.

(** The entity that a trigger spawns on the canvas [c]: at the trigger's
    coordinates, a missing coordinate being the next draw of the random
    source [g] scaled by the width or the height. *)
Definition spawned (tr : App.Trigger) (c : RippleCanvas.Canvas) (g : Rand.t) : Ripple.t :=
  let u := Rand.value (Rand.draw_at g (Rand.pos g)) in
  let u' := Rand.value (Rand.draw_at g (S (Rand.pos g))) in
  match App.tx tr, App.ty tr with
  | Some x, Some y => Ripple.new x y
  | Some x, None => Ripple.new x (u * RippleCanvas.height c)
  | None, Some y => Ripple.new (u * RippleCanvas.width c) y
  | None, None => Ripple.new (u * RippleCanvas.width c) (u' * RippleCanvas.height c)
  end.

(** The engine [a'] is [a] with one voice more: an oscillator at the
    frequency of a note of the scale, started at the clock's time, and its
    gain node, wired to each other and to the destination. *)
Definition one_voice_more (a a' : Audio.t) : Prop :=
  exists c note,
    Audio.context a = Some c /\ In note Constants.PENTATONIC_SCALE /\
    a' = Audio.with_context a
           {| Audio.state := Audio.state c; Audio.currentTime := Audio.currentTime c;
              Audio.resumeRequested := Audio.resumeRequested c;
              Audio.nodes :=
                Audio.nodes c
                ++ [Spec.voice_osc (Constants.freq note) (Audio.currentTime c)
                                   (S (List.length (Audio.nodes c)));
                    Spec.voice_gain (Audio.currentTime c)];
              Audio.connections :=
                Audio.connections c
                ++ [(List.length (Audio.nodes c),
                     Audio.ToNode (S (List.length (Audio.nodes c))));
                    (S (List.length (Audio.nodes c)), Audio.Destination)] |}.

(** Exactly one trigger, with all that it does: the trigger is recorded
    and shown; exactly one entity is spawned when the canvas is mounted
    (none otherwise), and nothing is drawn; exactly one note is played when
    the engine is Running (with the enabled flag that a context comes
    with), and the engine is left alone otherwise; the lock and the
    adapters stay as they are. *)
Definition fires (tr : App.Trigger) (s s' : App.t) : Prop :=
  App.triggers s' = App.triggers s ++ [tr] /\
  App.debugMsg s' = match App.source tr with
                    | Some so => App.TriggerMsg so
                    | None => App.debugMsg s
                    end /\
  ripples_of s' = ripples_of s
                  ++ match RippleCanvas.canvasRef (App.canvas s) with
                     | Some c => [spawned tr c (App.rng s)]
                     | None => []
                     end /\
  RippleCanvas.canvasRef (App.canvas s') = RippleCanvas.canvasRef (App.canvas s) /\
  RippleCanvas.ctx (App.canvas s') = RippleCanvas.ctx (App.canvas s) /\
  (if App.is_running (Audio.getContextState (App.audioService s))
      && Audio.isEnabled (App.audioService s)
   then one_voice_more (App.audioService s) (App.audioService s')
   else App.audioService s' = App.audioService s) /\
  App.gates s' = App.gates s /\
  App.platform s' = App.platform s.

(** While the dispatcher is locked the engine has never been touched; once
    it is unlocked the context exists. *)
Definition engine_follows_lock (p : App.Platform) (s : App.t) : Prop :=
  App.platform s = p /\
  (App.audioReady s = false -> App.audioService s = Audio.initial) /\
  (App.audioReady s = true -> has_context (App.audioService s)).

End Dispatch.

(** The effect of the canvas component (its mount and cleanup), the resize
    listener and the frames the platform runs.  Frame requests are kept in
    a queue of handles; [render] asks for one at the end of each pass. *)
Module Loop.

Record t := {
  field : RippleCanvas.t;
  window : RippleCanvas.Canvas;     (* [window.innerWidth], [window.innerHeight] *)
  queue : list nat;                 (* frames requested, neither run nor cancelled yet *)
  listening : bool;                 (* [handleResize] is a listener of the window *)
  cleanup : bool;                   (* the effect has returned its cleanup function *)
  rng : Rand.t
}.

Definition boot (w : RippleCanvas.Canvas) (g : Rand.t) : t :=
  {| field := RippleCanvas.initial; window := w; queue := []; listening := false;
     cleanup := false; rng := g |}.

Definition with_field (f : RippleCanvas.t) (s : t) : t :=
  {| field := f; window := window s; queue := queue s; listening := listening s;
     cleanup := cleanup s; rng := rng s |}.

Definition with_queue (q : list nat) (s : t) : t :=
  {| field := field s; window := window s; queue := q; listening := listening s;
     cleanup := cleanup s; rng := rng s |}.

(** The canvas element is attached to [canvasRef] before the effect runs,
    and detached when the component goes. *)
Definition attach (c : RippleCanvas.Canvas) (s : t) : t :=
  with_field (RippleCanvas.mount c (field s)) s.

Definition detach (f : RippleCanvas.t) : RippleCanvas.t :=
  {| RippleCanvas.canvasRef := None;
     RippleCanvas.ripplesRef := RippleCanvas.ripplesRef f;
     RippleCanvas.animationFrameRef := RippleCanvas.animationFrameRef f;
     RippleCanvas.ctx := RippleCanvas.ctx f |}.

(** [handleResize()] *)
Definition handleResize (s : t) : t :=
  with_field (RippleCanvas.mount (window s) (field s)) s.

(** [render()]: one pass, then
    [animationFrameRef.current = requestAnimationFrame(render)]. *)
Definition render (s : t) : option t :=
  match RippleCanvas.canvasRef (field s) with
  | None => None
  | Some c =>
      match RippleCanvas.render c (field s) with
      | None => None
      | Some f => Some (with_queue (queue s ++ [RippleCanvas.animationFrameRef f])
                                   (with_field f s))
      end
  end.

(** The body of [useEffect]; [has2d] tells whether [getContext('2d')]
    gives a context. *)
Definition effect (has2d : bool) (s : t) : t :=
  match RippleCanvas.canvasRef (field s) with
  | None => s
  | Some _ =>
      if has2d then
        let s1 := {| field := field s; window := window s; queue := queue s;
                     listening := true; cleanup := cleanup s; rng := rng s |} in
        let s2 := handleResize s1 in
        match render s2 with
        | Some s3 => {| field := field s3; window := window s3; queue := queue s3;
                        listening := listening s3; cleanup := true; rng := rng s3 |}
        | None => s2
        end
      else s
  end.

(** [cancelAnimationFrame(id)] *)
Definition cancel (id : nat) (q : list nat) : list nat :=
  filter (fun i => negb (Nat.eqb i id)) q.

(** The function that the effect returns. *)
Definition run_cleanup (s : t) : t :=
  {| field := field s; window := window s;
     queue := cancel (RippleCanvas.animationFrameRef (field s)) (queue s);
     listening := false; cleanup := false; rng := rng s |}.

Inductive event :=
| AnimationFrame
| WindowResize (w : RippleCanvas.Canvas)
| AddRipple (x y : option Q)
| Unmount.

Definition step (e : event) (s : t) : t :=
  match e with
  | AnimationFrame =>
      match queue s with
      | [] => s
      | _ :: rest =>
          match render (with_queue rest s) with
          | Some s' => s'
          | None => with_queue rest s
          end
      end
  | WindowResize w =>
      let s1 := {| field := field s; window := w; queue := queue s;
                   listening := listening s; cleanup := cleanup s; rng := rng s |} in
      if listening s then handleResize s1 else s1
  | AddRipple x y =>
      let '(f, g) := RippleCanvas.addRipple x y (rng s) (field s) in
      {| field := f; window := window s; queue := queue s; listening := listening s;
         cleanup := cleanup s; rng := g |}
  | Unmount =>
      let s1 := if cleanup s then run_cleanup s else s in
      with_field (detach (field s1)) s1
  end.

Definition run (es : list event) (s : t) : t := fold_left (fun s e => step e s) es s.

Definition mounted (has2d : bool) (c w : RippleCanvas.Canvas) (g : Rand.t) : t :=
  effect has2d (attach c (boot w g)).

Definition is_unmount (e : event) : bool :=
  match e with Unmount => true | _ => false end.

(** The loop is alive: just one frame is pending, the one that
    [animationFrameRef] names; the listener is on, and the canvas has the
    size of the window. *)
Definition alive (s : t) : Prop :=
  queue s = [RippleCanvas.animationFrameRef (field s)] /\
  listening s = true /\ cleanup s = true /\
  RippleCanvas.canvasRef (field s) = Some (window s).

(** The loop is dead: nothing pending, no listener, no canvas. *)
Definition dead (s : t) : Prop :=
  queue s = [] /\ listening s = false /\ cleanup s = false /\
  RippleCanvas.canvasRef (field s) = None.

(** The loop never started: nothing pending, no listener, nothing drawn,
    and every entity as its constructor left it. *)
Definition fresh (r : Ripple.t) : Prop :=
  Ripple.age r = 0 /\ Ripple.active r = true.

Definition idle (s : t) : Prop :=
  queue s = [] /\ listening s = false /\ cleanup s = false /\
  RippleCanvas.ctx (field s) = [] /\
  RippleCanvas.animationFrameRef (field s) = 0%nat /\
  Forall fresh (RippleCanvas.ripplesRef (field s)).

End Loop.

(* ====================================================================== *)
(** * Properties of the ripple entity and of the render loop *)
(* ====================================================================== *)

Section RippleFacts.

Import Ripple.

Lemma ripple_inv_new x0 y0 : Spec.ripple_inv (Ripple.new x0 y0).
Proof. reflexivity. Qed.

Lemma ripple_inv_update r : Spec.ripple_inv r -> Spec.ripple_inv (Ripple.update r).
Proof.
  unfold Spec.ripple_inv, Ripple.update; cbn.
  intros H. destruct (Z.gtb_spec (age r + 1) (maxAge r)) as [Hgt|Hle].
  - symmetry. apply Z.leb_gt. lia.
  - rewrite H. transitivity true; [apply Z.leb_le|symmetry; apply Z.leb_le]; lia.
Qed.

Lemma update_age r : age (update r) = (age r + 1)%Z.
Proof. reflexivity. Qed.

Lemma update_active r :
  active (update r) = active r && (age r + 1 <=? maxAge r).
Proof.
  unfold update; cbn. rewrite Z.gtb_ltb, Z.ltb_antisym.
  destruct (age r + 1 <=? maxAge r), (active r); reflexivity.
Qed.

End RippleFacts.

Section RenderLoop.

Import RippleCanvas.

Lemma nth_error_mid {A} (pre : list A) a post :
  nth_error (pre ++ a :: post) (List.length pre) = Some a.
Proof. induction pre; cbn; auto. Qed.

Lemma set_nth_mid {A} (pre : list A) a b post :
  set_nth (List.length pre) b (pre ++ a :: post) = pre ++ b :: post.
Proof. induction pre; cbn; congruence. Qed.

Lemma splice1_mid {A} (pre : list A) a post :
  splice1 (List.length pre) (pre ++ a :: post) = pre ++ post.
Proof. induction pre; cbn; congruence. Qed.

Lemma survivors_snoc pre r :
  Field.survivors (pre ++ [r]) =
  Field.survivors pre ++ (if Ripple.active (Ripple.update r) then [Ripple.update r] else []).
Proof.
  unfold Field.survivors. rewrite map_app, filter_app. cbn.
  destruct (Ripple.active (Ripple.update r)); reflexivity.
Qed.

Lemma drawn_for_snoc pre r :
  Field.drawn_for (pre ++ [r]) =
  DrawRipple (Ripple.draw (Ripple.update r)) :: Field.drawn_for pre.
Proof. unfold Field.drawn_for. rewrite rev_app_distr. reflexivity. Qed.

(** The loop with [length pre] iterations left, the cells behind them
    ([post]) already done: every entity of [pre] is updated and drawn
    once, from the last to the first, and the expired ones are gone. *)
Lemma render_loop_prefix pre : forall post log,
  render_loop (List.length pre) (pre ++ post) log =
  Some (Field.survivors pre ++ post, log ++ Field.drawn_for pre).
Proof.
  induction pre as [|r pre IH] using rev_ind; intros post log.
  - cbn. now rewrite app_nil_r.
  - rewrite length_app, Nat.add_1_r, <- app_assoc. cbn [app render_loop].
    rewrite nth_error_mid, set_nth_mid, survivors_snoc, drawn_for_snoc.
    destruct (Ripple.active (Ripple.update r)); cbn [negb].
    + rewrite IH, <- !app_assoc. reflexivity.
    + rewrite splice1_mid, IH, app_nil_r, <- !app_assoc. reflexivity.
Qed.

Lemma render_loop_spec arr log :
  render_loop (List.length arr) arr log =
  Some (Field.survivors arr, log ++ Field.drawn_for arr).
Proof.
  pose proof (render_loop_prefix arr [] log) as H.
  now rewrite !app_nil_r in H.
Qed.

Lemma render_spec c s :
  render c s =
  Some {| canvasRef := canvasRef s;
          ripplesRef := Field.survivors (ripplesRef s);
          animationFrameRef := S (animationFrameRef s);
          ctx := (ctx s ++ [FillRect (Constants.bgColor Constants.VISUAL_CONFIG)
                                     (width c) (height c)])
                 ++ Field.drawn_for (ripplesRef s) |}.
Proof. unfold render. now rewrite render_loop_spec. Qed.

Lemma frame_total s : exists s', frame s = Some s'.
Proof.
  unfold frame. destruct (canvasRef s); [rewrite render_spec|]; eauto.
Qed.

End RenderLoop.

Section RadiusFacts.

Import Ripple.
Local Open Scope Q_scope.

Lemma currentRadius_eq r :
  Ripple.maxAge r = Field.maxAge ->
  currentRadius r == 5 + (80 - 5) * (inject_Z (age r) / 100).
Proof.
  intros H. unfold currentRadius, progress. rewrite H. reflexivity.
Qed.

Lemma currentRadius_linear r :
  Ripple.maxAge r = Field.maxAge ->
  currentRadius r == 5 + (3 # 4) * inject_Z (age r).
Proof.
  intros H. rewrite (currentRadius_eq r H). field.
Qed.

Lemma currentRadius_lt r1 r2 :
  Ripple.maxAge r1 = Field.maxAge -> Ripple.maxAge r2 = Field.maxAge ->
  (age r1 < age r2)%Z -> currentRadius r1 < currentRadius r2.
Proof.
  intros H1 H2 Hlt.
  rewrite (currentRadius_linear r1 H1), (currentRadius_linear r2 H2).
  rewrite Zlt_Qlt in Hlt. lra.
Qed.

Lemma currentRadius_le r1 r2 :
  Ripple.maxAge r1 = Field.maxAge -> Ripple.maxAge r2 = Field.maxAge ->
  (age r1 <= age r2)%Z -> currentRadius r1 <= currentRadius r2.
Proof.
  intros H1 H2 Hle.
  rewrite (currentRadius_linear r1 H1), (currentRadius_linear r2 H2).
  rewrite Zle_Qle in Hle. lra.
Qed.

Lemma currentRadius_bounds r :
  Ripple.maxAge r = Field.maxAge ->
  (0 <= age r <= Field.maxAge)%Z -> 5 <= currentRadius r <= 80.
Proof.
  intros H [H0 H1]. rewrite (currentRadius_linear r H).
  rewrite Zle_Qle in H0, H1. change (inject_Z Field.maxAge) with 100 in H1.
  change (inject_Z 0) with 0 in H0. lra.
Qed.

Lemma currentRadius_last r :
  Ripple.maxAge r = Field.maxAge ->
  age r = (Field.maxAge + 1)%Z -> currentRadius r == 80.75.
Proof.
  intros H Ha. rewrite (currentRadius_linear r H), Ha. reflexivity.
Qed.

Lemma opacity_last r :
  Ripple.maxAge r = Field.maxAge ->
  age r = (Field.maxAge + 1)%Z -> opacity r == 0.
Proof.
  intros H Ha. unfold opacity, progress. rewrite H, Ha. reflexivity.
Qed.

End RadiusFacts.

Section RingFacts.

Import Ripple.
Local Open Scope Q_scope.

Lemma ringScale_pos i : (i < ringCount)%nat -> 0 < ringScale i.
Proof.
  unfold ringCount. intros H.
  destruct i as [|[|[|i]]]; [reflexivity..|lia].
Qed.

Lemma ringRadius_pos r i :
  Ripple.maxAge r = Field.maxAge -> (0 <= age r)%Z -> (i < ringCount)%nat ->
  0 < ringRadius r i.
Proof.
  intros H Ha Hi. unfold ringRadius.
  apply Qmult_lt_0_compat; [|now apply ringScale_pos].
  rewrite (currentRadius_linear r H). rewrite Zle_Qle in Ha.
  change (inject_Z 0) with 0 in Ha. lra.
Qed.

(** All three rings of an entity are stroked. *)
Lemma rings_three r :
  Ripple.maxAge r = Field.maxAge -> (0 <= age r)%Z ->
  rings r = map (fun i => {| cx := x r; cy := y r; radius := ringRadius r i |}) [0; 1; 2]%nat.
Proof.
  intros H Ha. unfold rings. cbn [seq ringCount flat_map map].
  repeat match goal with
         | |- context [Qlt_le_dec 0 (ringRadius r ?i)] =>
             destruct (Qlt_le_dec 0 (ringRadius r i)) as [_|Hn];
             [|exfalso; apply (Qlt_not_le _ _ (ringRadius_pos r i H Ha ltac:(unfold ringCount; lia)) Hn)]
         end.
  reflexivity.
Qed.

Lemma ringRadius_outer r : ringRadius r 0 == currentRadius r.
Proof. unfold ringRadius, ringScale. cbn. ring. Qed.

End RingFacts.

Section FieldInvariant.

Import RippleCanvas.

Lemma kept_new x0 y0 : Spec.kept (Ripple.new x0 y0).
Proof. repeat split; cbn; unfold Field.maxAge; cbn; lia. Qed.

Lemma kept_inv r : Spec.kept r -> Spec.ripple_inv r.
Proof.
  intros (Hm & Ha & Hact). unfold Spec.ripple_inv. rewrite Hact, Hm.
  symmetry. apply Z.leb_le. lia.
Qed.

Lemma kept_update r :
  Spec.kept r ->
  Spec.drawn_ok (Ripple.draw (Ripple.update r)) /\
  Ripple.active (Ripple.update r) = (Ripple.age r + 1 <=? Field.maxAge) /\
  (Ripple.active (Ripple.update r) = true -> Spec.kept (Ripple.update r)).
Proof.
  intros Hk. pose proof (kept_inv r Hk) as Hi.
  destruct Hk as (Hm & Ha & Hact).
  assert (Hu : Ripple.active (Ripple.update r) = (Ripple.age r + 1 <=? Field.maxAge)).
  { rewrite update_active, Hact, Hm. reflexivity. }
  split; [|split]; trivial.
  - unfold Spec.drawn_ok. cbn [Ripple.subject Ripple.draw].
    split; [reflexivity|]. split; [exact Hm|]. split.
    + rewrite update_age. lia.
    + apply (ripple_inv_update r Hi).
  - rewrite Hu. intros Hle%Z.leb_le. unfold Spec.kept.
    split; [exact Hm|]. split; [rewrite update_age; lia|].
    rewrite update_active, Hact, Hm. apply Z.leb_le. lia.
Qed.

Lemma survivors_kept arr :
  Forall Spec.kept arr -> Forall Spec.kept (Field.survivors arr).
Proof.
  unfold Field.survivors. induction 1 as [|r arr Hr _ IH]; cbn [map filter]; [constructor|].
  destruct (Ripple.active (Ripple.update r)) eqn:E; trivial.
  constructor; trivial. now apply kept_update.
Qed.

Lemma drawn_for_ok arr :
  Forall Spec.kept arr -> Forall (Spec.drawn Spec.drawn_ok) (Field.drawn_for arr).
Proof.
  intros H. unfold Field.drawn_for. apply Forall_map, Forall_rev.
  eapply Forall_impl; [|exact H]. intros r Hr. cbn. now apply kept_update.
Qed.

Lemma field_ok_addRipple x y g s :
  Spec.field_ok s -> Spec.field_ok (fst (addRipple x y g s)).
Proof.
  intros [Hk Hd]. unfold addRipple. destruct (canvasRef s); [|now split].
  destruct (coalesce x _ g) as [tx g1], (coalesce y _ g1) as [ty g2]. cbn.
  split; trivial. apply Forall_app. split; trivial.
  constructor; [apply kept_new|constructor].
Qed.

Lemma field_ok_frame s s' :
  Spec.field_ok s -> frame s = Some s' -> Spec.field_ok s'.
Proof.
  intros [Hk Hd]. unfold frame. destruct (canvasRef s).
  - rewrite render_spec. intros [= <-]. cbn. split.
    + now apply survivors_kept.
    + repeat (apply Forall_app; split); trivial.
      * repeat constructor.
      * now apply drawn_for_ok.
  - intros [= <-]. now split.
Qed.

Lemma exec_total ops : forall st, exists st', Field.exec ops st = Some st'.
Proof.
  induction ops as [|[x y|] ops IH]; intros st; cbn; eauto.
  destruct (frame_total (fst st)) as [s' ->]. eauto.
Qed.

Lemma exec_field_ok ops : forall st st',
  Spec.field_ok (fst st) -> Field.exec ops st = Some st' -> Spec.field_ok (fst st').
Proof.
  induction ops as [|[x y|] ops IH]; intros st st' Hok; cbn.
  - now intros [= <-].
  - apply IH. now apply field_ok_addRipple.
  - destruct (frame (fst st)) as [s1|] eqn:E; [|discriminate].
    apply IH. cbn. eapply field_ok_frame; eauto.
Qed.

Lemma mounted_ok c g : Spec.field_ok (fst (Field.mounted c g)).
Proof. split; constructor. Qed.

End FieldInvariant.

Section FieldCount.

Import RippleCanvas.

Lemma frames_in_nonneg ops : 0 <= Field.frames_in ops.
Proof. induction ops as [|[x y|] ops IH]; cbn [Field.frames_in]; lia. Qed.

Lemma frames_in_repeat n : Field.frames_in (repeat Field.Frame n) = Z.of_nat n.
Proof. induction n; cbn [repeat Field.frames_in]; lia. Qed.

Lemma alive_spawns_repeat n : Field.alive_spawns (repeat Field.Frame n) = 0%nat.
Proof. induction n; cbn; trivial. Qed.

Lemma survivors_alive k arr :
  0 <= k -> Forall Spec.kept arr ->
  List.length (filter (Spec.alive_in k) (Field.survivors arr)) =
  List.length (filter (Spec.alive_in (1 + k)) arr).
Proof.
  intros Hk. unfold Field.survivors.
  induction 1 as [|r arr Hr _ IH]; cbn [map filter]; trivial.
  destruct (kept_update r Hr) as (_ & Hact & _). rewrite Hact.
  assert (E1 : Spec.alive_in k (Ripple.update r) = Spec.alive_in (1 + k) r).
  { unfold Spec.alive_in. rewrite update_age. f_equal. lia. }
  destruct (Z.leb_spec (Ripple.age r + 1) Field.maxAge) as [Hle|Hgt].
  - cbn [filter]. rewrite E1.
    destruct (Spec.alive_in (1 + k) r); cbn [List.length]; now rewrite IH.
  - assert (E2 : Spec.alive_in (1 + k) r = false).
    { unfold Spec.alive_in. apply Z.leb_gt. lia. }
    rewrite E2. exact IH.
Qed.

Lemma filter_alive_now arr :
  Forall Spec.kept arr -> filter (Spec.alive_in 0) arr = arr.
Proof.
  induction 1 as [|r arr (_ & Ha & _) _ IH]; cbn [filter]; trivial.
  assert (E : Spec.alive_in 0 r = true).
  { unfold Spec.alive_in. apply Z.leb_le. lia. }
  now rewrite E, IH.
Qed.

Lemma addRipple_canvasRef x y g s :
  canvasRef (fst (addRipple x y g s)) = canvasRef s.
Proof.
  unfold addRipple. destruct (canvasRef s) eqn:E; cbn; trivial.
  destruct (coalesce x _ g) as [tx g1], (coalesce y _ g1) as [ty g2]. reflexivity.
Qed.

Lemma addRipple_mounted x y g s c :
  canvasRef s = Some c ->
  exists tx ty, ripplesRef (fst (addRipple x y g s)) = ripplesRef s ++ [Ripple.new tx ty].
Proof.
  intros E. unfold addRipple. rewrite E.
  destruct (coalesce x _ g) as [tx g1], (coalesce y _ g1) as [ty g2]. cbn. eauto.
Qed.

Lemma frame_mounted s c :
  canvasRef s = Some c ->
  exists s', frame s = Some s' /\ canvasRef s' = Some c /\
             ripplesRef s' = Field.survivors (ripplesRef s).
Proof.
  intros E. unfold frame. rewrite E, render_spec. eexists. split; [reflexivity|].
  cbn. auto.
Qed.

Lemma exec_canvasRef ops : forall st st' c,
  canvasRef (fst st) = Some c -> Field.exec ops st = Some st' ->
  canvasRef (fst st') = Some c.
Proof.
  induction ops as [|[x y|] ops IH]; intros st st' c Hc; cbn [Field.exec Field.apply].
  - now intros [= <-].
  - apply IH. now rewrite addRipple_canvasRef.
  - destruct (frame_mounted (fst st) c Hc) as (s2 & -> & Hc2 & _).
    apply IH. exact Hc2.
Qed.

(** The size of the field after a history, from any mounted field. *)
Lemma exec_count ops : forall st st' c,
  canvasRef (fst st) = Some c -> Spec.field_ok (fst st) ->
  Field.exec ops st = Some st' ->
  Field.count st' =
  (List.length (filter (Spec.alive_in (Field.frames_in ops)) (ripplesRef (fst st)))
   + Field.alive_spawns ops)%nat.
Proof.
  induction ops as [|[x y|] ops IH]; intros st st' c Hc Hok; cbn [Field.exec Field.apply].
  - intros [= <-]. cbn [Field.frames_in Field.alive_spawns]. unfold Field.count.
    rewrite (filter_alive_now _ (proj1 Hok)). lia.
  - intros H. rewrite (IH _ _ c) with (1 := eq_trans (addRipple_canvasRef x y _ _) Hc)
                                     (2 := field_ok_addRipple x y _ _ Hok) (3 := H).
    destruct (addRipple_mounted x y (snd st) (fst st) c Hc) as (tx & ty & ->).
    rewrite filter_app, length_app. cbn [Field.frames_in Field.alive_spawns filter].
    change (Spec.alive_in (Field.frames_in ops) (Ripple.new tx ty))
      with (Field.frames_in ops <=? Field.maxAge).
    destruct (_ <=? _); cbn [List.length]; lia.
  - destruct (frame_mounted (fst st) c Hc) as (s1 & E & Hc1 & Hr). rewrite E.
    intros H. rewrite (IH _ _ c) with (3 := H); [|exact Hc1|].
    + cbn [fst Field.frames_in Field.alive_spawns]. rewrite Hr.
      rewrite survivors_alive; [reflexivity|apply frames_in_nonneg|apply Hok].
    + cbn [fst]. eapply field_ok_frame; eauto.
Qed.

End FieldCount.

(** ** Doubles and their rounding *)

Section DoubleFacts.

Import Double.
Local Open Scope Q_scope.

Lemma pow2_pos e : 0 < 2 ^ e.
Proof. apply Qpower_0_lt. reflexivity. Qed.

Lemma pow2_add a b : 2 ^ (a + b) == 2 ^ a * 2 ^ b.
Proof. apply Qpower_plus. discriminate. Qed.

Lemma pow2_le a b : (a <= b)%Z -> 2 ^ a <= 2 ^ b.
Proof. intros H. apply Qpower_le_compat_l; [exact H|discriminate]. Qed.

Lemma pow2_lt a b : (a < b)%Z -> 2 ^ a < 2 ^ b.
Proof. intros H. apply Qpower_lt_compat_l; [exact H|reflexivity]. Qed.

Lemma pow2_lt_inv a b : 2 ^ a < 2 ^ b -> (a < b)%Z.
Proof. intros H. apply (Qpower_lt_compat_l_inv 2); [exact H|reflexivity]. Qed.

Lemma pow2_Z e : (0 <= e)%Z -> 2 ^ e == inject_Z (2 ^ e).
Proof. intros H. symmetry. exact (Zpower_Qpower 2 e H). Qed.

Lemma frac_lt n d p : n # d < p <-> inject_Z n < p * inject_Z (Zpos d).
Proof.
  destruct p as [pn pd]. unfold Qlt, Qmult, inject_Z. cbn [Qnum Qden].
  rewrite Pos.mul_1_r, !Z.mul_1_r. reflexivity.
Qed.

Lemma frac_le n d p : p <= n # d <-> p * inject_Z (Zpos d) <= inject_Z n.
Proof.
  destruct p as [pn pd]. unfold Qle, Qmult, inject_Z. cbn [Qnum Qden].
  rewrite Pos.mul_1_r, !Z.mul_1_r. reflexivity.
Qed.

Lemma ilog2_spec x : 0 < x -> 2 ^ ilog2 x <= x /\ x < 2 ^ (ilog2 x + 1).
Proof.
  intros Hx. destruct x as [n d].
  assert (Hn : (0 < n)%Z) by (unfold Qlt in Hx; cbn in Hx; lia).
  unfold ilog2. cbn [Qnum Qden].
  set (a := Z.log2 n). set (b := Z.log2 (Zpos d)).
  destruct (Z.log2_spec n Hn) as [Ha1 Ha2]. fold a in Ha1, Ha2.
  destruct (Z.log2_spec (Zpos d) eq_refl) as [Hb1 Hb2]. fold b in Hb1, Hb2.
  assert (Ha0 : (0 <= a)%Z) by apply Z.log2_nonneg.
  assert (Hb0 : (0 <= b)%Z) by apply Z.log2_nonneg.
  rewrite Zle_Qle, <- pow2_Z in Ha1, Hb1 by trivial.
  rewrite Zlt_Qlt in Ha2, Hb2. unfold Z.succ in Ha2, Hb2.
  rewrite <- pow2_Z in Ha2, Hb2 by lia.
  destruct (Qle_bool (2 ^ (a - b)) (n # d)) eqn:E.
  - apply Qle_bool_iff in E. split; trivial.
    apply frac_lt.
    apply Qlt_le_trans with (2 ^ (a + 1)); trivial.
    replace (a + 1)%Z with ((a - b + 1) + b)%Z by ring. rewrite pow2_add.
    apply Qmult_le_l; [apply pow2_pos|trivial].
  - assert (E' : n # d < 2 ^ (a - b)).
    { apply Qnot_le_lt. intros H. apply Qle_bool_iff in H. congruence. }
    replace (a - b - 1 + 1)%Z with (a - b)%Z by ring. split; trivial.
    apply frac_le.
    apply Qle_trans with (2 ^ a); trivial.
    replace a with ((a - b - 1) + (b + 1))%Z at 2 by ring. rewrite pow2_add.
    apply Qmult_le_l; [apply pow2_pos|]. now apply Qlt_le_weak.
Qed.

Lemma ilog2_lt x j : 0 < x -> x < 2 ^ j -> (ilog2 x < j)%Z.
Proof.
  intros Hx H. apply pow2_lt_inv.
  apply Qle_lt_trans with x; trivial. now apply ilog2_spec.
Qed.

Lemma ilog2_ge x j : 0 < x -> 2 ^ j <= x -> (j <= ilog2 x)%Z.
Proof.
  intros Hx H.
  assert (j < ilog2 x + 1)%Z; [|lia].
  apply pow2_lt_inv. apply Qle_lt_trans with x; trivial. now apply ilog2_spec.
Qed.


Lemma Qfloor_eq_iff x i :
  Qfloor x = i <-> inject_Z i <= x /\ x < inject_Z (i + 1).
Proof.
  split.
  - intros <-. split; [apply Qfloor_le|apply Qlt_floor].
  - intros [Hlo Hhi].
    pose proof (Qfloor_resp_le _ _ Hlo) as H1. rewrite Qfloor_Z in H1.
    pose proof (Qle_lt_trans _ _ _ (Qfloor_le x) Hhi) as H2.
    rewrite <- Zlt_Qlt in H2. lia.
Qed.

Lemma nearest_even_cases y :
  nearest_even y = Qfloor y \/
  (nearest_even y = (Qfloor y + 1)%Z /\ 1 # 2 <= y - inject_Z (Qfloor y)).
Proof.
  unfold nearest_even.
  destruct (Qcompare_spec (y - inject_Z (Qfloor y)) (1 # 2)) as [H|H|H]; auto.
  - destruct (Z.even _); auto. right. split; trivial. rewrite H. apply Qle_refl.
  - right. split; trivial. now apply Qlt_le_weak.
Qed.

Lemma nearest_even_between y A B :
  inject_Z A <= y -> y <= inject_Z B -> (A <= nearest_even y <= B)%Z.
Proof.
  intros HA HB.
  pose proof (Qfloor_resp_le _ _ HA) as H1. rewrite Qfloor_Z in H1.
  pose proof (Qfloor_resp_le _ _ HB) as H2. rewrite Qfloor_Z in H2.
  destruct (nearest_even_cases y) as [->|[-> Hh]]; [lia|].
  split; [lia|].
  destruct (Z.eq_dec (Qfloor y) B) as [E|E]; [|lia].
  rewrite E in Hh. exfalso. lra.
Qed.

Lemma nearest_even_up y B :
  y < inject_Z B -> nearest_even y = B -> inject_Z B - (1 # 2) <= y.
Proof.
  intros Hy E.
  pose proof (Qfloor_le y) as Hf.
  destruct (nearest_even_cases y) as [H|[H Hh]]; rewrite H in E.
  - rewrite E in Hf. lra.
  - rewrite <- E. rewrite inject_Z_plus. change (inject_Z 1) with 1. lra.
Qed.

Lemma nearest_even_Z n : nearest_even (inject_Z n) = n.
Proof.
  unfold nearest_even. rewrite Qfloor_Z.
  destruct (Qcompare_spec (inject_Z n - inject_Z n) (1 # 2)) as [H|H|H]; trivial;
    exfalso; lra.
Qed.

Lemma pow2_cancel e : 2 ^ (- e) * 2 ^ e == 1.
Proof. rewrite <- pow2_add. replace (- e + e)%Z with 0%Z by ring. reflexivity. Qed.

Lemma unscale x e : x / 2 ^ e * 2 ^ e == x.
Proof.
  unfold Qdiv. rewrite <- Qmult_assoc, (Qmult_comm (/ _)), Qmult_inv_r, Qmult_1_r.
  - reflexivity.
  - pose proof (pow2_pos e). lra.
Qed.

Lemma div_pow2 x e : x / 2 ^ e == x * 2 ^ (- e).
Proof. unfold Qdiv. now rewrite Qpower_opp. Qed.

(** The nearest double of [x] lies between the integers around [x], and is
    the upper one only when [x] is within half a unit in the last place of
    it. *)
Lemma round_floor x :
  (ulp_exp x <= 0)%Z ->
  Qfloor (round x) = Qfloor x \/
  (Qfloor (round x) = (Qfloor x + 1)%Z /\
   inject_Z (Qfloor x + 1) - 2 ^ (ulp_exp x - 1) <= x).
Proof.
  intros He. unfold round, scaled.
  set (e := ulp_exp x) in *. set (f := Qfloor x).
  set (y := x / 2 ^ e).
  assert (Hp : 0 < 2 ^ e) by apply pow2_pos.
  assert (Hp' : 0 < 2 ^ (- e)) by apply pow2_pos.
  assert (Hz : 2 ^ (- e) == inject_Z (2 ^ (- e))) by (apply pow2_Z; lia).
  set (P := (2 ^ (- e))%Z) in *.
  assert (Hy : y == x * inject_Z P) by (unfold y; now rewrite div_pow2, Hz).
  assert (HA : inject_Z (f * P) <= y).
  { rewrite inject_Z_mult, Hy. apply Qmult_le_r; [lra|apply Qfloor_le]. }
  assert (HB : y < inject_Z ((f + 1) * P)).
  { rewrite inject_Z_mult, Hy. apply Qmult_lt_r; [lra|apply Qlt_floor]. }
  destruct (nearest_even_between y _ _ HA (Qlt_le_weak _ _ HB)) as [H1 H2].
  set (N := nearest_even y) in *.
  assert (Hc : inject_Z P * 2 ^ e == 1) by (rewrite <- Hz; apply pow2_cancel).
  assert (Hlo : inject_Z f <= inject_Z N * 2 ^ e).
  { setoid_replace (inject_Z f) with (inject_Z (f * P) * 2 ^ e)
      by (rewrite inject_Z_mult, <- Qmult_assoc, Hc; ring).
    apply Qmult_le_r; trivial. now rewrite <- Zle_Qle. }
  destruct (Z.eq_dec N ((f + 1) * P)) as [E|E].
  - right.
    assert (Hv : inject_Z N * 2 ^ e == inject_Z (f + 1)).
    { rewrite E, inject_Z_mult, <- Qmult_assoc, Hc. ring. }
    split; [rewrite Hv; apply Qfloor_Z|].
    pose proof (nearest_even_up y _ HB E) as Hu.
    rewrite inject_Z_mult, Hy in Hu.
    replace (e - 1)%Z with (e + -1)%Z by ring. rewrite pow2_add.
    change (2 ^ (-1)) with (1 # 2).
    assert (Hu' : (inject_Z (f + 1) * inject_Z P - (1 # 2)) * 2 ^ e
                  <= x * inject_Z P * 2 ^ e) by (apply Qmult_le_r; trivial).
    rewrite <- (Qmult_assoc x), Hc, Qmult_1_r in Hu'.
    setoid_replace ((inject_Z (f + 1) * inject_Z P - (1 # 2)) * 2 ^ e)
      with (inject_Z (f + 1) * (inject_Z P * 2 ^ e) - 2 ^ e * (1 # 2)) in Hu' by ring.
    rewrite Hc, Qmult_1_r in Hu'. exact Hu'.
  - left. apply Qfloor_eq_iff. split; trivial.
    setoid_replace (inject_Z (f + 1)) with (inject_Z ((f + 1) * P) * 2 ^ e)
      by (rewrite inject_Z_mult, <- Qmult_assoc, Hc; ring).
    apply Qmult_lt_r; trivial. rewrite <- Zlt_Qlt. lia.
Qed.


Lemma ilog2_comp x y : 0 < x -> x == y -> ilog2 x = ilog2 y.
Proof.
  intros Hx E. assert (Hy : 0 < y) by now rewrite <- E.
  assert (Hxy : x <= y) by (rewrite E; apply Qle_refl).
  assert (Hyx : y <= x) by (rewrite E; apply Qle_refl).
  destruct (ilog2_spec x Hx) as [H1 _], (ilog2_spec y Hy) as [H3 _].
  pose proof (ilog2_ge y _ Hy (Qle_trans _ _ _ H1 Hxy)).
  pose proof (ilog2_ge x _ Hx (Qle_trans _ _ _ H3 Hyx)). lia.
Qed.

Lemma Qabs_pos_lt x : ~ x == 0 -> 0 < Qabs x.
Proof.
  destruct x as [n d]. unfold Qabs, Qlt, Qeq. cbn. lia.
Qed.

Lemma ulp_exp_comp x y : ~ x == 0 -> x == y -> ulp_exp x = ulp_exp y.
Proof.
  intros Hx E. unfold ulp_exp. f_equal. f_equal.
  apply ilog2_comp; [now apply Qabs_pos_lt|now rewrite E].
Qed.

Lemma nearest_even_comp x y : x == y -> nearest_even x = nearest_even y.
Proof.
  intros E. unfold nearest_even. rewrite (Qfloor_comp _ _ E).
  assert (Hc : (x - inject_Z (Qfloor y) ?= 1 # 2) = (y - inject_Z (Qfloor y) ?= 1 # 2))
    by now rewrite E.
  now rewrite Hc.
Qed.

Lemma round_zero x : x == 0 -> inject_Z (nearest_even (x / 2 ^ ulp_exp x)) == 0.
Proof.
  intros E. rewrite (nearest_even_comp _ 0); [reflexivity|].
  generalize (2 ^ ulp_exp x). intros z. rewrite E. unfold Qdiv. ring.
Qed.

Lemma round_comp x y : x == y -> round x == round y.
Proof.
  intros E. unfold round, scaled.
  destruct (Qeq_dec x 0) as [Hx|Hx].
  - rewrite (round_zero x Hx), (round_zero y) by now rewrite <- E.
    ring.
  - rewrite <- (ulp_exp_comp x y Hx E).
    rewrite (nearest_even_comp (x / 2 ^ ulp_exp x) (y / 2 ^ ulp_exp x)); [reflexivity|].
    generalize (2 ^ ulp_exp x). intros z. now rewrite E.
Qed.

Lemma ulp_exp_pos x : 0 <= x -> ulp_exp x = Z.max emin (ilog2 x - (prec - 1)).
Proof.
  intros H. unfold ulp_exp. destruct x as [n d]. unfold Qabs.
  rewrite Z.abs_eq; trivial. unfold Qle in H. cbn in H. lia.
Qed.

Lemma ilog2_zero x : x == 0 -> (ilog2 x < 0)%Z.
Proof.
  intros E. destruct x as [n d]. unfold Qeq in E. cbn in E.
  assert (n = 0%Z) by lia. subst n. unfold ilog2. cbn [Qnum Qden].
  pose proof (Z.log2_nonneg (Zpos d)) as Hd.
  change (Z.log2 0) with 0%Z.
  destruct (Qle_bool _ _) eqn:Hb; [|lia].
  apply Qle_bool_iff in Hb. exfalso.
  pose proof (pow2_pos (0 - Z.log2 (Z.pos d))) as Hp.
  assert (0 # d == 0) by reflexivity. lra.
Qed.

(** The exponent of the last place, from bounds on the number. *)
Lemma ulp_exp_below x j :
  0 <= x -> x < 2 ^ j -> (0 <= j)%Z -> (ulp_exp x <= Z.max emin (j - prec))%Z.
Proof.
  intros H0 Hj Hj0. rewrite ulp_exp_pos by trivial.
  assert (ilog2 x < j)%Z; [|unfold prec; lia].
  destruct (Qlt_le_dec 0 x) as [Hx|Hx]; [now apply ilog2_lt|].
  assert (E : x == 0) by now apply Qle_antisym.
  pose proof (ilog2_zero x E). lia.
Qed.

Lemma ulp_exp_above x j :
  2 ^ j <= x -> (j - (prec - 1) <= ulp_exp x)%Z.
Proof.
  intros Hj. pose proof (pow2_pos j) as Hp.
  assert (Hx : 0 < x) by lra.
  rewrite ulp_exp_pos by lra.
  pose proof (ilog2_ge x j Hx Hj). unfold prec. lia.
Qed.

(** A double that is at least [2 ^ j] is a multiple of [2 ^ (j - 52)]. *)
Lemma scaled_grid rnd x j :
  2 ^ j <= x -> exists n, scaled rnd x == inject_Z n * 2 ^ (j - (prec - 1)).
Proof.
  intros Hj. pose proof (ulp_exp_above x j Hj) as He. unfold scaled.
  set (e := ulp_exp x) in *. set (N := rnd (x / 2 ^ e)).
  exists (N * 2 ^ (e - (j - (prec - 1))))%Z.
  rewrite inject_Z_mult, <- pow2_Z by lia.
  rewrite <- Qmult_assoc, <- pow2_add.
  now replace (e - (j - (prec - 1)) + (j - (prec - 1)))%Z with e by ring.
Qed.

Lemma double_grid u j :
  is_double u = true -> 2 ^ j <= u ->
  exists n, u == inject_Z n * 2 ^ (j - (prec - 1)).
Proof.
  intros Hd Hj. apply Qeq_bool_iff in Hd.
  destruct (scaled_grid nearest_even u j Hj) as [n Hn].
  exists n. rewrite <- Hn. symmetry. exact Hd.
Qed.

Lemma floor_le x : floor x <= x.
Proof.
  unfold floor, scaled. set (e := ulp_exp x).
  rewrite <- (unscale x e) at 2.
  apply Qmult_le_r; [apply pow2_pos|apply Qfloor_le].
Qed.

Lemma floor_nonneg x : 0 <= x -> 0 <= floor x.
Proof.
  intros H. unfold floor, scaled. set (e := ulp_exp x).
  pose proof (pow2_pos e) as Hp.
  apply Qmult_le_0_compat; [|lra].
  change 0 with (inject_Z 0). rewrite <- Zle_Qle.
  rewrite <- (Qfloor_Z 0). apply Qfloor_resp_le.
  apply Qle_shift_div_l; trivial. now rewrite Qmult_0_l.
Qed.

(** A double is its own rounding down. *)
Lemma floor_double u : is_double u = true -> floor u == u.
Proof.
  intros Hd. apply Qeq_bool_iff in Hd. unfold round, floor, scaled in *.
  set (e := ulp_exp u) in *. set (N := nearest_even (u / 2 ^ e)) in *.
  assert (Hy : u / 2 ^ e == inject_Z N).
  { rewrite <- Hd at 1. unfold Qdiv. rewrite <- Qmult_assoc, Qmult_inv_r, Qmult_1_r.
    - reflexivity.
    - pose proof (pow2_pos e). lra. }
  rewrite (Qfloor_comp _ _ Hy), Qfloor_Z. exact Hd.
Qed.



Lemma is_double_floor x : 0 <= x -> is_double (floor x) = true.
Proof.
  intros Hx. apply Qeq_bool_iff.
  pose proof (floor_le x) as Hle. pose proof (floor_nonneg x Hx) as H0.
  destruct (Qeq_dec (floor x) 0) as [Hz|Hz].
  - transitivity 0; [|symmetry; exact Hz].
    unfold round, scaled. rewrite (round_zero _ Hz). ring.
  - assert (Hu : 0 < floor x).
    { destruct (Qlt_le_dec 0 (floor x)); trivial. exfalso. apply Hz. now apply Qle_antisym. }
    assert (He : (ulp_exp (floor x) <= ulp_exp x)%Z).
    { rewrite !ulp_exp_pos by lra.
      destruct (ilog2_spec _ Hu) as [H1 _].
      pose proof (ilog2_ge x _ ltac:(lra) (Qle_trans _ _ _ H1 Hle)). lia. }
    unfold round, scaled at 1.
    set (e' := ulp_exp (floor x)) in *.
    assert (Hy : floor x / 2 ^ e'
                 == inject_Z (Qfloor (x / 2 ^ ulp_exp x) * 2 ^ (ulp_exp x - e'))).
    { unfold floor, scaled. rewrite inject_Z_mult, <- pow2_Z by lia.
      rewrite div_pow2, <- !Qmult_assoc, <- !pow2_add.
      now replace (ulp_exp x + - e')%Z with (ulp_exp x - e')%Z by ring. }
    rewrite (nearest_even_comp _ _ Hy), nearest_even_Z.
    rewrite <- Hy. apply unscale.
Qed.

End DoubleFacts.

Section RandFacts.

Local Open Scope Q_scope.

Lemma Rand_value_range nd : 0 <= Rand.value nd /\ Rand.value nd < 1.
Proof.
  destruct nd as [n d]. unfold Rand.value. cbn [fst snd].
  set (x := Z.of_N (n mod N.pos d) # d).
  assert (Hx : 0 <= x /\ x < 1).
  { unfold x, Qle, Qlt. cbn.
    pose proof (N.mod_lt n (Npos d) ltac:(discriminate)) as H.
    generalize dependent (n mod N.pos d)%N. intros m H. split; lia. }
  split; [now apply floor_nonneg|].
  apply Qle_lt_trans with x; [apply floor_le|apply Hx].
Qed.

(** The values of the random source are the doubles of [[0, 1)]. *)
Lemma Rand_value_double nd : Double.is_double (Rand.value nd) = true.
Proof.
  destruct nd as [n d]. unfold Rand.value. apply is_double_floor.
  unfold Qle. cbn [fst snd Qnum Qden].
  pose proof (N2Z.is_nonneg (n mod N.pos d)) as H.
  generalize dependent (Z.of_N (n mod N.pos d)). intros m H. lia.
Qed.

Lemma Rand_value_onto u :
  Double.is_double u = true -> 0 <= u -> u < 1 -> exists nd, Rand.value nd == u.
Proof.
  intros Hd H0 H1. destruct u as [n d].
  assert (Hn : (0 <= n < Zpos d)%Z) by (unfold Qle, Qlt in H0, H1; cbn in H0, H1; lia).
  exists (Z.to_N n, d). unfold Rand.value. cbn [fst snd].
  rewrite N.mod_small by lia. rewrite Z2N.id by lia.
  now apply floor_double.
Qed.

Lemma scaled_draw_range u bound :
  0 <= u /\ u < 1 -> 0 < bound -> 0 <= u * bound /\ u * bound < bound.
Proof.
  intros [H0 H1] Hb. split.
  - apply Qmult_le_0_compat; lra.
  - setoid_replace bound with (1 * bound) at 2 by ring.
    apply Qmult_lt_compat_r; trivial.
Qed.

End RandFacts.

(* ====================================================================== *)
(** * The ripple field: entity lifecycle, radius, count and spawn *)
(* ====================================================================== *)

Section FieldClaims.

Import RippleCanvas.

Lemma spawn_then_101_last st :
  Field.exec (Scenario.spawn_then 101) (Field.mounted Scenario.c0 Scenario.g0) = Some st ->
  nth_error (ctx (fst st)) 201 = Some (DrawRipple (Ripple.draw Scenario.expired)).
Proof.
  intros E. vm_compute in E. injection E as <-. vm_compute. reflexivity.
Qed.

Lemma Forall_nth_error {A} (P : A -> Prop) l n a :
  Forall P l -> nth_error l n = Some a -> P a.
Proof.
  intros H E. rewrite Forall_forall in H. apply H. eapply nth_error_In; eauto.
Qed.

(** C2, as stated, fails: the frame in which the age of an entity first
    exceeds [maxAge] draws the entity after [update] has cleared [active].
    One spawn and 101 frames: the last entry of the drawing log is the
    entity at age 101 with [active = false]. *)
Lemma C2_inactive_entity_drawn :
  ~ (forall st,
       Field.exec (Scenario.spawn_then 101) (Field.mounted Scenario.c0 Scenario.g0) = Some st ->
       Forall (Spec.drawn (fun d => Ripple.active (Ripple.subject d) = true))
              (ctx (fst st))).
Proof.
  intros H.
  destruct (exec_total (Scenario.spawn_then 101) (Field.mounted Scenario.c0 Scenario.g0))
    as [st E].
  pose proof (Forall_nth_error _ _ _ _ (H st E) (spawn_then_101_last st E)) as Hd.
  discriminate Hd.
Qed.

(** C2, amended.  At every point of every history of a mounted field:
    [active == (age <= maxAge)] holds of a new entity and is kept by
    [update]; every entity in the collection is active with age at most
    [maxAge]; every entity ever drawn satisfies the invariant and has age
    between 1 and [maxAge + 1]; and the next frame updates and draws each
    entity of the collection once, an entity being inactive after its
    update exactly when its age is [maxAge + 1], in which case that same
    frame still draws it and removes it, while every other entity stays. *)
Theorem C2_entity_lifecycle c g ops st :
  Field.exec ops (Field.mounted c g) = Some st ->
  (forall x y, Spec.ripple_inv (Ripple.new x y)) /\
  (forall r, Spec.ripple_inv r -> Spec.ripple_inv (Ripple.update r)) /\
  Forall Spec.kept (ripplesRef (fst st)) /\
  Forall (Spec.drawn Spec.drawn_ok) (ctx (fst st)) /\
  exists s',
    frame (fst st) = Some s' /\
    ripplesRef s' = Field.survivors (ripplesRef (fst st)) /\
    ctx s' = (ctx (fst st)
              ++ [FillRect (Constants.bgColor Constants.VISUAL_CONFIG) (width c) (height c)])
             ++ Field.drawn_for (ripplesRef (fst st)) /\
    Forall Spec.kept (ripplesRef s') /\
    forall r, In r (ripplesRef (fst st)) ->
      In (DrawRipple (Ripple.draw (Ripple.update r))) (ctx s') /\
      (Ripple.active (Ripple.update r) = false <->
       Ripple.age (Ripple.update r) = Field.maxAge + 1) /\
      (Ripple.active (Ripple.update r) = false -> ~ In (Ripple.update r) (ripplesRef s')) /\
      (Ripple.active (Ripple.update r) = true -> In (Ripple.update r) (ripplesRef s')).
Proof.
  intros E.
  pose proof (exec_field_ok ops _ _ (mounted_ok c g) E) as [Hk Hd].
  pose proof (exec_canvasRef ops (Field.mounted c g) st c eq_refl E) as Hc.
  split; [exact ripple_inv_new|]. split; [exact ripple_inv_update|].
  split; [exact Hk|]. split; [exact Hd|].
  exists {| canvasRef := canvasRef (fst st);
            ripplesRef := Field.survivors (ripplesRef (fst st));
            animationFrameRef := S (animationFrameRef (fst st));
            ctx := (ctx (fst st)
                    ++ [FillRect (Constants.bgColor Constants.VISUAL_CONFIG)
                                 (width c) (height c)])
                   ++ Field.drawn_for (ripplesRef (fst st)) |}.
  cbn [ripplesRef ctx].
  split; [unfold frame; rewrite Hc, render_spec, Hc; reflexivity|].
  split; [reflexivity|]. split; [reflexivity|].
  split; [now apply survivors_kept|].
  intros r Hr.
  assert (Hkr : Spec.kept r) by (rewrite Forall_forall in Hk; auto).
  destruct (kept_update r Hkr) as (_ & Hact & Hkeep).
  split; [|split; [|split]].
  - apply in_or_app. right. unfold Field.drawn_for.
    apply (in_map (fun r => DrawRipple (Ripple.draw (Ripple.update r)))).
    now apply -> in_rev.
  - rewrite Hact, update_age. destruct Hkr as (_ & Ha & _).
    rewrite Z.leb_gt. lia.
  - intros Hf Hin. pose proof (survivors_kept _ Hk) as Hs.
    rewrite Forall_forall in Hs. destruct (Hs _ Hin) as (_ & _ & Ht). congruence.
  - intros Ht. unfold Field.survivors. apply filter_In. split; trivial.
    now apply in_map.
Qed.

Lemma C2_entity_lifecycle_witness :
  Field.exec (Scenario.spawn_then 0) (Field.mounted Scenario.c0 Scenario.g0)
    = Some Scenario.one_ripple /\
  Forall Spec.kept (ripplesRef (fst Scenario.one_ripple)).
Proof.
  split; [reflexivity|].
  exact (proj1 (proj2 (proj2
           (C2_entity_lifecycle Scenario.c0 Scenario.g0 (Scenario.spawn_then 0)
                                Scenario.one_ripple eq_refl)))).
Defined.

Lemma drawn_ok_radius d : Spec.drawn_ok d -> Spec.radius_ok d.
Proof.
  intros (Hd & Hm & Ha & Hi). unfold Spec.radius_ok.
  set (r := Ripple.subject d) in *. cbv zeta.
  assert (Hlin := currentRadius_linear r Hm).
  assert (Hlo : (1 <= inject_Z (Ripple.age r))%Q).
  { change 1%Q with (inject_Z 1). rewrite <- Zle_Qle. lia. }
  assert (Hhi : (inject_Z (Ripple.age r) <= 101)%Q).
  { change 101%Q with (inject_Z (Field.maxAge + 1)). rewrite <- Zle_Qle. lia. }
  split; [split; [reflexivity|reflexivity]|].
  split; [rewrite Hd; cbn [Ripple.arcs Ripple.draw]; apply rings_three; trivial; lia|].
  split; [rewrite Hlin; split; lra|].
  split.
  - intros Hle. rewrite Hlin. rewrite Zle_Qle, Hm in Hle.
    change (inject_Z Field.maxAge) with 100%Q in Hle. lra.
  - rewrite Hm. intros Hlast. split; [|split].
    + rewrite Hi, Hm, Hlast. reflexivity.
    + now apply currentRadius_last.
    + rewrite Hd. cbn [Ripple.strokeOpacity Ripple.draw]. now apply opacity_last.
Qed.

(** C3.  The code at the failing input: one spawn at the origin of a
    mounted canvas, then 101 frames.  The last of these frames draws the
    entity at age 101 = [maxAge + 1], after [update] has cleared [active].
    Its progress is 1.01; [draw] clamps the opacity to 0 there, but not
    the radius, which is 80.75, above [maxRadius] = 80.  So not every
    radius drawn is within [5, 80]. *)
Theorem C3_radius_at_age_101 :
  (exists st,
     Field.exec (Scenario.spawn_then 101) (Field.mounted Scenario.c0 Scenario.g0) = Some st /\
     nth_error (ctx (fst st)) 201 = Some (DrawRipple (Ripple.draw Scenario.expired))) /\
  Ripple.update (Nat.iter 100 Ripple.update (Ripple.new 0 0)) = Scenario.expired /\
  Ripple.age Scenario.expired = Ripple.maxAge Scenario.expired + 1 /\
  (Ripple.progress Scenario.expired == 1.01)%Q /\
  (Ripple.strokeOpacity (Ripple.draw Scenario.expired) == 0)%Q /\
  (Constants.maxRadius Constants.VISUAL_CONFIG == 80)%Q /\
  (Ripple.currentRadius Scenario.expired == 80.75)%Q /\
  (Constants.maxRadius Constants.VISUAL_CONFIG < Ripple.currentRadius Scenario.expired)%Q /\
  ~ (forall st,
       Field.exec (Scenario.spawn_then 101) (Field.mounted Scenario.c0 Scenario.g0) = Some st ->
       Forall (Spec.drawn (fun d =>
                 (5 <= Ripple.currentRadius (Ripple.subject d) /\
                  Ripple.currentRadius (Ripple.subject d) <= 80)%Q))
              (ctx (fst st))).
Proof.
  destruct (exec_total (Scenario.spawn_then 101) (Field.mounted Scenario.c0 Scenario.g0))
    as [st E].
  split; [exists st; split; [exact E|now apply spawn_then_101_last]|].
  repeat (split; [vm_compute; reflexivity|]).
  intros H.
  pose proof (Forall_nth_error _ _ _ _ (H st E) (spawn_then_101_last st E)) as [_ Hd].
  vm_compute in Hd. apply Hd. reflexivity.
Qed.

(** Every entity that a frame of any history draws has the radius
    [5 + (maxRadius - 5) * (age / maxAge)] with [maxRadius = 80] and
    strokes its three rings at 100, 85 and 70 percent of it.  The radius
    is strictly increasing in age, and within [5, 80] for every age from
    0 to [maxAge]; the one frame that draws an entity at age [maxAge + 1]
    draws it at 80.75. *)
Lemma drawn_radius_profile c g ops st :
  Field.exec ops (Field.mounted c g) = Some st ->
  Forall (Spec.drawn Spec.radius_ok) (ctx (fst st)) /\
  (forall r1 r2,
     Ripple.maxAge r1 = Field.maxAge -> Ripple.maxAge r2 = Field.maxAge ->
     (Ripple.age r1 <= Ripple.age r2 ->
      (Ripple.currentRadius r1 <= Ripple.currentRadius r2)%Q) /\
     (Ripple.age r1 < Ripple.age r2 ->
      (Ripple.currentRadius r1 < Ripple.currentRadius r2)%Q)) /\
  (forall r,
     Ripple.maxAge r = Field.maxAge -> 0 <= Ripple.age r <= Field.maxAge ->
     (5 <= Ripple.currentRadius r /\ Ripple.currentRadius r <= 80)%Q).
Proof.
  intros E. split; [|split].
  - destruct (exec_field_ok ops _ _ (mounted_ok c g) E) as [_ Hd].
    eapply Forall_impl; [|exact Hd].
    intros [col w h|d]; cbn [Spec.drawn]; trivial. apply drawn_ok_radius.
  - intros r1 r2 H1 H2. split.
    + now apply currentRadius_le.
    + now apply currentRadius_lt.
  - intros r H Ha. now apply currentRadius_bounds.
Qed.

(** C6.  After any history of spawns and frames on a mounted field, the
    number of entities equals the number of spawns followed by at most
    [maxAge] = 100 frames; 150 frames after a single spawn, and at every
    later frame, the field is empty; and a frame updates and draws every
    entity of the array exactly once, from the last to the first, keeping
    exactly those still active, whatever it removes on the way. *)
Theorem C6_entity_count :
  Field.maxAge = 100 /\
  (forall c g ops,
     exists st, Field.exec ops (Field.mounted c g) = Some st /\
                Field.count st = Field.alive_spawns ops) /\
  (forall c g x y k,
     exists st,
       Field.exec (Field.Spawn x y :: repeat Field.Frame (150 + k)) (Field.mounted c g)
         = Some st /\
       Field.count st = 0%nat) /\
  (forall c s,
     render c s =
     Some {| canvasRef := canvasRef s;
             ripplesRef := filter Ripple.active (map Ripple.update (ripplesRef s));
             animationFrameRef := S (animationFrameRef s);
             ctx := (ctx s ++ [FillRect (Constants.bgColor Constants.VISUAL_CONFIG)
                                        (width c) (height c)])
                    ++ map (fun r => DrawRipple (Ripple.draw (Ripple.update r)))
                           (rev (ripplesRef s)) |}).
Proof.
  assert (Hcount : forall c g ops,
             exists st, Field.exec ops (Field.mounted c g) = Some st /\
                        Field.count st = Field.alive_spawns ops).
  { intros c g ops. destruct (exec_total ops (Field.mounted c g)) as [st E].
    exists st. split; trivial.
    now rewrite (exec_count ops (Field.mounted c g) st c eq_refl (mounted_ok c g) E). }
  split; [reflexivity|]. split; [exact Hcount|]. split.
  - intros c g x y k. destruct (Hcount c g (Field.Spawn x y :: repeat Field.Frame (150 + k)))
      as (st & E & Hn).
    exists st. split; trivial. rewrite Hn. cbn [Field.alive_spawns].
    rewrite frames_in_repeat, alive_spawns_repeat.
    destruct (Z.leb_spec (Z.of_nat (150 + k)) Field.maxAge) as [Hle|]; trivial.
    unfold Field.maxAge in Hle. cbn in Hle. lia.
  - intros c s. apply render_spec.
Qed.

(** C10.  [addRipple] on an unmounted canvas returns with the field and
    the random source untouched.  On a mounted canvas it appends exactly
    one entity of age 0, placed at the given coordinates where they are
    supplied; a missing coordinate is one fresh draw of the random source
    (a value in [0, 1)) scaled by the canvas width or height, the draw
    for [y] coming after the one for [x]: within the canvas bounds. *)
Theorem C10_addRipple x y g s :
  (canvasRef s = None -> addRipple x y g s = (s, g)) /\
  (forall c, canvasRef s = Some c ->
     let ux := Rand.value (Rand.draw_at g (Rand.pos g)) in
     let ky := match x with Some _ => Rand.pos g | None => S (Rand.pos g) end in
     let uy := Rand.value (Rand.draw_at g ky) in
     let tx := match x with Some q => q | None => (ux * width c)%Q end in
     let ty := match y with Some q => q | None => (uy * height c)%Q end in
     addRipple x y g s =
       ({| canvasRef := Some c;
           ripplesRef := ripplesRef s
                         ++ [ {| Ripple.x := tx; Ripple.y := ty; Ripple.age := 0;
                                 Ripple.maxAge := 100; Ripple.active := true |} ];
           animationFrameRef := animationFrameRef s;
           ctx := ctx s |},
        {| Rand.draw_at := Rand.draw_at g;
           Rand.pos := match y with Some _ => ky | None => S ky end |}) /\
     (0 <= ux /\ ux < 1)%Q /\ (0 <= uy /\ uy < 1)%Q /\
     ((0 < width c)%Q -> x = None -> (0 <= tx /\ tx < width c)%Q) /\
     ((0 < height c)%Q -> y = None -> (0 <= ty /\ ty < height c)%Q)).
Proof.
  split.
  - intros E. unfold addRipple. now rewrite E.
  - intros c E ux ky uy tx ty.
    split; [|split; [apply Rand_value_range|split; [apply Rand_value_range|split]]].
    + unfold addRipple. rewrite E. subst ux ky uy tx ty.
      destruct g as [f k], x as [qx|], y as [qy|]; reflexivity.
    + intros Hw ->. apply scaled_draw_range; trivial. apply Rand_value_range.
    + intros Hh ->. apply scaled_draw_range; trivial. apply Rand_value_range.
Qed.

Lemma C10_addRipple_witness :
  canvasRef (fst Scenario.one_ripple) = Some Scenario.c0 /\
  List.length (ripplesRef (fst (addRipple None None Scenario.g0 (fst Scenario.one_ripple))))
    = 2%nat.
Proof.
  split; [reflexivity|].
  rewrite (proj1 (proj2 (C10_addRipple None None Scenario.g0 (fst Scenario.one_ripple))
                    Scenario.c0 eq_refl)).
  reflexivity.
Defined.

End FieldClaims.

(* ====================================================================== *)
(** * The audio engine *)
(* ====================================================================== *)

Section AudioGraph.

Import Audio.

Lemma nth_error_mid1 {A} (pre : list A) a b post :
  nth_error (pre ++ a :: b :: post) (S (List.length pre)) = Some b.
Proof. induction pre; cbn; auto. Qed.

Lemma set_nth_mid1 {A} (pre : list A) a b x post :
  RippleCanvas.set_nth (S (List.length pre)) x (pre ++ a :: b :: post)
  = pre ++ a :: x :: post.
Proof.
  induction pre as [|h pre IH]; [reflexivity|].
  cbn [List.length app]. change (RippleCanvas.set_nth (S ?n) x (h :: ?l))
    with (h :: RippleCanvas.set_nth n x l). now rewrite IH.
Qed.

Lemma update_node_mk0 st t rq pre a post cs f :
  update_node (List.length pre) f
    {| state := st; currentTime := t; resumeRequested := rq;
       nodes := pre ++ a :: post; connections := cs |}
  = {| state := st; currentTime := t; resumeRequested := rq;
       nodes := pre ++ f a :: post; connections := cs |}.
Proof.
  unfold update_node. cbn [nodes]. now rewrite nth_error_mid, set_nth_mid.
Qed.

Lemma update_node_mk1 st t rq pre a b post cs f :
  update_node (S (List.length pre)) f
    {| state := st; currentTime := t; resumeRequested := rq;
       nodes := pre ++ a :: b :: post; connections := cs |}
  = {| state := st; currentTime := t; resumeRequested := rq;
       nodes := pre ++ a :: f b :: post; connections := cs |}.
Proof.
  unfold update_node. cbn [nodes]. now rewrite nth_error_mid1, set_nth_mid1.
Qed.

Lemma playTone_spec f s c :
  context s = Some c ->
  playTone f s =
  with_context s
    {| state := state c; currentTime := currentTime c;
       resumeRequested := resumeRequested c;
       nodes := nodes c ++ [Spec.voice_osc f (currentTime c) (S (List.length (nodes c)));
                            Spec.voice_gain (currentTime c)];
       connections := connections c
                      ++ [(List.length (nodes c), ToNode (S (List.length (nodes c))));
                          (S (List.length (nodes c)), Destination)] |}.
Proof.
  intros E. unfold playTone. rewrite E.
  destruct c as [st t rq ns cs].
  cbn [currentTime createOscillator createGain nodes with_nodes state
       resumeRequested connections].
  rewrite length_app, Nat.add_1_r, <- app_assoc. cbn [app].
  unfold with_nodes. cbn [nodes state currentTime resumeRequested connections].
  unfold set_type. rewrite update_node_mk0.
  unfold frequency_schedule. rewrite update_node_mk0.
  unfold connect at 2. cbn [nodes state currentTime resumeRequested connections].
  unfold connect at 1. cbn [nodes state currentTime resumeRequested connections].
  unfold gain_schedule. rewrite !update_node_mk1.
  unfold start. rewrite update_node_mk0.
  unfold stop. rewrite update_node_mk0.
  unfold set_onended. rewrite update_node_mk0.
  cbn [on_osc on_gain type frequency startTime stopTime onended gain app].
  rewrite <- !app_assoc. reflexivity.
Qed.

End AudioGraph.

Section RandomNote.

Import Audio.
Import Double.
Local Open Scope Q_scope.

Lemma randomIndex_comp u v : u == v -> randomIndex u = randomIndex v.
Proof.
  intros E. unfold randomIndex. apply Qfloor_comp, round_comp. now rewrite E.
Qed.

(** The product [u * 5] of a double [u] below 1 with 5 is lifted onto the
    integer [k] above it only if it is within half a unit in the last
    place of [k]. *)
Lemma lifted_gap u (k j : Z) :
  0 <= u -> u * 5 < inject_Z k -> inject_Z k <= 2 ^ j -> (0 <= j <= 3)%Z ->
  inject_Z k - 2 ^ (ulp_exp (u * 5) - 1) <= u * 5 ->
  inject_Z k - 2 ^ (j - 54) <= u * 5.
Proof.
  intros H0 Hk Hj Hj3 Hup.
  pose proof (ulp_exp_below (u * 5) j ltac:(lra) ltac:(lra) ltac:(lia)) as He.
  unfold prec, emin in He.
  assert (Hp : 2 ^ (ulp_exp (u * 5) - 1) <= 2 ^ (j - 54)) by (apply pow2_le; lia).
  lra.
Qed.

Ltac to_integers Hn Hlo Hhi :=
  rewrite Hn in Hlo, Hhi; unfold Qle, Qlt in Hlo, Hhi; cbn in Hlo, Hhi.

Lemma randomIndex_lifted u :
  is_double u = true -> 0 <= u -> u < 1 ->
  randomIndex u = (Qfloor (u * 5) + 1)%Z -> u == Double.below_three_fifths.
Proof.
  intros Hd H0 H1 Hi. unfold randomIndex in Hi.
  change (inject_Z (Z.of_nat (List.length Constants.PENTATONIC_SCALE))) with 5 in Hi.
  assert (Hx0 : 0 <= u * 5) by lra.
  assert (Hx5 : u * 5 < 5) by lra.
  assert (He3 : (ulp_exp (u * 5) <= 0)%Z).
  { pose proof (ulp_exp_below (u * 5) 3 Hx0) as H. change (2 ^ 3) with 8 in H.
    unfold prec, emin in H. specialize (H ltac:(lra) ltac:(lia)). lia. }
  destruct (round_floor (u * 5) He3) as [Hf|[_ Hup]]; [lia|]. clear Hi He3.
  pose proof (Qlt_floor (u * 5)) as Hlt. pose proof (Qfloor_le (u * 5)) as Hge.
  set (f := Qfloor (u * 5)) in *.
  assert (Hf0 : (0 <= f)%Z).
  { unfold f. rewrite <- (Qfloor_Z 0). now apply Qfloor_resp_le. }
  assert (Hf4 : (f <= 4)%Z).
  { assert (H : inject_Z f < inject_Z 5) by (change (inject_Z 5) with 5; lra).
    rewrite <- Zlt_Qlt in H. lia. }
  assert (Hf : f = 0%Z \/ f = 1%Z \/ f = 2%Z \/ f = 3%Z \/ f = 4%Z) by lia.
  clearbody f. clear Hge Hf0 Hf4.
  destruct Hf as [->|[->|[->|[->| ->]]]]; cbn [Z.add Pos.add Pos.succ] in Hup, Hlt.
  - apply (lifted_gap u 1 0 H0 Hlt) in Hup; [|discriminate|lia].
    change (2 ^ (0 - 54)) with (1 # 18014398509481984) in Hup.
    change (inject_Z 1) with 1 in Hup, Hlt.
    destruct (double_grid u (-3) Hd) as [n Hn].
    { change (2 ^ (-3)) with (1 # 8). lra. }
    change (2 ^ (-3 - (prec - 1))) with (1 # 36028797018963968) in Hn.
    exfalso. to_integers Hn Hup Hlt. lia.
  - apply (lifted_gap u 2 1 H0 Hlt) in Hup; [|discriminate|lia].
    change (2 ^ (1 - 54)) with (1 # 9007199254740992) in Hup.
    change (inject_Z 2) with 2 in Hup, Hlt.
    destruct (double_grid u (-2) Hd) as [n Hn].
    { change (2 ^ (-2)) with (1 # 4). lra. }
    change (2 ^ (-2 - (prec - 1))) with (1 # 18014398509481984) in Hn.
    exfalso. to_integers Hn Hup Hlt. lia.
  - apply (lifted_gap u 3 2 H0 Hlt) in Hup; [|discriminate|lia].
    change (2 ^ (2 - 54)) with (1 # 4503599627370496) in Hup.
    change (inject_Z 3) with 3 in Hup, Hlt.
    destruct (double_grid u (-1) Hd) as [n Hn].
    { change (2 ^ (-1)) with (1 # 2). lra. }
    change (2 ^ (-1 - (prec - 1))) with (1 # 9007199254740992) in Hn.
    rewrite Hn. to_integers Hn Hup Hlt.
    assert (n = 5404319552844595%Z) by lia. subst n. reflexivity.
  - apply (lifted_gap u 4 2 H0 Hlt) in Hup; [|discriminate|lia].
    change (2 ^ (2 - 54)) with (1 # 4503599627370496) in Hup.
    change (inject_Z 4) with 4 in Hup, Hlt.
    destruct (double_grid u (-1) Hd) as [n Hn].
    { change (2 ^ (-1)) with (1 # 2). lra. }
    change (2 ^ (-1 - (prec - 1))) with (1 # 9007199254740992) in Hn.
    exfalso. to_integers Hn Hup Hlt. lia.
  - apply (lifted_gap u 5 3 H0 Hlt) in Hup; [|discriminate|lia].
    change (2 ^ (3 - 54)) with (1 # 2251799813685248) in Hup.
    change (inject_Z 5) with 5 in Hup, Hlt.
    destruct (double_grid u (-1) Hd) as [n Hn].
    { change (2 ^ (-1)) with (1 # 2). lra. }
    change (2 ^ (-1 - (prec - 1))) with (1 # 9007199254740992) in Hn.
    exfalso. to_integers Hn Hup Hlt. lia.
Qed.

(** The index that the code computes, for every double in [[0, 1)]: the
    integer part of five times the number, except at the one double,
    just below three fifths, whose product with 5 rounds to 3. *)
Lemma randomIndex_double u :
  is_double u = true -> 0 <= u -> u < 1 ->
  randomIndex u = if Qeq_bool u Double.below_three_fifths then 3%Z else Qfloor (u * 5).
Proof.
  intros Hd H0 H1.
  destruct (Qeq_bool u Double.below_three_fifths) eqn:E.
  - apply Qeq_bool_iff in E. rewrite (randomIndex_comp _ _ E). reflexivity.
  - assert (He3 : (ulp_exp (u * 5) <= 0)%Z).
    { pose proof (ulp_exp_below (u * 5) 3 ltac:(lra)) as H. change (2 ^ 3) with 8 in H.
      unfold prec, emin in H. specialize (H ltac:(lra) ltac:(lia)). lia. }
    destruct (round_floor (u * 5) He3) as [Hf|[Hf _]]; [exact Hf|].
    pose proof (randomIndex_lifted u Hd H0 H1 Hf) as Hu.
    apply Qeq_bool_iff in Hu. congruence.
Qed.

Lemma randomIndex_at_three_fifths :
  randomIndex Double.below_three_fifths = 3%Z /\ Qfloor (Double.below_three_fifths * 5) = 2%Z /\
  is_double Double.below_three_fifths = true.
Proof. repeat split; vm_compute; reflexivity. Qed.


(** The integer part of [5 u] is [i] exactly on the fifth
    [[i/5, (i+1)/5)] of the unit interval. *)
Lemma floor_share u i :
  Qfloor (u * 5) = i <-> inject_Z i / 5 <= u /\ u < inject_Z (i + 1) / 5.
Proof.
  rewrite Qfloor_eq_iff.
  unfold Qdiv. change (/ 5) with (1 # 5).
  split; intros [H1 H2]; split; lra.
Qed.

Lemma randomIndex_range nd :
  (0 <= randomIndex (Rand.value nd) < 5)%Z.
Proof.
  destruct (Rand_value_range nd) as [H0 H1].
  rewrite (randomIndex_double _ (Rand_value_double nd) H0 H1).
  destruct (Qeq_bool _ _); [lia|].
  destruct (proj1 (Qfloor_eq_iff (Rand.value nd * 5) _) eq_refl) as [Hlo Hhi].
  set (i := Qfloor (Rand.value nd * 5)) in *.
  assert (Ha : inject_Z i < inject_Z 5) by (change (inject_Z 5) with 5; lra).
  assert (Hb : inject_Z 0 < inject_Z (i + 1)).
  { change (inject_Z 0) with 0. lra. }
  rewrite <- Zlt_Qlt in Ha, Hb. lia.
Qed.

Lemma scale_at_defined i :
  (0 <= i < 5)%Z -> exists note, scale_at i = Some note /\ In note Constants.PENTATONIC_SCALE.
Proof.
  intros H. unfold scale_at.
  destruct (Z.ltb_spec i 0) as [|_]; [lia|].
  assert (Hn : (Z.to_nat i < 5)%nat) by lia.
  destruct (nth_error Constants.PENTATONIC_SCALE (Z.to_nat i)) as [note|] eqn:E.
  - exists note. split; trivial. eapply nth_error_In; eauto.
  - apply nth_error_None in E. cbn in E. lia.
Qed.

(** With a context and the enabled flag, [playRandomNote] plays one note
    of the scale, whatever the state of the context. *)
Lemma playRandomNote_plays g s c :
  context s = Some c -> isEnabled s = true ->
  exists note,
    scale_at (randomIndex (Rand.value (Rand.draw_at g (Rand.pos g)))) = Some note /\
    In note Constants.PENTATONIC_SCALE /\
    playRandomNote g s =
    Some (playTone (Constants.freq note) s,
          {| Rand.draw_at := Rand.draw_at g; Rand.pos := S (Rand.pos g) |}).
Proof.
  intros E En. unfold playRandomNote. rewrite E, En. cbn [negb Rand.Math_random].
  destruct (scale_at_defined _ (randomIndex_range (Rand.draw_at g (Rand.pos g))))
    as (note & -> & Hin).
  exists note. auto.
Qed.

Lemma playRandomNote_total g s : exists st, playRandomNote g s = Some st.
Proof.
  unfold playRandomNote. destruct (context s); [|eauto].
  destruct (isEnabled s); cbn [negb Rand.Math_random]; [|eauto].
  destruct (scale_at_defined _ (randomIndex_range (Rand.draw_at g (Rand.pos g))))
    as (note & -> & _).
  eauto.
Qed.

End RandomNote.

Section EngineInvariant.

Import Audio.

Lemma init_uninitialized d s :
  context s = None ->
  init (Starts d) s =
  Some {| context := Some {| state := if d then suspended else running;
                             currentTime := 0; resumeRequested := d;
                             nodes := []; connections := [] |};
          isEnabled := true;
          constructed := S (constructed s) |}.
Proof. intros E. unfold init. rewrite E. destruct d; reflexivity. Qed.

Lemma init_throws s : context s = None -> init Throws s = None.
Proof. intros E. unfold init. now rewrite E. Qed.

Lemma init_initialized p s c :
  context s = Some c ->
  init p s = Some match state c with
                  | suspended => with_context s (resume c)
                  | _ => s
                  end.
Proof. intros E. unfold init. rewrite E, E. now destruct (state c). Qed.

(** [init] throws only when it has to construct the context and the
    constructor throws. *)
Lemma init_None p s : init p s = None <-> context s = None /\ p = Throws.
Proof.
  split.
  - destruct (context s) as [c|] eqn:E.
    + rewrite (init_initialized p s c E). discriminate.
    + destruct p as [d|]; [|auto]. rewrite (init_uninitialized d s E). discriminate.
  - intros [E ->]. now apply init_throws.
Qed.

Lemma init_idempotent p p' s s' : init p s = Some s' -> init p' s' = Some s'.
Proof.
  destruct (context s) as [c|] eqn:E.
  - rewrite (init_initialized p s c E). intros [= <-].
    destruct (state c) eqn:Es.
    + erewrite init_initialized by reflexivity. cbn [state resume]. now rewrite Es.
    + rewrite (init_initialized p' s c E). now rewrite Es.
    + rewrite (init_initialized p' s c E). now rewrite Es.
  - destruct p as [d|]; [|now rewrite (init_throws s E)].
    rewrite (init_uninitialized d s E). intros [= <-].
    erewrite init_initialized by reflexivity.
    destruct d; reflexivity.
Qed.

Lemma engine_ok_initial : Spec.engine_ok initial.
Proof. now split. Qed.

Lemma engine_ok_init p s s' :
  Spec.engine_ok s -> init p s = Some s' -> Spec.engine_ok s'.
Proof.
  unfold Spec.engine_ok. destruct (context s) as [c|] eqn:E.
  - rewrite (init_initialized p s c E). intros (Hc & He & Hs & Hv) [= <-].
    destruct (state c) eqn:Es; cbn; rewrite ?E; repeat split; trivial; congruence.
  - destruct p as [d|]; [|now rewrite (init_throws s E)].
    rewrite (init_uninitialized d s E). intros [Hc He] [= <-]. cbn.
    rewrite Hc. repeat split; [destruct d; discriminate|constructor].
Qed.

Lemma engine_ok_after_init p s :
  Spec.engine_ok s -> Spec.engine_ok (Engine.after_init p s).
Proof.
  intros Hok. unfold Engine.after_init.
  destruct (init p s) as [s'|] eqn:E; [eapply engine_ok_init; eauto|exact Hok].
Qed.

Lemma over_now t0 : Spec.over t0 t0 = false.
Proof.
  unfold Spec.over. destruct (Qle_bool _ _) eqn:E; trivial.
  apply Qle_bool_iff in E. exfalso. lra.
Qed.

Lemma over_mono now now' t0 :
  (now <= now')%Q -> Spec.over now t0 = true -> Spec.over now' t0 = true.
Proof.
  unfold Spec.over. intros H E. apply Qle_bool_iff in E. apply Qle_bool_iff. lra.
Qed.

(** A voice started now is added as one that sounds. *)
Lemma voices_only_fresh now ns cs f :
  Spec.voices_only now ns cs ->
  Spec.voices_only now
    (ns ++ [Spec.voice_osc f now (S (List.length ns)); Spec.voice_gain now])
    (cs ++ [(List.length ns, ToNode (S (List.length ns)));
            (S (List.length ns), Destination)]).
Proof.
  intros H. pose proof (Spec.one_more now ns cs f now H) as H1.
  now rewrite over_now in H1.
Qed.

Lemma engine_ok_playTone f s : Spec.engine_ok s -> Spec.engine_ok (playTone f s).
Proof.
  unfold Spec.engine_ok. destruct (context s) as [c|] eqn:E.
  - rewrite (playTone_spec f s c E). cbn. intros (Hc & He & Hs & Hv).
    repeat split; trivial. now apply voices_only_fresh.
  - unfold playTone. now rewrite E, E.
Qed.

Lemma engine_ok_playRandomNote g s st :
  Spec.engine_ok s -> playRandomNote g s = Some st -> Spec.engine_ok (fst st).
Proof.
  intros Hok. unfold playRandomNote.
  destruct (context s); [|now intros [= <-]].
  destruct (isEnabled s); cbn [negb Rand.Math_random]; [|now intros [= <-]].
  destruct (scale_at _); [|discriminate].
  intros [= <-]. now apply engine_ok_playTone.
Qed.

Lemma engine_ok_on_context f s :
  (forall c, state c <> closed -> state (f c) <> closed) ->
  (forall c, Spec.voices_only (currentTime c) (nodes c) (connections c) ->
             Spec.voices_only (currentTime (f c)) (nodes (f c)) (connections (f c))) ->
  Spec.engine_ok s -> Spec.engine_ok (Engine.on_context f s).
Proof.
  intros Hst Hgr. unfold Spec.engine_ok, Engine.on_context.
  destruct (context s) as [c|] eqn:E; cbn; rewrite ?E; trivial.
  intros (Hc & He & Hs & Hv). auto.
Qed.

Lemma confirm_resume_frame c :
  (state c <> closed -> state (confirm_resume c) <> closed) /\
  currentTime (confirm_resume c) = currentTime c /\
  nodes (confirm_resume c) = nodes c /\ connections (confirm_resume c) = connections c.
Proof.
  unfold confirm_resume. destruct (state c) eqn:E, (resumeRequested c); cbn;
    rewrite ?E; repeat split; trivial; discriminate.
Qed.

Lemma confirm_resume_voices c :
  Spec.voices_only (currentTime c) (nodes c) (connections c) ->
  Spec.voices_only (currentTime (confirm_resume c)) (nodes (confirm_resume c))
                   (connections (confirm_resume c)).
Proof.
  destruct (confirm_resume_frame c) as (_ & -> & -> & ->). trivial.
Qed.

(** *** The dispatch of the [ended] events *)

Lemma disconnect_app g cs1 cs2 :
  disconnect g (cs1 ++ cs2) = disconnect g cs1 ++ disconnect g cs2.
Proof. apply filter_app. Qed.

Lemma disconnect_all_app gs : forall cs1 cs2,
  fold_left (fun cs g => disconnect g cs) gs (cs1 ++ cs2)
  = fold_left (fun cs g => disconnect g cs) gs cs1
    ++ fold_left (fun cs g => disconnect g cs) gs cs2.
Proof.
  induction gs as [|g gs IH]; intros cs1 cs2; cbn [fold_left]; trivial.
  rewrite disconnect_app. apply IH.
Qed.

Lemma disconnect_other g cs :
  Forall (fun e => fst e <> g) cs -> disconnect g cs = cs.
Proof.
  unfold disconnect. induction 1 as [|e cs He _ IH]; cbn [filter]; trivial.
  destruct (Nat.eqb_spec (fst e) g); [contradiction|]. cbn [negb]. now rewrite IH.
Qed.

Lemma disconnect_all_other gs : forall cs,
  (forall g, In g gs -> Forall (fun e => fst e <> g) cs) ->
  fold_left (fun cs g => disconnect g cs) gs cs = cs.
Proof.
  induction gs as [|g gs IH]; intros cs H; cbn [fold_left]; trivial.
  rewrite disconnect_other by (apply H; now left).
  apply IH. intros g' Hg'. apply H. now right.
Qed.

Lemma disconnect_all_sources (P : nat -> Prop) gs : forall cs,
  Forall (fun e => P (fst e)) cs ->
  Forall (fun e => P (fst e)) (fold_left (fun cs g => disconnect g cs) gs cs).
Proof.
  induction gs as [|g gs IH]; intros cs H; cbn [fold_left]; trivial.
  apply IH. unfold disconnect. rewrite Forall_forall in *.
  intros e He. apply filter_In in He. now apply H.
Qed.

Lemma voices_only_pairs now ns cs :
  Spec.voices_only now ns cs ->
  Forall (fun e => (fst e < List.length ns)%nat) cs /\
  forall now', Forall (fun g => (g < List.length ns)%nat) (callbacks now' ns).
Proof.
  induction 1 as [|ns cs f t0 H [IH1 IH2]]; [split; [constructor|intros; constructor]|].
  rewrite length_app. cbn [List.length]. split.
  - apply Forall_app. split.
    + eapply Forall_impl; [|exact IH1]. cbn. intros; lia.
    + destruct (Spec.over now t0); repeat constructor; cbn; lia.
  - intros now'. unfold callbacks. rewrite flat_map_app. apply Forall_app. split.
    + eapply Forall_impl; [|exact (IH2 now')]. cbn. intros; lia.
    + destruct (Spec.over now t0); cbn; [constructor|].
      destruct (Qle_bool _ now'); cbn; repeat constructor; lia.
Qed.

(** When the clock has moved from [now] to [now'], the dispatch leaves a
    graph of voices, of which those that are over have lost their wire to
    the destination. *)
Lemma dispatch_voices now now' ns cs :
  (now <= now')%Q -> Spec.voices_only now ns cs ->
  Spec.voices_only now' (map (mark_ended now') ns)
    (fold_left (fun cs g => disconnect g cs) (callbacks now' ns) cs).
Proof.
  intros Hle. induction 1 as [|ns cs f t0 H IH]; [constructor|].
  destruct (voices_only_pairs _ _ _ H) as [Hsrc Hcb]. specialize (Hcb now').
  set (n := List.length ns) in *.
  assert (Hkeep : forall w,
             Forall (fun e => (n <= fst e)%nat) w ->
             fold_left (fun cs g => disconnect g cs) (callbacks now' ns) w = w).
  { intros w Hw. apply disconnect_all_other. intros g Hg.
    rewrite Forall_forall in Hcb. specialize (Hcb g Hg).
    eapply Forall_impl; [|exact Hw]. cbn. intros; lia. }
  assert (Hold : Forall (fun e => fst e <> S n)
                   (fold_left (fun cs g => disconnect g cs) (callbacks now' ns) cs)).
  { apply (disconnect_all_sources (fun i => i <> S n)).
    eapply Forall_impl; [|exact Hsrc]. cbn. intros; lia. }
  pose proof (Spec.one_more now' _ _ f t0 IH) as Hnew.
  rewrite length_map in Hnew. fold n in Hnew.
  rewrite map_app. unfold callbacks at 1. rewrite flat_map_app. fold (callbacks now' ns).
  rewrite fold_left_app, disconnect_all_app.
  destruct (Spec.over now t0) eqn:Eo.
  - rewrite (over_mono _ _ _ Hle Eo) in Hnew.
    cbn [map mark_ended due Spec.ended_voice_osc startTime stopTime ended negb andb
         flat_map app fold_left].
    rewrite (Hkeep [(n, ToNode (S n))]) by (repeat constructor; cbn; lia). exact Hnew.
  - cbn [map mark_ended due Spec.voice_osc startTime stopTime ended negb andb
         flat_map app onended].
    fold (Spec.over now' t0).
    destruct (Spec.over now' t0) eqn:Eo'; cbn [fold_left app].
    + rewrite (Hkeep [(n, ToNode (S n)); (S n, Destination)])
        by (repeat constructor; cbn; lia).
      rewrite disconnect_app. rewrite disconnect_other by exact Hold.
      unfold disconnect.
      cbn [filter fst negb]. rewrite Nat.eqb_refl.
      replace (Nat.eqb n (S n)) with false by (symmetry; apply Nat.eqb_neq; lia).
      exact Hnew.
    + rewrite (Hkeep [(n, ToNode (S n)); (S n, Destination)])
        by (repeat constructor; cbn; lia).
      exact Hnew.
Qed.


Lemma advance_state dt c : state (advance dt c) = state c.
Proof.
  unfold advance. destruct (state c) eqn:E; trivial.
  destruct (Qle_bool 0 dt); trivial.
Qed.

Lemma advance_voices dt c :
  Spec.voices_only (currentTime c) (nodes c) (connections c) ->
  Spec.voices_only (currentTime (advance dt c)) (nodes (advance dt c))
                   (connections (advance dt c)).
Proof.
  intros H. unfold advance. destruct (state c); trivial.
  destruct (Qle_bool 0 dt) eqn:E; trivial.
  apply Qle_bool_iff in E. cbn. apply (dispatch_voices (currentTime c)); trivial. lra.
Qed.

Lemma engine_ok_apply o st :
  Spec.engine_ok (fst st) -> Spec.engine_ok (fst (Engine.apply o st)).
Proof.
  intros Hok. destruct o as [p| |f| | |dt]; cbn [Engine.apply fst]; trivial.
  - now apply engine_ok_after_init.
  - destruct (playRandomNote (snd st) (fst st)) as [st'|] eqn:E; trivial.
    eapply engine_ok_playRandomNote; eauto.
  - now apply engine_ok_playTone.
  - apply engine_ok_on_context; trivial; intros c;
      [apply confirm_resume_frame|apply confirm_resume_voices].
  - apply engine_ok_on_context; trivial; intros c.
    + now rewrite advance_state.
    + apply advance_voices.
Qed.

Lemma engine_ok_exec ops : forall st,
  Spec.engine_ok (fst st) -> Spec.engine_ok (fst (Engine.exec ops st)).
Proof.
  unfold Engine.exec.
  induction ops as [|o ops IH]; intros st Hok; cbn [fold_left]; trivial.
  apply IH. now apply engine_ok_apply.
Qed.

End EngineInvariant.

Section EngineViews.

Import Audio.

Lemma view_playTone f s : Engine.view (playTone f s) = Engine.view s.
Proof.
  destruct (context s) as [c|] eqn:E.
  - rewrite (playTone_spec f s c E). unfold Engine.view, getContextState,
      Engine.resume_pending. cbn. now rewrite E.
  - unfold playTone. now rewrite E.
Qed.

Lemma view_playRandomNote g s st :
  playRandomNote g s = Some st -> Engine.view (fst st) = Engine.view s.
Proof.
  unfold playRandomNote.
  destruct (context s); [|now intros [= <-]].
  destruct (isEnabled s); cbn [negb Rand.Math_random]; [|now intros [= <-]].
  destruct (scale_at _); [|discriminate].
  intros [= <-]. apply view_playTone.
Qed.

Lemma view_advance dt s :
  Engine.view (Engine.on_context (advance dt) s) = Engine.view s.
Proof.
  unfold Engine.view, Engine.on_context, getContextState, Engine.resume_pending.
  destruct (context s) as [c|] eqn:E; cbn; rewrite ?E; trivial.
  unfold advance. destruct (state c) eqn:Es; cbn; rewrite ?Es; trivial.
  destruct (Qle_bool 0 dt); cbn; now rewrite ?Es.
Qed.

Lemma view_confirm_resume s :
  Engine.view (Engine.on_context confirm_resume s) =
  match Engine.view s with
  | (ctx_state suspended, true, n) => (ctx_state running, false, n)
  | v => v
  end.
Proof.
  unfold Engine.view, Engine.on_context, getContextState, Engine.resume_pending.
  destruct (context s) as [c|] eqn:E; cbn; rewrite ?E; trivial.
  unfold confirm_resume.
  destruct (state c) eqn:Es, (resumeRequested c) eqn:Er; cbn; now rewrite ?Es, ?Er.
Qed.

Lemma view_init p s s' :
  init p s = Some s' ->
  Engine.view s' =
  match Engine.view s, p with
  | (uninitialized, _, n), Starts d => (ctx_state (if d then suspended else running), d, S n)
  | (ctx_state suspended, _, n), _ => (ctx_state suspended, true, n)
  | v, _ => v
  end.
Proof.
  destruct (context s) as [c|] eqn:E.
  - rewrite (init_initialized p s c E). intros [= <-].
    unfold Engine.view, getContextState, Engine.resume_pending. rewrite E.
    destruct (state c) eqn:Es, p; cbn; now rewrite ?E, ?Es.
  - destruct p as [d|]; [|now rewrite (init_throws s E)].
    rewrite (init_uninitialized d s E). intros [= <-].
    unfold Engine.view, getContextState, Engine.resume_pending. rewrite E. reflexivity.
Qed.

Lemma engine_ok_view s :
  Spec.engine_ok s ->
  match Engine.view s with
  | (uninitialized, p, n) => context s = None /\ p = false /\ n = 0%nat
  | (ctx_state st, _, n) =>
      (exists c, context s = Some c /\ state c = st) /\ st <> closed /\ n = 1%nat
  end.
Proof.
  unfold Spec.engine_ok, Engine.view, getContextState, Engine.resume_pending.
  destruct (context s) as [c|].
  - intros (Hc & _ & Hs & _). eauto.
  - intros [Hc _]. auto.
Qed.

End EngineViews.

Section EngineClaims.

Import Audio.

Lemma view_apply o st :
  Engine.view (fst (Engine.apply o st)) =
  match o with
  | Engine.Init p =>
      match Engine.view (fst st), p with
      | (uninitialized, _, n), Starts d =>
          (ctx_state (if d then suspended else running), d, S n)
      | (ctx_state suspended, _, n), _ => (ctx_state suspended, true, n)
      | v, _ => v
      end
  | Engine.ConfirmResume =>
      match Engine.view (fst st) with
      | (ctx_state suspended, true, n) => (ctx_state running, false, n)
      | v => v
      end
  | _ => Engine.view (fst st)
  end.
Proof.
  destruct o as [p| |f| | |dt]; cbn [Engine.apply fst]; trivial.
  - unfold Engine.after_init. destruct (init p (fst st)) as [a|] eqn:E.
    + now apply view_init.
    + apply init_None in E as [E ->].
      unfold Engine.view, getContextState. now rewrite E.
  - destruct (playRandomNote (snd st) (fst st)) as [st'|] eqn:E; trivial.
    eapply view_playRandomNote; eauto.
  - apply view_playTone.
  - apply view_confirm_resume.
  - apply view_advance.
Qed.

Lemma view_parts s :
  Engine.view s = (getContextState s, Engine.resume_pending s, constructed s).
Proof. reflexivity. Qed.

(** C5.  At every point of every history of the engine (calls of its
    methods, platform confirmations, clock ticks): an operation either
    leaves the observable state alone or takes one of the transitions
    Uninitialized to Running, Uninitialized to Suspended, Suspended to
    Running; the first two happen in [init()] on an engine without a
    context, the third when the platform confirms a resume, which only
    [init()] requests; at most one context is ever constructed, and a
    context once made stays, never closed.  [init()] is idempotent, and
    on a suspended engine it requests the resume whose confirmation makes
    the engine Running.  A call of [init()] throws only on an engine
    without a context, when the platform's constructor throws, and it
    leaves the engine as it was. *)
Theorem C5_engine_lifecycle :
  (forall g ops o,
     let st := Engine.exec ops (Engine.start g) in
     let st' := Engine.apply o st in
     let a := getContextState (fst st) in
     let b := getContextState (fst st') in
     (a = b \/ Engine.allowed a b = true) /\
     (a <> b ->
      (exists d, o = Engine.Init (Starts d) /\ a = uninitialized /\
                 b = ctx_state (if d then suspended else running)) \/
      (o = Engine.ConfirmResume /\ a = ctx_state suspended /\
       b = ctx_state running /\ Engine.resume_pending (fst st) = true)) /\
     (Engine.resume_pending (fst st) = false ->
      Engine.resume_pending (fst st') = true -> exists p, o = Engine.Init p) /\
     (constructed (fst st') <= 1)%nat /\
     (forall c, context (fst st) = Some c ->
        constructed (fst st') = constructed (fst st) /\
        exists c', context (fst st') = Some c' /\ state c' <> closed)) /\
  (forall p p' s s', init p s = Some s' -> init p' s' = Some s') /\
  (forall p s c,
     context s = Some c -> state c = suspended ->
     exists s',
       init p s = Some s' /\
       getContextState s' = ctx_state suspended /\
       Engine.resume_pending s' = true /\
       getContextState (Engine.on_context confirm_resume s') = ctx_state running) /\
  (forall p s, init p s = None <-> context s = None /\ p = Throws) /\
  (forall p st, init p (fst st) = None -> Engine.apply (Engine.Init p) st = st).
Proof.
  split; [|split; [|split; [|split]]].
  - intros g ops o st st' a b.
    assert (Hok : Spec.engine_ok (fst st))
      by (apply engine_ok_exec, engine_ok_initial).
    assert (Hok' : Spec.engine_ok (fst st')) by now apply engine_ok_apply.
    pose proof (engine_ok_view _ Hok) as Hv.
    pose proof (engine_ok_view _ Hok') as Hv'.
    pose proof (view_apply o st) as Hva. fold st' in Hva.
    rewrite (view_parts (fst st')) in Hva, Hv'.
    rewrite (view_parts (fst st)) in Hva, Hv.
    fold a in Hva, Hv. fold b in Hva, Hv'.
    pose proof (f_equal (fun v => fst (fst v)) Hva) as Hb.
    pose proof (f_equal (fun v => snd (fst v)) Hva) as Hp.
    pose proof (f_equal snd Hva) as Hc.
    clear Hva Hok Hok'. cbn [fst snd] in Hb, Hp, Hc.
    destruct a as [|sa], o as [[d|]| |f| | |dt];
      try destruct sa; try destruct (Engine.resume_pending (fst st)) eqn:Ep;
      cbn [fst snd] in Hb, Hp, Hc; rewrite Hb in *; clear Hb;
      repeat match goal with
             | H : _ /\ _ |- _ => destruct H
             | H : exists _, _ |- _ => destruct H
             end.
    all: split; [first [left; reflexivity | right; destruct d; reflexivity
                       | right; reflexivity]|].
    all: split; [intros Hne;
                 first [exfalso; apply Hne; reflexivity
                       | left; eexists; repeat split; reflexivity
                       | right; repeat split; reflexivity]|].
    all: split; [intros Hp0 Hp1; first [discriminate | congruence | eauto]|].
    all: split; [lia|].
    all: intros c0 Hc0; first [congruence | split; [congruence|]].
    all: match goal with
         | H : Audio.context _ = Some ?x, E : state ?x = _ |- _ =>
             exists x; split; [exact H|rewrite E; assumption]
         end.
  - apply init_idempotent.
  - intros p s c E Es.
    rewrite (init_initialized p s c E), Es. eexists. split; [reflexivity|].
    unfold getContextState, Engine.resume_pending, Engine.on_context.
    cbn. unfold confirm_resume, resume. cbn. now rewrite Es.
  - exact init_None.
  - intros p st E. cbn [Engine.apply]. unfold Engine.after_init. rewrite E.
    now destruct st.
Qed.

Lemma C5_engine_lifecycle_witness :
  context Scenario.deferred_engine
    = Some {| state := suspended; currentTime := 0; resumeRequested := true;
              nodes := []; connections := [] |} /\
  exists s',
    init (Starts false) Scenario.deferred_engine = Some s' /\
    getContextState (Engine.on_context confirm_resume s') = ctx_state running.
Proof.
  split; [reflexivity|].
  destruct (proj1 (proj2 (proj2 C5_engine_lifecycle)) (Starts false)
              Scenario.deferred_engine _ eq_refl eq_refl) as (s' & E & _ & _ & H).
  exists s'. split; [exact E|exact H].
Defined.

(** C1, as stated, fails: [playRandomNote] tests for a context and the
    enabled flag, not for the Running state.  After one [init()] that the
    platform defers the engine is Suspended, and a call of
    [playRandomNote] still adds a voice to the graph. *)
Lemma C1_suspended_engine_plays :
  ~ (forall g ops,
       let st := Engine.exec ops (Engine.start g) in
       getContextState (fst st) <> ctx_state running ->
       Engine.apply Engine.PlayRandomNote st = st).
Proof.
  intros H.
  specialize (H Scenario.g0 [Engine.Init (Starts true)] ltac:(discriminate)).
  apply (f_equal (fun st => graph_size (fst st))) in H.
  vm_compute in H. discriminate H.
Qed.

Lemma triggerEffect_audio x y src s :
  App.is_running (getContextState (App.audioService s)) = false ->
  App.audioService (App.state_of (App.triggerEffect x y src s)) = App.audioService s.
Proof.
  intros H. unfold App.triggerEffect.
  destruct src as [so|];
    destruct (RippleCanvas.addRipple x y _ _) as [cv g1]; cbn; now rewrite H.
Qed.

(** C1, amended.  [playRandomNote] is a no-op on an engine that has no
    context (Uninitialized).  On an engine with a context and the enabled
    flag, Running or Suspended, it draws one random number [u], takes the
    note of the 5-entry scale at the index [Math.floor(u * 5)] and
    synthesizes exactly one voice at that note's frequency.  The product
    is a double: the index is within the table for every draw and equals
    [floor (5 u)], which is [i] exactly for [u] in [[i/5, (i+1)/5)], for
    every double [u] in [[0, 1)] but one, the double just below 3/5,
    whose product rounds to 3 and which plays index 3, not 2.  In every
    history of the engine a context comes with the enabled flag.  The
    dispatcher's [triggerEffect] leaves the engine untouched unless its
    state is Running. *)
Theorem C1_playRandomNote :
  (forall g s, getContextState s = uninitialized -> playRandomNote g s = Some (s, g)) /\
  (forall g s c,
     context s = Some c -> isEnabled s = true ->
     exists note,
       nth_error Constants.PENTATONIC_SCALE
         (Z.to_nat (randomIndex (Rand.value (Rand.draw_at g (Rand.pos g))))) = Some note /\
       playRandomNote g s =
         Some (playTone (Constants.freq note) s,
               {| Rand.draw_at := Rand.draw_at g; Rand.pos := S (Rand.pos g) |}) /\
       context (playTone (Constants.freq note) s) =
         Some {| state := state c; currentTime := currentTime c;
                 resumeRequested := resumeRequested c;
                 nodes := nodes c
                          ++ [Spec.voice_osc (Constants.freq note) (currentTime c)
                                             (S (List.length (nodes c)));
                              Spec.voice_gain (currentTime c)];
                 connections := connections c
                                ++ [(List.length (nodes c),
                                     ToNode (S (List.length (nodes c))));
                                    (S (List.length (nodes c)), Destination)] |}) /\
  (forall g ops,
     let s := fst (Engine.exec ops (Engine.start g)) in
     getContextState s <> uninitialized -> isEnabled s = true) /\
  (List.length Constants.PENTATONIC_SCALE = 5%nat /\
   (forall nd,
      let u := Rand.value nd in
      (0 <= randomIndex u < 5)%Z /\
      randomIndex u
      = if Qeq_bool u Double.below_three_fifths then 3%Z else Qfloor (u * 5)) /\
   (forall u i, Qfloor (u * 5) = i <->
                (inject_Z i / 5 <= u /\ u < inject_Z (i + 1) / 5)%Q) /\
   (exists nd, (Rand.value nd == Double.below_three_fifths)%Q) /\
   Qfloor (Double.below_three_fifths * 5) = 2%Z) /\
  (forall x y src s,
     App.is_running (getContextState (App.audioService s)) = false ->
     App.audioService (App.state_of (App.triggerEffect x y src s)) = App.audioService s).
Proof.
  split; [|split; [|split; [|split]]].
  - intros g s H. unfold getContextState in H. unfold playRandomNote.
    destruct (context s); [discriminate|reflexivity].
  - intros g s c E En.
    destruct (playRandomNote_plays g s c E En) as (note & Hn & _ & Hp).
    exists note. split; [|split; trivial].
    + unfold scale_at in Hn. destruct (_ <? 0); [discriminate|exact Hn].
    + now rewrite (playTone_spec _ s c E).
  - intros g ops s H.
    assert (Hok : Spec.engine_ok s) by (apply engine_ok_exec, engine_ok_initial).
    unfold Spec.engine_ok in Hok. unfold getContextState in H.
    destruct (context s); [apply Hok|congruence].
  - split; [reflexivity|]. split; [|split; [exact floor_share|split; [|reflexivity]]].
    + intros nd u. split; [apply randomIndex_range|].
      destruct (Rand_value_range nd).
      apply randomIndex_double; trivial. apply Rand_value_double.
    + apply Rand_value_onto; [apply randomIndex_at_three_fifths|discriminate|reflexivity].
  - exact triggerEffect_audio.
Qed.

Lemma C1_playRandomNote_witness :
  (getContextState initial = uninitialized /\
   playRandomNote Scenario.g0 initial = Some (initial, Scenario.g0)) /\
  (getContextState Scenario.deferred_engine = ctx_state suspended /\
   exists note,
     nth_error Constants.PENTATONIC_SCALE 2 = Some note /\
     playRandomNote Scenario.g0 Scenario.deferred_engine
     = Some (playTone (Constants.freq note) Scenario.deferred_engine,
             {| Rand.draw_at := Rand.draw_at Scenario.g0; Rand.pos := 1 |}) /\
     graph_size (playTone (Constants.freq note) Scenario.deferred_engine) = 4%nat) /\
  (randomIndex (Rand.value (1%N, 2%positive)) = 2%Z /\
   (0 <= randomIndex (Rand.value (5404319552844595%N, 9007199254740992%positive)) < 5)%Z) /\
  App.audioService
    (App.state_of (App.triggerEffect None None None (App.initial Scenario.deferring Scenario.g0)))
  = initial.
Proof.
  split; [|split; [|split]].
  - split; [reflexivity|].
    exact (proj1 C1_playRandomNote Scenario.g0 initial eq_refl).
  - split; [reflexivity|].
    destruct (proj1 (proj2 C1_playRandomNote) Scenario.g0 Scenario.deferred_engine _
                eq_refl eq_refl) as (note & Hn & Hp & Hc).
    exists note. split; [exact Hn|]. split; [exact Hp|].
    unfold graph_size. rewrite Hc. reflexivity.
  - split.
    + rewrite (proj2 (proj1 (proj2 (proj1 (proj2 (proj2 (proj2 C1_playRandomNote)))))
                            (1%N, 2%positive))).
      reflexivity.
    + exact (proj1 (proj1 (proj2 (proj1 (proj2 (proj2 (proj2 C1_playRandomNote)))))
                          (5404319552844595%N, 9007199254740992%positive))).
  - exact (proj2 (proj2 (proj2 (proj2 C1_playRandomNote))) None None None
                 (App.initial Scenario.deferring Scenario.g0) eq_refl).
Defined.



End EngineClaims.

(* ====================================================================== *)
(** * The trigger dispatcher *)
(* ====================================================================== *)

(** ** The fuel of the parser is enough

    Every parser hands back a rest that is no longer than its input, so the
    two loops, started with one unit of fuel more than the text has code
    units, never run dry, and [parse_value] gives the same result for
    every fuel above the length of the text. *)
Section JsonFuel.

Import JSON.
Local Open Scope nat_scope.

Lemma skip_ws_length s : List.length (skip_ws s) <= List.length s.
Proof.
  induction s as [|c s IH]; cbn [skip_ws]; trivial.
  destruct (is_ws c); cbn [List.length]; lia.
Qed.

Lemma expect_length p : forall s r,
  expect p s = Some r -> List.length r <= List.length s.
Proof.
  induction p as [|a p IH]; intros [|b s] r; cbn [expect]; try discriminate.
  - now intros [= <-].
  - now intros [= <-].
  - destruct (a =? b)%N; [|discriminate]. intros H%IH. cbn [List.length]. lia.
Qed.

Lemma lex_string_length n : forall s acc k r,
  List.length s <= n -> lex_string s acc = Some (k, r) ->
  List.length r < List.length s.
Proof.
  induction n as [|n IH]; intros [|c s] acc k r Hn; cbn [lex_string];
    try discriminate; cbn [List.length] in Hn; [lia|].
  destruct (c =? 34)%N; [intros [= <- <-]; cbn [List.length]; lia|].
  destruct (c =? 92)%N.
  - destruct s as [|e r1]; [discriminate|].
    destruct (e =? 117)%N.
    + destruct r1 as [|h1 [|h2 [|h3 [|h4 r2]]]]; try discriminate.
      destruct (hex4 h1 h2 h3 h4); [|discriminate].
      intros H%IH; cbn [List.length] in *; lia.
    + destruct (escape e); [|discriminate].
      intros H%IH; cbn [List.length] in *; lia.
  - destruct (c <? 32)%N; [discriminate|].
    intros H%IH; cbn [List.length] in *; lia.
Qed.

Lemma span_digits_length s :
  List.length (snd (span_digits s)) <= List.length s.
Proof.
  induction s as [|c s IH]; cbn [span_digits]; trivial.
  destruct (is_digit c); [|cbn; lia].
  destruct (span_digits s) as [d r']. cbn [snd List.length] in *. lia.
Qed.

Lemma lex_int_shrinking : shrinking lex_int.
Proof.
  intros [|c r] a r'; cbn [lex_int]; [discriminate|].
  destruct (c =? 48)%N; [intros [= <- <-]; cbn; lia|].
  destruct (is_digit c); [|discriminate].
  pose proof (span_digits_length r) as H. destruct (span_digits r) as [d r0].
  intros [= <- <-]. cbn [snd List.length] in *. lia.
Qed.

Lemma lex_frac_shrinking : shrinking lex_frac.
Proof.
  intros [|c r] a r'; cbn [lex_frac]; [now intros [= <- <-]|].
  destruct (c =? 46)%N; [|now intros [= <- <-]].
  pose proof (span_digits_length r) as H. destruct (span_digits r) as [[|d0 d] r0];
    [discriminate|].
  intros [= <- <-]. cbn [snd List.length] in *. lia.
Qed.

Lemma lex_exp_shrinking : shrinking lex_exp.
Proof.
  intros [|c r] a r'; cbn [lex_exp]; [now intros [= <- <-]|].
  destruct (_ || _); [|now intros [= <- <-]].
  assert (Hsg : forall sg r0,
             (sg, r0) = match r with
                        | c1 :: r1 => if (c1 =? 43)%N || (c1 =? 45)%N
                                      then ([c1], r1) else ([], r)
                        | [] => ([], r)
                        end -> List.length r0 <= List.length r).
  { intros sg r0. destruct r as [|c1 r1]; [now intros [= -> ->]|].
    destruct (_ || _); intros [= -> ->]; cbn [List.length]; lia. }
  destruct (match r with [] => _ | _ :: _ => _ end) as [sg r0] eqn:E.
  specialize (Hsg sg r0 eq_refl).
  pose proof (span_digits_length r0) as H. destruct (span_digits r0) as [[|d0 d] r1];
    [discriminate|].
  intros [= <- <-]. cbn [snd List.length] in *. lia.
Qed.

Lemma lex_number_shrinking : shrinking lex_number.
Proof.
  intros s a r. unfold lex_number.
  assert (Hs0 : forall sg s0,
             (sg, s0) = match s with
                        | c :: r => if (c =? 45)%N then ([c], r) else ([], s)
                        | [] => ([], s)
                        end -> List.length s0 <= List.length s).
  { intros sg s0. destruct s as [|c r0]; [now intros [= -> ->]|].
    destruct (c =? 45)%N; intros [= -> ->]; cbn [List.length]; lia. }
  destruct (match s with [] => _ | _ :: _ => _ end) as [sg s0] eqn:E.
  specialize (Hs0 sg s0 eq_refl).
  destruct (lex_int s0) as [[i s1]|] eqn:E1; [|discriminate].
  destruct (lex_frac s1) as [[f s2]|] eqn:E2; [|discriminate].
  destruct (lex_exp s2) as [[e s3]|] eqn:E3; [|discriminate].
  apply lex_int_shrinking in E1. apply lex_frac_shrinking in E2.
  apply lex_exp_shrinking in E3. intros [= <- <-]. lia.
Qed.

Section WithValueParser.

Variable pv : Constants.text -> option (value * Constants.text).
Hypothesis pv_shrinking : shrinking pv.

Lemma parse_elements_length n : forall s acc vs r,
  parse_elements pv n s acc = Some (vs, r) -> List.length r <= List.length s.
Proof.
  induction n as [|n IH]; intros s acc vs r; cbn [parse_elements]; [discriminate|].
  destruct (pv s) as [[v r0]|] eqn:E; [|discriminate].
  apply pv_shrinking in E. pose proof (skip_ws_length r0) as Hw.
  destruct (skip_ws r0) as [|c r1]; [discriminate|]. cbn [List.length] in Hw.
  destruct (c =? 44)%N; [intros H%IH; lia|].
  destruct (c =? 93)%N; [|discriminate]. intros [= <- <-]. lia.
Qed.

Lemma parse_members_length n : forall s acc ms r,
  parse_members pv n s acc = Some (ms, r) -> List.length r <= List.length s.
Proof.
  induction n as [|n IH]; intros s acc ms r; cbn [parse_members]; [discriminate|].
  pose proof (skip_ws_length s) as Hw0.
  destruct (skip_ws s) as [|q r0]; [discriminate|]. cbn [List.length] in Hw0.
  destruct (q =? 34)%N; [|discriminate].
  destruct (lex_string r0 []) as [[k r1]|] eqn:Ek; [|discriminate].
  apply (lex_string_length _ _ _ _ _ (le_n _)) in Ek.
  pose proof (skip_ws_length r1) as Hw1.
  destruct (skip_ws r1) as [|c r2]; [discriminate|]. cbn [List.length] in Hw1.
  destruct (c =? 58)%N; [|discriminate].
  destruct (pv r2) as [[v r3]|] eqn:E; [|discriminate].
  apply pv_shrinking in E. pose proof (skip_ws_length r3) as Hw3.
  destruct (skip_ws r3) as [|d r4]; [discriminate|]. cbn [List.length] in Hw3.
  destruct (d =? 44)%N; [intros H%IH; lia|].
  destruct (d =? 125)%N; [|discriminate]. intros [= <- <-]. lia.
Qed.

(** The loops never run out of their own fuel. *)
Lemma parse_elements_fuel n1 : forall n2 s acc,
  List.length s < n1 -> List.length s < n2 ->
  parse_elements pv n1 s acc = parse_elements pv n2 s acc.
Proof.
  induction n1 as [|n1 IH]; intros [|n2] s acc H1 H2; try lia.
  cbn [parse_elements].
  destruct (pv s) as [[v r0]|] eqn:E; trivial.
  apply pv_shrinking in E. pose proof (skip_ws_length r0) as Hw.
  destruct (skip_ws r0) as [|c r1]; trivial. cbn [List.length] in Hw.
  destruct (c =? 44)%N; trivial. apply IH; lia.
Qed.

Lemma parse_members_fuel n1 : forall n2 s acc,
  List.length s < n1 -> List.length s < n2 ->
  parse_members pv n1 s acc = parse_members pv n2 s acc.
Proof.
  induction n1 as [|n1 IH]; intros [|n2] s acc H1 H2; try lia.
  cbn [parse_members].
  pose proof (skip_ws_length s) as Hw0.
  destruct (skip_ws s) as [|q r0]; trivial. cbn [List.length] in Hw0.
  destruct (q =? 34)%N; trivial.
  destruct (lex_string r0 []) as [[k r1]|] eqn:Ek; trivial.
  apply (lex_string_length _ _ _ _ _ (le_n _)) in Ek.
  pose proof (skip_ws_length r1) as Hw1.
  destruct (skip_ws r1) as [|c r2]; trivial. cbn [List.length] in Hw1.
  destruct (c =? 58)%N; trivial.
  destruct (pv r2) as [[v r3]|] eqn:E; trivial.
  apply pv_shrinking in E. pose proof (skip_ws_length r3) as Hw3.
  destruct (skip_ws r3) as [|d r4]; trivial. cbn [List.length] in Hw3.
  destruct (d =? 44)%N; trivial. apply IH; lia.
Qed.

(** The loops agree for two value parsers that agree on every text no
    longer than the one at hand. *)
Variable pv' : Constants.text -> option (value * Constants.text).

Lemma parse_elements_ext m :
  (forall s, List.length s <= m -> pv s = pv' s) ->
  forall n s acc, List.length s <= m ->
  parse_elements pv n s acc = parse_elements pv' n s acc.
Proof.
  intros Hext. induction n as [|n IH]; intros s acc Hs; cbn [parse_elements]; trivial.
  rewrite <- (Hext s Hs).
  destruct (pv s) as [[v r0]|] eqn:E; trivial.
  apply pv_shrinking in E. pose proof (skip_ws_length r0) as Hw.
  destruct (skip_ws r0) as [|c r1]; trivial. cbn [List.length] in Hw.
  destruct (c =? 44)%N; trivial. apply IH; lia.
Qed.

Lemma parse_members_ext m :
  (forall s, List.length s <= m -> pv s = pv' s) ->
  forall n s acc, List.length s <= m ->
  parse_members pv n s acc = parse_members pv' n s acc.
Proof.
  intros Hext. induction n as [|n IH]; intros s acc Hs; cbn [parse_members]; trivial.
  pose proof (skip_ws_length s) as Hw0.
  destruct (skip_ws s) as [|q r0]; trivial. cbn [List.length] in Hw0.
  destruct (q =? 34)%N; trivial.
  destruct (lex_string r0 []) as [[k r1]|] eqn:Ek; trivial.
  apply (lex_string_length _ _ _ _ _ (le_n _)) in Ek.
  pose proof (skip_ws_length r1) as Hw1.
  destruct (skip_ws r1) as [|c r2]; trivial. cbn [List.length] in Hw1.
  destruct (c =? 58)%N; trivial.
  rewrite <- (Hext r2) by lia.
  destruct (pv r2) as [[v r3]|] eqn:E; trivial.
  apply pv_shrinking in E. pose proof (skip_ws_length r3) as Hw3.
  destruct (skip_ws r3) as [|d r4]; trivial. cbn [List.length] in Hw3.
  destruct (d =? 44)%N; trivial. apply IH; lia.
Qed.

End WithValueParser.

Lemma parse_value_shrinking fuel : shrinking (parse_value fuel).
Proof.
  induction fuel as [|f IH]; intros s v r; cbn [parse_value]; [discriminate|].
  pose proof (skip_ws_length s) as Hw.
  destruct (skip_ws s) as [|c r0]; [discriminate|]. cbn [List.length] in Hw.
  assert (Hlit : forall w p, option_map (pair w) (expect p r0) = Some (v, r) ->
                             List.length r <= List.length s).
  { intros w p. destruct (expect p r0) as [r'|] eqn:E; [|discriminate].
    apply expect_length in E. intros [= _ <-]. lia. }
  destruct (c =? 110)%N; [apply Hlit|].
  destruct (c =? 116)%N; [apply Hlit|].
  destruct (c =? 102)%N; [apply Hlit|].
  destruct (c =? 34)%N.
  { destruct (lex_string r0 []) as [[k r']|] eqn:E; [|discriminate].
    apply (lex_string_length _ _ _ _ _ (le_n _)) in E. intros [= _ <-]. lia. }
  destruct (c =? 91)%N.
  { pose proof (skip_ws_length r0) as Hw1.
    destruct (skip_ws r0) as [|c1 r1]; [discriminate|]. cbn [List.length] in Hw1.
    destruct (c1 =? 93)%N; [intros [= _ <-]; lia|].
    destruct (parse_elements _ _ _ _) as [[vs r']|] eqn:E; [|discriminate].
    apply (parse_elements_length _ IH) in E. intros [= _ <-]. lia. }
  destruct (c =? 123)%N.
  { pose proof (skip_ws_length r0) as Hw1.
    destruct (skip_ws r0) as [|c1 r1]; [discriminate|]. cbn [List.length] in Hw1.
    destruct (c1 =? 125)%N; [intros [= _ <-]; lia|].
    destruct (parse_members _ _ _ _) as [[ms r']|] eqn:E; [|discriminate].
    apply (parse_members_length _ IH) in E. intros [= _ <-]. lia. }
  destruct (lex_number (c :: r0)) as [[n r']|] eqn:E; [|discriminate].
  apply lex_number_shrinking in E. cbn [List.length] in E. intros [= _ <-]. lia.
Qed.

(** Above the length of the text, the fuel does not matter. *)
Lemma parse_value_stable n : forall f1 f2 s,
  List.length s < n -> n <= f1 -> n <= f2 -> parse_value f1 s = parse_value f2 s.
Proof.
  induction n as [|n IH]; intros [|f1] [|f2] s Hs H1 H2; try lia.
  cbn [parse_value].
  pose proof (skip_ws_length s) as Hw.
  destruct (skip_ws s) as [|c r0]; trivial. cbn [List.length] in Hw.
  assert (Hext : forall s', List.length s' <= List.length r0 ->
                            parse_value f1 s' = parse_value f2 s').
  { intros s' Hs'. apply IH; lia. }
  rewrite (parse_elements_ext _ (parse_value_shrinking f1) _ _ Hext) by lia.
  rewrite (parse_members_ext _ (parse_value_shrinking f1) _ _ Hext) by lia.
  reflexivity.
Qed.

Lemma parse_fuel_enough s fuel :
  List.length s < fuel -> parse_value fuel s = parse_value (S (List.length s)) s.
Proof. intros H. apply (parse_value_stable (S (List.length s))); lia. Qed.

End JsonFuel.

Section JsonFacts.

Import JSON.
Local Open Scope N_scope.

Lemma skip_ws_split s :
  exists w, s = w ++ skip_ws s /\ Forall (fun c => is_ws c = true) w.
Proof.
  induction s as [|c s (w & E & Hw)]; cbn [skip_ws].
  - exists []. split; [reflexivity|constructor].
  - destruct (is_ws c) eqn:Ec.
    + exists (c :: w). split; [cbn; congruence|now constructor].
    + exists []. split; [reflexivity|constructor].
Qed.

Lemma expect_split p : forall s r, expect p s = Some r -> s = p ++ r.
Proof.
  induction p as [|a p IH]; intros [|b s] r; cbn [expect]; try discriminate.
  - now intros [= <-].
  - now intros [= <-].
  - destruct (N.eqb_spec a b) as [->|]; [|discriminate].
    intros H. cbn. f_equal. now apply IH.
Qed.

(** A text that parses to [null] is the word between white space. *)
Lemma parse_null s :
  parse s = Some JNull ->
  exists w1 w2, s = w1 ++ Constants.str "null" ++ w2 /\
                Forall (fun c => is_ws c = true) w1 /\
                Forall (fun c => is_ws c = true) w2.
Proof.
  unfold parse. cbn [parse_value].
  destruct (skip_ws_split s) as (w1 & E1 & H1).
  destruct (skip_ws s) as [|c r]; [discriminate|].
  destruct (c =? 110) eqn:Ec.
  - apply N.eqb_eq in Ec. subst c.
    destruct (expect (Constants.str "ull") r) as [r'|] eqn:Ex; [|discriminate].
    cbn [option_map]. apply expect_split in Ex.
    destruct (skip_ws_split r') as (w2 & E2 & H2).
    destruct (skip_ws r'); [|discriminate]. intros _.
    exists w1, w2. rewrite app_nil_r in E2. subst r' r. auto.
  - unfold option_map.
    repeat match goal with
           | |- context [match ?x with _ => _ end] =>
               lazymatch x with
               | context [match _ with _ => _ end] => fail
               | _ => destruct x
               end
           end; discriminate.
Qed.

Lemma includes_first s c p : includes s (c :: p) = true -> In c s.
Proof.
  induction s as [|a s IH]; cbn [includes starts_with]; [discriminate|].
  intros [H|H]%orb_true_iff.
  - apply andb_true_iff in H as [->%N.eqb_eq _]. now left.
  - right. auto.
Qed.

Lemma parse_null_no_keyword s :
  parse s = Some JNull -> includes s App.keyword = false.
Proof.
  intros (w1 & w2 & -> & H1 & H2)%parse_null.
  destruct (includes _ App.keyword) eqn:E; trivial. exfalso.
  apply includes_first in E.
  assert (Hws : forall w, Forall (fun c => is_ws c = true) w -> ~ In 118 w).
  { intros w Hw Hin. rewrite Forall_forall in Hw. now specialize (Hw _ Hin). }
  apply in_app_or in E as [E|E]; [now apply (Hws w1)|].
  apply in_app_or in E as [E|E]; [|now apply (Hws w2)].
  cbn in E. repeat destruct E as [E|E]; try discriminate; trivial.
Qed.

End JsonFacts.

Section DispatcherFacts.

Import App.

Lemma triggerEffect_returns x y src s :
  exists s', triggerEffect x y src s = Returned s'.
Proof.
  unfold triggerEffect.
  destruct (RippleCanvas.addRipple x y _ _) as [cv g1].
  destruct (is_running _); [|eauto].
  match goal with
  | |- context [Audio.playRandomNote ?g ?a] =>
      destruct (playRandomNote_total g a) as [[a' g'] ->]
  end.
  eauto.
Qed.

Lemma triggerEffect_triggers x y src s :
  triggers (state_of (triggerEffect x y src s))
  = triggers s ++ [ {| tx := x; ty := y; source := src |} ].
Proof.
  unfold triggerEffect.
  destruct (RippleCanvas.addRipple x y _ _) as [cv g1].
  destruct (is_running _).
  - destruct (Audio.playRandomNote _ _) as [[a g']|]; destruct src; reflexivity.
  - destruct src; reflexivity.
Qed.

Lemma triggerEffect_gates x y src s :
  gates (state_of (triggerEffect x y src s)) = gates s.
Proof.
  unfold triggerEffect.
  destruct (RippleCanvas.addRipple x y _ _) as [cv g1].
  destruct (is_running _).
  - destruct (Audio.playRandomNote _ _) as [[a g']|]; destruct src; reflexivity.
  - destruct src; reflexivity.
Qed.

(** What one call of [triggerEffect] does. *)
Lemma triggerEffect_fires x y src s :
  exists s',
    triggerEffect x y src s = Returned s' /\
    Dispatch.fires {| tx := x; ty := y; source := src |} s s'.
Proof.
  unfold triggerEffect, Dispatch.fires, Dispatch.ripples_of.
  set (tr := {| tx := x; ty := y; source := src |}).
  assert (Hadd : exists cv g1,
             RippleCanvas.addRipple x y (rng s) (canvas s) = (cv, g1) /\
             RippleCanvas.ripplesRef cv
             = RippleCanvas.ripplesRef (canvas s)
               ++ match RippleCanvas.canvasRef (canvas s) with
                  | Some c => [Dispatch.spawned tr c (rng s)]
                  | None => []
                  end /\
             RippleCanvas.canvasRef cv = RippleCanvas.canvasRef (canvas s) /\
             RippleCanvas.ctx cv = RippleCanvas.ctx (canvas s)).
  { unfold RippleCanvas.addRipple, Dispatch.spawned.
    destruct (RippleCanvas.canvasRef (canvas s)) as [c|] eqn:Ec.
    - destruct x as [x|], y as [y|]; cbn; rewrite ?Ec; eauto 6.
    - do 2 eexists. rewrite app_nil_r, Ec. eauto. }
  destruct src as [so|];
    cbn [setDebugMsg record_trigger rng canvas audioService set_rng set_canvas];
    destruct Hadd as (cv & g1 & -> & Hr & Hc & Hx);
    (destruct (is_running (Audio.getContextState (audioService s))) eqn:Er; cbn [andb];
     [|eexists; split; [reflexivity|]; cbn; rewrite Hr, Hc, Hx; repeat split; trivial]).
  all: assert (Hcx : exists c, Audio.context (audioService s) = Some c)
    by (unfold Audio.getContextState in Er;
        destruct (Audio.context (audioService s)); [eauto|discriminate]).
  all: destruct Hcx as [c Ec].
  all: destruct (Audio.isEnabled (audioService s)) eqn:En.
  all: try (destruct (playRandomNote_plays g1 (audioService s) c Ec En)
             as (note & _ & Hin & ->);
            eexists; split; [reflexivity|];
            cbn; rewrite Hr, Hc, Hx; repeat split; trivial;
            exists c, note; repeat split; trivial; apply (playTone_spec _ _ _ Ec)).
  all: unfold Audio.playRandomNote; rewrite Ec, En; cbn [negb];
    eexists; (split; [reflexivity|]); cbn; rewrite Hr, Hc, Hx; repeat split; trivial.
Qed.

Lemma high_nibble b :
  (N.land (Byte.to_N b) 240 =? 144)%N = (N.shiftr (Byte.to_N b) 4 =? 9)%N.
Proof. destruct b; reflexivity. Qed.

Lemma nonzero_byte b :
  (0 <? Byte.to_N b)%N = negb (Byte.to_N b =? 0)%N.
Proof. destruct b; reflexivity. Qed.

Lemma midi_test data :
  ((and_F0 (nth_error data 0) =? 144)%N && positive_byte (nth_error data 2))
  = Spec.note_on data.
Proof.
  destruct data as [|status [|note [|velocity rest]]]; cbn [nth_error and_F0 positive_byte Spec.note_on].
  - reflexivity.
  - now rewrite andb_false_r.
  - now rewrite andb_false_r.
  - now rewrite high_nibble, nonzero_byte.
Qed.

End DispatcherFacts.

Section AdapterClaims.

Import App.

(** C9.  [onMIDIMessage] produces exactly one trigger when the high
    nibble of the status byte is 9 and the velocity byte is not zero, and
    otherwise returns with nothing changed; so [0x90, 60, 100] triggers
    once, [0x90, 60, 0] and [0x80, 60, 100] do not.  The one trigger is one
    call of [triggerEffect] without coordinates, with all that it does:
    one entity spawned at a random place when the canvas is mounted, one
    note of the scale played when the engine is Running. *)
Theorem C9_midi_note_on :
  (forall data s,
     onMIDIMessage data s
     = if Spec.note_on data
       then triggerEffect None None (Some (SrcMIDI (nth_error data 1))) s
       else Returned s) /\
  (forall data s,
     Spec.note_on data = true ->
     exists s',
       onMIDIMessage data s = Returned s' /\
       Dispatch.fires (Spec.midi_trigger data) s s') /\
  (forall data s, Spec.note_on data = false -> onMIDIMessage data s = Returned s) /\
  (forall data s,
     onmidimessage s = true -> step (MIDIMessage data) s = onMIDIMessage data s) /\
  (forall s,
     exists s',
       onMIDIMessage Scenario.note_on_60 s = Returned s' /\
       Dispatch.fires (Spec.midi_trigger Scenario.note_on_60) s s') /\
  (forall s, onMIDIMessage Scenario.note_on_velocity_0 s = Returned s) /\
  (forall s, onMIDIMessage Scenario.note_off_60 s = Returned s).
Proof.
  assert (H0 : forall data s,
             onMIDIMessage data s
             = if Spec.note_on data
               then triggerEffect None None (Some (SrcMIDI (nth_error data 1))) s
               else Returned s).
  { intros data s. unfold onMIDIMessage. now rewrite midi_test. }
  assert (H1 : forall data s,
             Spec.note_on data = true ->
             exists s',
               onMIDIMessage data s = Returned s' /\
               Dispatch.fires (Spec.midi_trigger data) s s').
  { intros data s H. rewrite H0, H. apply triggerEffect_fires. }
  assert (H2 : forall data s, Spec.note_on data = false -> onMIDIMessage data s = Returned s).
  { intros data s H. now rewrite H0, H. }
  split; [exact H0|]. split; [exact H1|]. split; [exact H2|]. split; [|split; [|split]].
  - intros data s H. cbn [step]. now rewrite H.
  - intros s. now apply H1.
  - intros s. now apply H2.
  - intros s. now apply H2.
Qed.

Lemma C9_midi_note_on_witness :
  Spec.note_on Scenario.note_on_60 = true /\
  Spec.note_on Scenario.note_off_60 = false /\
  (exists s',
     onMIDIMessage Scenario.note_on_60 Scenario.playing = Returned s' /\
     Dispatch.fires (Spec.midi_trigger Scenario.note_on_60) Scenario.playing s') /\
  onMIDIMessage Scenario.note_off_60 Scenario.playing = Returned Scenario.playing.
Proof.
  split; [reflexivity|]. split; [reflexivity|]. split.
  - exact (proj1 (proj2 C9_midi_note_on) Scenario.note_on_60 Scenario.playing eq_refl).
  - exact (proj1 (proj2 (proj2 C9_midi_note_on)) Scenario.note_off_60
                 Scenario.playing eq_refl).
Defined.

Lemma trigger_once x y src s :
  exists s', triggerEffect x y src s = Returned s' /\
             triggers s' = triggers s ++ [ {| tx := x; ty := y; source := src |} ].
Proof.
  destruct (triggerEffect_returns x y src s) as [s' E].
  exists s'. split; trivial.
  pose proof (triggerEffect_triggers x y src s) as H. now rewrite E in H.
Qed.

Lemma address_test v a :
  JSON.get_address v = JSON.Normal a ->
  JSON.strict_eq_text a (Constants.oscAddress Constants.SIGNAL_CONFIG)
  = Spec.addresses_target v.
Proof.
  destruct v; cbn [JSON.get_address]; try discriminate;
    intros [= <-]; reflexivity.
Qed.

Lemma onmessage_text raw s :
  exists s',
    onmessage (TextData raw) s = Returned s' /\
    (s' = s \/ triggers s' = triggers s ++ [Spec.osc_trigger]) /\
    triggers s' =
    triggers s ++
    match JSON.parse raw with
    | Some v => if Spec.addresses_target v then [Spec.osc_trigger] else []
    | None => if JSON.includes raw keyword then [Spec.osc_trigger] else []
    end.
Proof.
  unfold onmessage, onmessage_try. cbn [to_text].
  destruct (JSON.parse raw) as [v|] eqn:P.
  - destruct (JSON.get_address v) as [a|] eqn:G.
    + rewrite (address_test v a G).
      destruct (Spec.addresses_target v).
      * destruct (trigger_once None None (Some SrcOSC) s) as (s' & -> & Ht).
        exists s'. auto.
      * exists s. rewrite app_nil_r. auto.
    + destruct v; try discriminate G.
      rewrite (parse_null_no_keyword raw P).
      exists s. cbn. rewrite app_nil_r. auto.
  - destruct (JSON.includes raw keyword).
    + destruct (trigger_once None None (Some SrcOSC) s) as (s' & -> & Ht).
      exists s'. auto.
    + exists s. rewrite app_nil_r. auto.
Qed.

(** The bridge handler on a text message: one call of [triggerEffect]
    when the message addresses the target or, not being JSON, contains
    the keyword; nothing otherwise. *)
Lemma onmessage_cases raw s :
  onmessage (TextData raw) s
  = if match JSON.parse raw with
       | Some v => Spec.addresses_target v
       | None => JSON.includes raw keyword
       end
    then triggerEffect None None (Some SrcOSC) s
    else Returned s.
Proof.
  unfold onmessage, onmessage_try. cbn [to_text].
  destruct (JSON.parse raw) as [v|] eqn:P.
  - destruct (JSON.get_address v) as [a|] eqn:G.
    + rewrite (address_test v a G).
      destruct (Spec.addresses_target v); [|reflexivity].
      now destruct (triggerEffect_returns None None (Some SrcOSC) s) as [s' ->].
    + destruct v; try discriminate G.
      now rewrite (parse_null_no_keyword raw P).
  - reflexivity.
Qed.

(** C8.  For a text message of the bridge: when it parses as JSON and its
    [address] field is the string [/sensor/vibration], exactly one
    trigger; when it parses and the address differs or is missing, no
    trigger, whatever the text contains; when it does not parse, exactly
    one trigger if the raw text contains [vibration] and none otherwise.
    The handler always returns.  The one trigger is one call of
    [triggerEffect] without coordinates, with all that it does: one entity
    spawned at a random place when the canvas is mounted, one note of the
    scale played when the engine is Running; no trigger means that
    nothing at all changes.  The three messages of the examples trigger
    once, never, and once. *)
Theorem C8_bridge_message :
  Constants.oscAddress Constants.SIGNAL_CONFIG = Constants.str "/sensor/vibration" /\
  keyword = Constants.str "vibration" /\
  (forall raw s v,
     JSON.parse raw = Some v -> Spec.addresses_target v = true ->
     exists s',
       onmessage (TextData raw) s = Returned s' /\
       Dispatch.fires Spec.osc_trigger s s') /\
  (forall raw s v,
     JSON.parse raw = Some v -> Spec.addresses_target v = false ->
     onmessage (TextData raw) s = Returned s) /\
  (forall raw s,
     JSON.parse raw = None -> JSON.includes raw keyword = true ->
     exists s',
       onmessage (TextData raw) s = Returned s' /\
       Dispatch.fires Spec.osc_trigger s s') /\
  (forall raw s,
     JSON.parse raw = None -> JSON.includes raw keyword = false ->
     onmessage (TextData raw) s = Returned s) /\
  (forall d s, socket s = true -> step (SocketMessage d) s = onmessage d s) /\
  (forall s,
     (exists s',
        onmessage (TextData Scenario.msg_target) s = Returned s' /\
        Dispatch.fires Spec.osc_trigger s s') /\
     onmessage (TextData Scenario.msg_other) s = Returned s /\
     onmessage (TextData Scenario.msg_other_vibration) s = Returned s /\
     JSON.parse Scenario.msg_raw = None /\
     (exists s',
        onmessage (TextData Scenario.msg_raw) s = Returned s' /\
        Dispatch.fires Spec.osc_trigger s s')).
Proof.
  assert (Hquiet : forall raw s,
             match JSON.parse raw with
             | Some v => Spec.addresses_target v
             | None => JSON.includes raw keyword
             end = false ->
             onmessage (TextData raw) s = Returned s).
  { intros raw s H. now rewrite onmessage_cases, H. }
  assert (Hone : forall raw s,
             match JSON.parse raw with
             | Some v => Spec.addresses_target v
             | None => JSON.includes raw keyword
             end = true ->
             exists s',
               onmessage (TextData raw) s = Returned s' /\
               Dispatch.fires Spec.osc_trigger s s').
  { intros raw s H. rewrite onmessage_cases, H. apply triggerEffect_fires. }
  split; [reflexivity|]. split; [reflexivity|].
  split; [|split; [|split; [|split; [|split]]]].
  - intros raw s v P H. apply Hone. now rewrite P.
  - intros raw s v P H. apply Hquiet. now rewrite P.
  - intros raw s P H. apply Hone. now rewrite P.
  - intros raw s P H. apply Hquiet. now rewrite P.
  - intros d s H. cbn [step]. now rewrite H.
  - intros s. split; [|split; [|split; [|split]]].
    + apply Hone. reflexivity.
    + apply Hquiet. reflexivity.
    + apply Hquiet. reflexivity.
    + reflexivity.
    + apply Hone. reflexivity.
Qed.

Lemma C8_bridge_message_witness :
  JSON.parse Scenario.msg_target <> None /\
  JSON.parse Scenario.msg_null = Some JSON.JNull /\
  (exists s',
     onmessage (TextData Scenario.msg_raw) Scenario.playing = Returned s' /\
     Dispatch.fires Spec.osc_trigger Scenario.playing s') /\
  onmessage (TextData Scenario.msg_null) Scenario.playing = Returned Scenario.playing.
Proof.
  split; [discriminate|]. split; [reflexivity|]. split.
  - exact (proj1 (proj2 (proj2 (proj2 (proj2 C8_bridge_message)))) Scenario.msg_raw
                 Scenario.playing eq_refl eq_refl).
  - exact (proj1 (proj2 (proj2 (proj2 C8_bridge_message))) Scenario.msg_null
                 Scenario.playing JSON.JNull eq_refl eq_refl).
Defined.

End AdapterClaims.

Section LockClaims.

Import App.

Lemma onMIDIMessage_gates data s :
  gates (state_of (onMIDIMessage data s)) = gates s.
Proof.
  unfold onMIDIMessage. destruct (_ && _); [apply triggerEffect_gates|reflexivity].
Qed.

Lemma onmessage_gates d s : gates (state_of (onmessage d s)) = gates s.
Proof.
  assert (Htry : gates (state_of (onmessage_try d s)) = gates s).
  { unfold onmessage_try. destruct (JSON.parse _); [|reflexivity].
    destruct (JSON.get_address _); [|reflexivity].
    destruct (JSON.strict_eq_text _ _); [apply triggerEffect_gates|reflexivity]. }
  unfold onmessage. destruct (onmessage_try d s) as [s'|s']; cbn [state_of] in *; trivial.
  destruct d; trivial.
  destruct (JSON.includes _ _); trivial.
  now rewrite triggerEffect_gates.
Qed.

Lemma gates_commit b s :
  gates (commit b s) =
  if negb b && audioReady s
  then (true, requestMIDIAccess (platform s), onmidimessage s, webSocket (platform s))
  else gates s.
Proof.
  unfold commit. destruct (negb b && audioReady s) eqn:E; trivial.
  apply andb_true_iff in E as [_ E]. unfold gates. cbn. now rewrite E.
Qed.

Lemma audioReady_commit b s : audioReady (commit b s) = audioReady s.
Proof. unfold commit. now destruct (negb b && audioReady s). Qed.

Lemma state_of_commit b o : state_of (commit_outcome b o) = commit b (state_of o).
Proof. now destruct o. Qed.

Lemma gates_startExperience s :
  gates (state_of (startExperience s)) = gates s \/
  gates (state_of (startExperience s)) = (true, midiRequested s, onmidimessage s, socket s).
Proof.
  unfold startExperience. destruct (Audio.init _ _); [|now left].
  cbn [state_of]. destruct (_ || _); [right|left]; reflexivity.
Qed.

Lemma gates_on_audio_context f s : gates (on_audio_context f s) = gates s.
Proof. unfold on_audio_context. now destruct (Audio.context _). Qed.

Lemma state_of_bind o k :
  state_of (bind o k) = match o with
                        | Returned s => state_of (k s)
                        | Threw s => s
                        end.
Proof. now destruct o. Qed.

(** The gates after a user-gesture handler that starts the experience
    when locked and then triggers. *)
Lemma gates_gesture x y src s :
  let o := bind (if negb (audioReady s) then startExperience s else Returned s)
                (triggerEffect x y src) in
  gates (commit (audioReady s) (state_of o)) = gates s \/
  (audioReady s = false /\ audioReady (commit (audioReady s) (state_of o)) = true).
Proof.
  intros o. rewrite gates_commit. subst o. rewrite state_of_bind.
  destruct (audioReady s) eqn:Ea; cbn [negb andb].
  - left. apply triggerEffect_gates.
  - destruct (gates_startExperience s) as [Hs|Hs];
      destruct (startExperience s) as [s1|s1]; cbn [state_of] in Hs |- *.
    + pose proof (triggerEffect_gates x y src s1) as Ht.
      rewrite Hs in Ht.
      assert (Hr : audioReady (state_of (triggerEffect x y src s1)) = false).
      { rewrite <- Ea. exact (f_equal (fun g => fst (fst (fst g))) Ht). }
      rewrite Hr. now left.
    + assert (Hr : audioReady s1 = false).
      { rewrite <- Ea. exact (f_equal (fun g => fst (fst (fst g))) Hs). }
      rewrite Hr. now left.
    + pose proof (triggerEffect_gates x y src s1) as Ht.
      assert (Hr : audioReady (state_of (triggerEffect x y src s1)) = true).
      { rewrite Hs in Ht. exact (f_equal (fun g => fst (fst (fst g))) Ht). }
      right. split; trivial. now rewrite audioReady_commit, Hr.
    + assert (Hr : audioReady s1 = true)
        by exact (f_equal (fun g => fst (fst (fst g))) Hs).
      right. split; trivial. now rewrite audioReady_commit.
Qed.

(** What a step does to the gates: nothing, or it is a user gesture that
    unlocks, or it settles a pending MIDI request. *)
Lemma step_gates e s :
  gates (state_of (step e s)) = gates s \/
  (user_gesture e = true /\ audioReady s = false /\
   audioReady (state_of (step e s)) = true) \/
  (exists granted, e = MIDIAccess granted /\ midiRequested s = true /\
                   audioReady (state_of (step e s)) = audioReady s).
Proof.
  destruct e as [c|c| |x y| |code|granted|data| |d| |dt]; cbn [step user_gesture].
  - now left.
  - destruct (RippleCanvas.canvasRef _); now left.
  - destruct (RippleCanvas.frame _); now left.
  - rewrite state_of_commit. unfold handleCanvasClick.
    destruct (gates_gesture (Some x) (Some y) (Some SrcClick) s) as [H|[H1 H2]];
      [now left|right; left; auto].
  - destruct (audioReady s) eqn:Ea; [now left|].
    rewrite state_of_commit, gates_commit. cbn [negb andb].
    destruct (gates_startExperience s) as [Hs|Hs].
    + assert (Hr1 : audioReady (state_of (startExperience s)) = false).
      { rewrite <- Ea. exact (f_equal (fun g => fst (fst (fst g))) Hs). }
      rewrite Hr1. now left.
    + assert (Hr1 : audioReady (state_of (startExperience s)) = true)
        by exact (f_equal (fun g => fst (fst (fst g))) Hs).
      right. left. repeat split. now rewrite audioReady_commit.
  - rewrite state_of_commit. unfold handleKeyDown.
    destruct (_ || _) eqn:Ek; [|left; cbn [state_of]; unfold commit;
                                destruct (audioReady s); reflexivity].
    destruct (gates_gesture None None (Some SrcKeyboard) s) as [H|[H1 H2]];
      [now left|right; left; auto].
  - destruct (midiRequested s) eqn:Em; [|now left].
    right. right. exists granted. destruct granted; auto.
  - destruct (onmidimessage s); [left; apply onMIDIMessage_gates|now left].
  - destruct (socket s); now left.
  - destruct (socket s); [left; apply onmessage_gates|now left].
  - left. apply gates_on_audio_context.
  - left. apply gates_on_audio_context.
Qed.

Lemma gates_eq s s' :
  gates s' = gates s ->
  audioReady s' = audioReady s /\ midiRequested s' = midiRequested s /\
  onmidimessage s' = onmidimessage s /\ socket s' = socket s.
Proof. unfold gates. intros [= -> -> -> ->]. auto. Qed.

Lemma adapters_wait_step e s :
  Spec.adapters_wait s -> Spec.adapters_wait (state_of (step e s)).
Proof.
  intros Hw. unfold Spec.adapters_wait in *.
  destruct (step_gates e s) as [H|[(_ & _ & H)|(granted & _ & Hm & H)]].
  - apply gates_eq in H as (-> & -> & -> & ->). exact Hw.
  - rewrite H. discriminate.
  - rewrite H. intros Hl. destruct (Hw Hl) as (Hm' & _). congruence.
Qed.

Lemma adapters_wait_run es : forall s,
  Spec.adapters_wait s -> Spec.adapters_wait (run es s).
Proof.
  induction es as [|e es IH]; intros s Hw; cbn [run]; trivial.
  apply IH. now apply adapters_wait_step.
Qed.

Lemma adapters_wait_initial d g : Spec.adapters_wait (initial d g).
Proof. intros _. auto. Qed.

(** C4.  At every point of every history of the application at which the
    dispatcher is Locked ([audioReady] false): a MIDI message and a
    bridged-signal message are dropped with nothing changed (no trigger,
    no spawn, no note, no unlocking), since their handlers are only set
    up after the unlocking; and an event after which the dispatcher is
    Unlocked is a pointer click (on the canvas or on the start button) or
    a key-down of Space or Enter. *)
Theorem C4_locked_dispatcher d g es :
  let s := run es (initial d g) in
  audioReady s = false ->
  (forall data, step (MIDIMessage data) s = Returned s) /\
  (forall m, step (SocketMessage m) s = Returned s) /\
  (forall e, audioReady (state_of (step e s)) = true -> user_gesture e = true).
Proof.
  intros s Hl.
  destruct (adapters_wait_run es _ (adapters_wait_initial d g) Hl) as (Hq & Hm & Hs).
  fold s in Hq, Hm, Hs.
  split; [|split].
  - intros data. cbn [step]. now rewrite Hm.
  - intros m. cbn [step]. now rewrite Hs.
  - intros e He.
    destruct (step_gates e s) as [H|[(Hg & _)|(granted & _ & Hr & _)]]; trivial.
    + apply gates_eq in H as (H & _). congruence.
    + congruence.
Qed.

Lemma C4_locked_dispatcher_witness :
  audioReady (run Scenario.locked_history (initial Scenario.plain Scenario.g0)) = false /\
  step (MIDIMessage Scenario.note_on_60)
       (run Scenario.locked_history (initial Scenario.plain Scenario.g0))
    = Returned (run Scenario.locked_history (initial Scenario.plain Scenario.g0)).
Proof.
  split; [reflexivity|].
  exact (proj1 (C4_locked_dispatcher Scenario.plain Scenario.g0 Scenario.locked_history
                  eq_refl) Scenario.note_on_60).
Defined.

End LockClaims.

(* ====================================================================== *)
(** * Further properties of the ripple entity *)
(* ====================================================================== *)

Section EntityExtras.

Import Ripple.
Local Open Scope Q_scope.

Lemma progress_linear r :
  Ripple.maxAge r = Field.maxAge -> progress r == inject_Z (age r) * (1 # 100).
Proof. intros H. unfold progress. rewrite H. reflexivity. Qed.

Lemma opacity_cases r :
  Ripple.maxAge r = Field.maxAge ->
  ((age r <= Field.maxAge)%Z -> opacity r == 0.8 * (1 - inject_Z (age r) * (1 # 100))) /\
  ((Field.maxAge <= age r)%Z -> opacity r == 0).
Proof.
  intros H. pose proof (progress_linear r H) as Hp. unfold opacity.
  split; intros Ha; rewrite Zle_Qle in Ha; change (inject_Z Field.maxAge) with 100 in Ha.
  - destruct (Qlt_le_dec _ 0) as [Hlt|_]; [|now rewrite Hp].
    rewrite Hp in Hlt. lra.
  - destruct (Qlt_le_dec _ 0) as [_|Hge]; [reflexivity|].
    rewrite Hp in Hge |- *. lra.
Qed.

(** X1.  The stroke opacity of an entity is [0.8 * (1 - age / maxAge)]
    up to age [maxAge] and 0 from [maxAge] on; it is never negative, at
    most 0.8 from age 0 on, never increases with age, and is positive
    exactly while the age is below [maxAge]. *)
Theorem X1_opacity_fade :
  (forall r, 0 <= opacity r) /\
  (forall r, Ripple.maxAge r = Field.maxAge -> (age r <= Field.maxAge)%Z ->
             opacity r == 0.8 * (1 - inject_Z (age r) / 100)) /\
  (forall r, Ripple.maxAge r = Field.maxAge -> (Field.maxAge <= age r)%Z ->
             opacity r == 0) /\
  (forall r, Ripple.maxAge r = Field.maxAge -> (0 <= age r)%Z -> opacity r <= 0.8) /\
  (forall r, Ripple.maxAge r = Field.maxAge ->
             (0 < opacity r <-> (age r < Field.maxAge)%Z)) /\
  (forall r1 r2,
     Ripple.maxAge r1 = Field.maxAge -> Ripple.maxAge r2 = Field.maxAge ->
     (age r1 <= age r2)%Z -> opacity r2 <= opacity r1).
Proof.
  assert (Hnn : forall r, 0 <= opacity r).
  { intros r. unfold opacity. destruct (Qlt_le_dec _ 0); [apply Qle_refl|assumption]. }
  split; [exact Hnn|]. split; [|split; [|split; [|split]]].
  - intros r H Ha. rewrite (proj1 (opacity_cases r H) Ha).
    unfold Qdiv. change (/ 100) with (1 # 100). reflexivity.
  - intros r H Ha. exact (proj2 (opacity_cases r H) Ha).
  - intros r H Ha. destruct (Z.le_gt_cases (age r) Field.maxAge) as [Hle|Hgt].
    + rewrite (proj1 (opacity_cases r H) Hle). rewrite Zle_Qle in Ha.
      change (inject_Z 0) with 0 in Ha. lra.
    + rewrite (proj2 (opacity_cases r H)) by lia. discriminate.
  - intros r H. split.
    + intros Hpos. destruct (Z.lt_ge_cases (age r) Field.maxAge) as [|Hge]; trivial.
      rewrite (proj2 (opacity_cases r H) Hge) in Hpos. discriminate Hpos.
    + intros Hlt. rewrite (proj1 (opacity_cases r H)) by lia.
      rewrite Zlt_Qlt in Hlt. change (inject_Z Field.maxAge) with 100 in Hlt. lra.
  - intros r1 r2 H1 H2 Hle.
    destruct (Z.le_gt_cases (age r2) Field.maxAge) as [Hle2|Hgt2].
    + rewrite (proj1 (opacity_cases r1 H1)) by lia.
      rewrite (proj1 (opacity_cases r2 H2) Hle2).
      rewrite Zle_Qle in Hle. lra.
    + rewrite (proj2 (opacity_cases r2 H2)) by lia. apply Hnn.
Qed.

Lemma X1_opacity_fade_witness :
  Ripple.maxAge (Ripple.new 0 0) = Field.maxAge /\
  (Field.maxAge <= age Scenario.expired)%Z /\
  opacity Scenario.expired == 0.
Proof.
  split; [reflexivity|]. split; [discriminate|].
  exact (proj1 (proj2 (proj2 X1_opacity_fade)) Scenario.expired eq_refl
               ltac:(discriminate)).
Defined.

End EntityExtras.

Section DrawExtras.

Import Ripple.
Local Open Scope Q_scope.

(** X2.  [draw] strokes exactly three rings for an entity of age 0 or
    more, all centred on the entity: the outer one at the current radius,
    the others at 85 and 70 percent of it, so strictly nested and of
    positive radius; the line width is 2 and the glow is
    [10 + 10 * age / maxAge]. *)
Theorem X2_three_nested_rings r :
  Ripple.maxAge r = Field.maxAge -> (0 <= age r)%Z ->
  exists a0 a1 a2,
    arcs (draw r) = [a0; a1; a2] /\
    Forall (fun a => cx a = x r /\ cy a = y r) [a0; a1; a2] /\
    radius a0 == currentRadius r /\
    radius a1 == 0.85 * currentRadius r /\
    radius a2 == 0.7 * currentRadius r /\
    (0 < radius a2 /\ radius a2 < radius a1 /\ radius a1 < radius a0) /\
    lineWidth (draw r) == 2 /\
    shadowBlur (draw r) == 10 + inject_Z (age r) / 10.
Proof.
  intros H Ha. cbn [draw arcs lineWidth shadowBlur]. rewrite (rings_three r H Ha).
  cbn [map]. do 3 eexists. split; [reflexivity|].
  assert (Hr : 5 <= currentRadius r).
  { rewrite (currentRadius_linear r H). rewrite Zle_Qle in Ha.
    change (inject_Z 0) with 0 in Ha. lra. }
  assert (E0 : ringRadius r 0 == currentRadius r)
    by (unfold ringRadius, ringScale; cbn; ring).
  assert (E1 : ringRadius r 1 == 0.85 * currentRadius r)
    by (unfold ringRadius, ringScale; cbn; ring).
  assert (E2 : ringRadius r 2 == 0.7 * currentRadius r)
    by (unfold ringRadius, ringScale; cbn; ring).
  cbn [radius cx cy].
  split; [repeat constructor|].
  split; [exact E0|]. split; [exact E1|]. split; [exact E2|].
  split; [rewrite E0, E1, E2; repeat split; lra|].
  split; [reflexivity|].
  rewrite (progress_linear r H). unfold Qdiv. change (/ 10) with (1 # 10). ring.
Qed.

Lemma X2_three_nested_rings_witness :
  Ripple.maxAge (Ripple.new 0 0) = Field.maxAge /\
  (0 <= age (Ripple.new 0 0))%Z /\
  List.length (arcs (draw (Ripple.new 0 0))) = 3%nat.
Proof.
  split; [reflexivity|]. split; [discriminate|].
  destruct (X2_three_nested_rings (Ripple.new 0 0) eq_refl ltac:(discriminate))
    as (a0 & a1 & a2 & -> & _).
  reflexivity.
Defined.

Lemma updates_active_false n : forall r,
  active r = false -> active (Lifetime.updates n r) = false.
Proof.
  induction n as [|n IH]; intros r H; cbn [Lifetime.updates]; trivial.
  rewrite update_active, (IH r H). reflexivity.
Qed.

(** X3.  After [n] calls of [update()] a newly constructed entity has age
    [n], its position and its [maxAge] of 100 unchanged, and is active
    exactly when [n <= 100]; an entity that is inactive stays inactive
    under any number of further updates. *)
Theorem X3_entity_lifecycle :
  (forall n x0 y0,
     let r := Lifetime.updates n (Ripple.new x0 y0) in
     age r = Z.of_nat n /\ Ripple.maxAge r = 100%Z /\ x r = x0 /\ y r = y0 /\
     active r = (Z.of_nat n <=? 100)%Z) /\
  (forall n r, active r = false -> active (Lifetime.updates n r) = false).
Proof.
  split; [|exact updates_active_false].
  induction n as [|n IH]; intros x0 y0 r; subst r.
  - repeat split.
  - cbn [Lifetime.updates]. destruct (IH x0 y0) as (Ha & Hm & Hx & Hy & Hact).
    rewrite update_active, update_age, Ha, Hm, Hact.
    split; [lia|]. split; [exact Hm|]. split; [exact Hx|]. split; [exact Hy|].
    replace (Z.of_nat n + 1)%Z with (Z.of_nat (S n)) by lia.
    destruct (Z.leb_spec (Z.of_nat n) 100), (Z.leb_spec (Z.of_nat (S n)) 100);
      trivial; lia.
Qed.

Lemma X3_entity_lifecycle_witness :
  active Scenario.expired = false /\
  active (Lifetime.updates 3 Scenario.expired) = false.
Proof.
  split; [reflexivity|].
  exact (proj2 X3_entity_lifecycle 3%nat Scenario.expired eq_refl).
Defined.

End DrawExtras.

(* ====================================================================== *)
(** * Further properties of the ripple field *)
(* ====================================================================== *)

Section FieldExtras.

Import RippleCanvas.

Lemma sorted_snoc {A} (R : A -> A -> Prop) l a :
  StronglySorted R l -> Forall (fun b => R b a) l -> StronglySorted R (l ++ [a]).
Proof.
  induction 1 as [|b l Hs IH Hb]; intros Hall; cbn [app].
  - repeat constructor.
  - inversion Hall as [|? ? Hba Hl]; subst. constructor; [now apply IH|].
    apply Forall_app. split; trivial. now constructor.
Qed.

Lemma survivors_cons r arr :
  Field.survivors (r :: arr) =
  (if Ripple.active (Ripple.update r) then [Ripple.update r] else [])
  ++ Field.survivors arr.
Proof.
  unfold Field.survivors. cbn [map filter].
  now destruct (Ripple.active (Ripple.update r)).
Qed.

Lemma survivors_older r arr :
  Forall (Lifetime.older r) arr ->
  Forall (Lifetime.older (Ripple.update r)) (Field.survivors arr).
Proof.
  unfold Field.survivors. induction 1 as [|b arr Hb _ IH]; cbn [map filter]; [constructor|].
  destruct (Ripple.active (Ripple.update b)); trivial.
  constructor; trivial. unfold Lifetime.older in *. rewrite !update_age. lia.
Qed.

Lemma survivors_sorted arr :
  StronglySorted Lifetime.older arr -> StronglySorted Lifetime.older (Field.survivors arr).
Proof.
  induction 1 as [|r arr Hs IH Hr]; [constructor|].
  rewrite survivors_cons. destruct (Ripple.active (Ripple.update r)); cbn [app]; trivial.
  constructor; trivial. now apply survivors_older.
Qed.

Lemma exec_sorted ops : forall st st' c,
  canvasRef (fst st) = Some c -> Spec.field_ok (fst st) ->
  StronglySorted Lifetime.older (ripplesRef (fst st)) ->
  Field.exec ops st = Some st' ->
  StronglySorted Lifetime.older (ripplesRef (fst st')).
Proof.
  induction ops as [|[x y|] ops IH]; intros st st' c Hc Hok Hs; cbn [Field.exec Field.apply].
  - now intros [= <-].
  - apply (IH _ _ c).
    + now rewrite addRipple_canvasRef.
    + now apply field_ok_addRipple.
    + destruct (addRipple_mounted x y (snd st) (fst st) c Hc) as (tx & ty & ->).
      apply sorted_snoc; trivial.
      eapply Forall_impl; [|exact (proj1 Hok)].
      intros r (_ & Ha & _). unfold Lifetime.older. cbn. lia.
  - destruct (frame_mounted (fst st) c Hc) as (s1 & E & Hc1 & Hr). rewrite E.
    apply (IH _ _ c); cbn [fst]; trivial.
    + eapply field_ok_frame; eauto.
    + rewrite Hr. now apply survivors_sorted.
Qed.

Lemma survivors_all_young arr :
  Forall Spec.kept arr -> Forall (fun r => Ripple.age r < Field.maxAge) arr ->
  Field.survivors arr = map Ripple.update arr.
Proof.
  induction 1 as [|r arr Hr _ IH]; intros Hy; [reflexivity|].
  inversion Hy as [|? ? Hlt Hy']; subst.
  rewrite survivors_cons, (IH Hy'). destruct (kept_update r Hr) as (_ & -> & _).
  destruct (Z.leb_spec (Ripple.age r + 1) Field.maxAge); [reflexivity|lia].
Qed.

(** The entities that a frame removes are the first ones of the array. *)
Lemma survivors_fifo arr :
  Forall Spec.kept arr -> StronglySorted Lifetime.older arr ->
  exists k,
    Field.survivors arr = map Ripple.update (skipn k arr) /\
    Forall (fun r => Ripple.age r = Field.maxAge) (firstn k arr).
Proof.
  intros Hk Hs. induction Hs as [|r arr Hs IH Hr].
  - exists 0%nat. split; [reflexivity|constructor].
  - inversion Hk as [|? ? Hkr Hk']; subst.
    destruct (kept_update r Hkr) as (_ & Hact & _).
    destruct (Z.leb_spec (Ripple.age r + 1) Field.maxAge) as [Hle|Hgt].
    + exists 0%nat. split; [|constructor]. cbn [skipn].
      apply survivors_all_young; trivial. constructor; [lia|].
      eapply Forall_impl; [|exact Hr]. unfold Lifetime.older. intros b Hb. lia.
    + destruct (IH Hk') as (k & E & Hf). exists (S k). cbn [skipn firstn].
      rewrite survivors_cons, Hact, E. split; [reflexivity|].
      constructor; trivial. destruct Hkr as (_ & Ha & _). lia.
Qed.

(** X4.  In every history of a mounted field the array of entities is
    ordered from the oldest to the youngest (a spawn appends at age 0 and a
    frame ages all alike), so expiry is first in, first out: the entities
    that the next frame removes are a leading block of the array, each of
    age [maxAge], and the rest are kept in order. *)
Theorem X4_oldest_first c g ops st :
  Field.exec ops (Field.mounted c g) = Some st ->
  StronglySorted Lifetime.older (ripplesRef (fst st)) /\
  exists k,
    Field.survivors (ripplesRef (fst st))
      = map Ripple.update (skipn k (ripplesRef (fst st))) /\
    Forall (fun r => Ripple.age r = Field.maxAge) (firstn k (ripplesRef (fst st))).
Proof.
  intros E.
  assert (Hs : StronglySorted Lifetime.older (ripplesRef (fst st))).
  { apply (exec_sorted ops (Field.mounted c g) st c eq_refl (mounted_ok c g)); trivial.
    constructor. }
  split; trivial. apply survivors_fifo; trivial.
  exact (proj1 (exec_field_ok ops _ _ (mounted_ok c g) E)).
Qed.

Lemma X4_oldest_first_witness :
  Field.exec (Scenario.spawn_then 0) (Field.mounted Scenario.c0 Scenario.g0)
    = Some Scenario.one_ripple /\
  StronglySorted Lifetime.older (ripplesRef (fst Scenario.one_ripple)).
Proof.
  split; [reflexivity|].
  exact (proj1 (X4_oldest_first Scenario.c0 Scenario.g0 (Scenario.spawn_then 0)
                                Scenario.one_ripple eq_refl)).
Defined.

End FieldExtras.

Section DrawCount.

Import RippleCanvas.

Lemma draws_app a b : Lifetime.draws (a ++ b) = Lifetime.draws a ++ Lifetime.draws b.
Proof.
  induction a as [|[col w h|d] a IH]; cbn [app Lifetime.draws]; trivial.
  now rewrite IH.
Qed.

Lemma clears_app a b : Lifetime.clears (a ++ b) = (Lifetime.clears a + Lifetime.clears b)%nat.
Proof.
  induction a as [|[col w h|d] a IH]; cbn [app Lifetime.clears]; trivial.
  now rewrite IH.
Qed.

Lemma draws_drawn_for arr :
  Lifetime.draws (Field.drawn_for arr)
  = map (fun r => Ripple.draw (Ripple.update r)) (rev arr).
Proof.
  unfold Field.drawn_for. induction (rev arr) as [|r l IH]; cbn; trivial.
  now rewrite IH.
Qed.

Lemma clears_drawn_for arr : Lifetime.clears (Field.drawn_for arr) = 0%nat.
Proof.
  unfold Field.drawn_for. induction (rev arr) as [|r l IH]; cbn; trivial.
Qed.

Lemma total_remaining_app k a b :
  Lifetime.total_remaining k (a ++ b)
  = Lifetime.total_remaining k a + Lifetime.total_remaining k b.
Proof. induction a as [|r a IH]; cbn [app Lifetime.total_remaining]; lia. Qed.

Lemma total_remaining_zero arr :
  Forall Spec.kept arr -> Lifetime.total_remaining 0 arr = 0.
Proof.
  induction 1 as [|r arr (_ & Ha & _) _ IH]; cbn [Lifetime.total_remaining]; trivial.
  unfold Lifetime.remaining. lia.
Qed.

Lemma total_remaining_frame k arr :
  0 <= k -> Forall Spec.kept arr ->
  Lifetime.total_remaining (1 + k) arr
  = Z.of_nat (List.length arr) + Lifetime.total_remaining k (Field.survivors arr).
Proof.
  intros Hk. induction 1 as [|r arr Hr _ IH]; [reflexivity|].
  rewrite survivors_cons, total_remaining_app.
  cbn [Lifetime.total_remaining List.length]. rewrite IH.
  destruct (kept_update r Hr) as (_ & -> & _). destruct Hr as (_ & Ha & _).
  destruct (Z.leb_spec (Ripple.age r + 1) Field.maxAge);
    cbn [Lifetime.total_remaining]; unfold Lifetime.remaining;
    rewrite ?update_age; lia.
Qed.

(** The drawings and the background fills of a history, from any mounted
    field. *)
Lemma exec_draws ops : forall st st' c,
  canvasRef (fst st) = Some c -> Spec.field_ok (fst st) ->
  Field.exec ops st = Some st' ->
  Z.of_nat (List.length (Lifetime.draws (ctx (fst st')))) =
    Z.of_nat (List.length (Lifetime.draws (ctx (fst st))))
    + Lifetime.total_remaining (Field.frames_in ops) (ripplesRef (fst st))
    + Lifetime.spawn_draws ops /\
  Z.of_nat (Lifetime.clears (ctx (fst st'))) =
    Z.of_nat (Lifetime.clears (ctx (fst st))) + Field.frames_in ops.
Proof.
  induction ops as [|[x y|] ops IH]; intros st st' c Hc Hok; cbn [Field.exec Field.apply].
  - intros [= <-]. cbn [Field.frames_in Lifetime.spawn_draws].
    rewrite (total_remaining_zero _ (proj1 Hok)). lia.
  - intros H.
    destruct (IH _ _ c (eq_trans (addRipple_canvasRef x y _ _) Hc)
                 (field_ok_addRipple x y _ _ Hok) H) as [Hd Hcl].
    rewrite Hd, Hcl. clear Hd Hcl H.
    destruct (addRipple_mounted x y (snd st) (fst st) c Hc) as (tx & ty & Er).
    rewrite Er, total_remaining_app.
    assert (Ectx : ctx (fst (addRipple x y (snd st) (fst st))) = ctx (fst st)).
    { unfold addRipple. rewrite Hc.
      destruct (coalesce x _ _) as [ux g1], (coalesce y _ _) as [uy g2]. reflexivity. }
    rewrite Ectx. cbn [Field.frames_in Lifetime.spawn_draws Lifetime.total_remaining].
    unfold Lifetime.remaining. cbn [Ripple.age Ripple.new]. split; lia.
  - destruct (frame_mounted (fst st) c Hc) as (s1 & E & Hc1 & Hr). rewrite E.
    intros H.
    destruct (IH (s1, snd st) st' c Hc1 (field_ok_frame _ _ Hok E) H) as [Hd Hcl].
    rewrite Hd, Hcl. clear Hd Hcl H. cbn [fst].
    assert (Ectx : ctx s1 = (ctx (fst st)
                   ++ [FillRect (Constants.bgColor Constants.VISUAL_CONFIG) (width c) (height c)])
                   ++ Field.drawn_for (ripplesRef (fst st))).
    { unfold frame in E. rewrite Hc, render_spec in E. now injection E as <-. }
    rewrite Ectx, Hr, !draws_app, !clears_app, !length_app, draws_drawn_for,
      clears_drawn_for, length_map, length_rev.
    cbn [Lifetime.draws Lifetime.clears List.length Field.frames_in Lifetime.spawn_draws].
    rewrite (total_remaining_frame _ _ (frames_in_nonneg ops) (proj1 Hok)).
    split; lia.
Qed.

(** X5.  In every history of a mounted field each frame fills the
    background once, and the number of entities drawn in all is the sum,
    over the spawns, of the number of frames after the spawn, capped at
    [maxAge + 1] = 101: an entity is drawn on each of the 101 frames that
    follow its spawn and on no other. *)
Theorem X5_drawings_per_entity :
  (forall c g ops,
     exists st,
       Field.exec ops (Field.mounted c g) = Some st /\
       Z.of_nat (List.length (Lifetime.draws (ctx (fst st)))) = Lifetime.spawn_draws ops /\
       Z.of_nat (Lifetime.clears (ctx (fst st))) = Field.frames_in ops) /\
  (forall c g x y n,
     exists st,
       Field.exec (Field.Spawn x y :: repeat Field.Frame n) (Field.mounted c g) = Some st /\
       List.length (Lifetime.draws (ctx (fst st))) = Nat.min n 101).
Proof.
  assert (H1 : forall c g ops,
     exists st,
       Field.exec ops (Field.mounted c g) = Some st /\
       Z.of_nat (List.length (Lifetime.draws (ctx (fst st)))) = Lifetime.spawn_draws ops /\
       Z.of_nat (Lifetime.clears (ctx (fst st))) = Field.frames_in ops).
  { intros c g ops. destruct (exec_total ops (Field.mounted c g)) as [st E].
    exists st. split; trivial.
    destruct (exec_draws ops (Field.mounted c g) st c eq_refl (mounted_ok c g) E) as [Hd Hc].
    cbn in Hd, Hc. split; lia. }
  split; [exact H1|].
  intros c g x y n. destruct (H1 c g (Field.Spawn x y :: repeat Field.Frame n))
    as (st & E & Hd & _).
  exists st. split; trivial.
  cbn [Lifetime.spawn_draws] in Hd. rewrite frames_in_repeat in Hd.
  assert (Hz : Lifetime.spawn_draws (repeat Field.Frame n) = 0)
    by (clear; induction n; cbn; trivial).
  rewrite Hz in Hd. unfold Field.maxAge in Hd. cbn in Hd. lia.
Qed.

End DrawCount.

(* ====================================================================== *)
(** * Further properties of the audio engine *)
(* ====================================================================== *)

Section GraphExtras.

Import Audio.

Lemma grows_refl s : Graph.grows_by_a_voice s s.
Proof. exists [], []. rewrite !app_nil_r. auto. Qed.

Lemma grows_same s s' :
  Graph.nodes_of s' = Graph.nodes_of s ->
  Graph.connections_of s' = Graph.connections_of s ->
  Graph.grows_by_a_voice s s'.
Proof. intros Hn Hc. exists [], []. rewrite !app_nil_r. auto. Qed.

Lemma grows_playTone f s : Graph.grows_by_a_voice s (playTone f s).
Proof.
  destruct (context s) as [c|] eqn:E.
  - rewrite (playTone_spec f s c E). unfold Graph.grows_by_a_voice,
      Graph.nodes_of, Graph.connections_of. cbn [context with_context nodes connections].
    rewrite E. do 2 eexists. split; [reflexivity|]. split; [reflexivity|].
    right. eauto.
  - unfold playTone. rewrite E. apply grows_refl.
Qed.

Lemma grows_init p s s' : init p s = Some s' -> Graph.grows_by_a_voice s s'.
Proof.
  intros Hi.
  apply grows_same; unfold Graph.nodes_of, Graph.connections_of;
    destruct (context s) as [c|] eqn:E.
  - rewrite (init_initialized p s c E) in Hi. injection Hi as <-.
    destruct (state c); cbn; now rewrite ?E.
  - destruct p as [d|]; [|now rewrite (init_throws s E) in Hi].
    rewrite (init_uninitialized d s E) in Hi. now injection Hi as <-.
  - rewrite (init_initialized p s c E) in Hi. injection Hi as <-.
    destruct (state c); cbn; now rewrite ?E.
  - destruct p as [d|]; [|now rewrite (init_throws s E) in Hi].
    rewrite (init_uninitialized d s E) in Hi. now injection Hi as <-.
Qed.

Lemma grows_playRandomNote g s st :
  playRandomNote g s = Some st -> Graph.grows_by_a_voice s (fst st).
Proof.
  unfold playRandomNote.
  destruct (context s); [|intros [= <-]; apply grows_refl].
  destruct (isEnabled s); cbn [negb Rand.Math_random]; [|intros [= <-]; apply grows_refl].
  destruct (scale_at _); [|discriminate].
  intros [= <-]. apply grows_playTone.
Qed.

Lemma grows_on_context f s :
  (forall c, nodes (f c) = nodes c /\ connections (f c) = connections c) ->
  Graph.grows_by_a_voice s (Engine.on_context f s).
Proof.
  intros Hf. apply grows_same; unfold Graph.nodes_of, Graph.connections_of, Engine.on_context;
    destruct (context s) as [c|] eqn:E; cbn; rewrite ?E; trivial; apply Hf.
Qed.

Lemma unended_mark now n : Graph.unended (mark_ended now n) = Graph.unended n.
Proof.
  destruct n as [o|g]; [|reflexivity]. unfold mark_ended.
  now destruct (due now (Osc o)).
Qed.

Lemma disconnect_all_incl gs : forall cs e,
  In e (fold_left (fun cs g => disconnect g cs) gs cs) -> In e cs.
Proof.
  induction gs as [|g gs IH]; intros cs e H; cbn [fold_left] in H; trivial.
  apply IH in H. unfold disconnect in H. now apply filter_In in H.
Qed.

Lemma disconnect_all_gone gs : forall cs e,
  In e cs -> ~ In e (fold_left (fun cs g => disconnect g cs) gs cs) -> In (fst e) gs.
Proof.
  induction gs as [|g gs IH]; intros cs e Hin Hout; cbn [fold_left] in Hout;
    [contradiction|].
  destruct (Nat.eq_dec (fst e) g) as [E|E]; [now left|]. right.
  apply (IH (disconnect g cs)); trivial.
  unfold disconnect. apply filter_In. split; trivial.
  now apply negb_true_iff, Nat.eqb_neq.
Qed.

Lemma callbacks_due now ns g :
  In g (callbacks now ns) ->
  exists i o ts,
    nth_error ns i = Some (Osc o) /\ onended o = Some g /\ ended o = false /\
    stopTime o = Some ts /\ (ts <= now)%Q.
Proof.
  unfold callbacks. intros H. apply in_flat_map in H as (n & Hn & Hg).
  apply In_nth_error in Hn as [i Hi].
  destruct n as [o|gn]; [|contradiction].
  destruct (due now (Osc o)) eqn:Ed; [|contradiction].
  destruct (onended o) as [g'|] eqn:Eo; [|contradiction].
  destruct Hg as [->|[]]. cbn [due] in Ed.
  destruct (startTime o); [|discriminate].
  destruct (stopTime o) as [ts|] eqn:Es; [|discriminate].
  apply andb_true_iff in Ed as [Ee Et].
  apply negb_true_iff in Ee. apply Qle_bool_iff in Et.
  exists i, o, ts. auto.
Qed.

Lemma advance_releases dt s :
  Graph.releases_the_ended s (Engine.on_context (advance dt) s).
Proof.
  unfold Graph.releases_the_ended, Graph.nodes_of, Graph.connections_of, Graph.clock_of,
    Engine.on_context.
  destruct (context s) as [c|] eqn:E; cbn [context with_context];
    [|rewrite E; repeat split; trivial; intros e []].
  unfold advance. destruct (state c); try (repeat split; trivial; intros; contradiction).
  destruct (Qle_bool 0 dt); [|repeat split; trivial; intros; contradiction].
  cbn [dispatch_ended nodes connections currentTime].
  split; [|split].
  - rewrite map_map. apply map_ext. intros n. apply unended_mark.
  - intros e. apply disconnect_all_incl.
  - intros e Hin Hout.
    apply (callbacks_due (currentTime c + dt) (nodes c)).
    eapply disconnect_all_gone; eauto.
Qed.

(** X6.  No method of the engine and no confirmation of a resume ever
    removes or alters a node or a connection of the graph: each leaves
    the graph as it is or appends one voice (an oscillator, its gain node
    and their two connections) behind everything already there, so voices
    overlap without limit.  The passing of time keeps every node (it only
    marks the ended), adds no connection, and removes a connection only
    when it leaves the node named by the callback of an oscillator that
    had not ended and whose stop time has come. *)
Theorem X6_graph_changes :
  (forall o st,
     (forall dt, o <> Engine.Advance dt) ->
     Graph.grows_by_a_voice (fst st) (fst (Engine.apply o st))) /\
  (forall dt st,
     Graph.releases_the_ended (fst st) (fst (Engine.apply (Engine.Advance dt) st))).
Proof.
  split.
  - intros o st Hno. destruct o as [p| |f| | |dt]; cbn [Engine.apply fst].
    + unfold Engine.after_init.
      destruct (init p (fst st)) as [a|] eqn:E; [|apply grows_refl].
      eapply grows_init; eauto.
    + destruct (playRandomNote (snd st) (fst st)) as [st'|] eqn:E.
      * eapply grows_playRandomNote; eauto.
      * apply grows_refl.
    + apply grows_playTone.
    + apply grows_refl.
    + apply grows_on_context. intros c. apply confirm_resume_frame.
    + now destruct (Hno dt).
  - intros dt st. apply advance_releases.
Qed.

Lemma X6_graph_changes_witness :
  let st := Engine.exec [Engine.Init (Starts false)] (Engine.start Scenario.g0) in
  let st' := Engine.apply (Engine.PlayTone 440) st in
  Graph.nodes_of (fst st) = [] /\
  Graph.grows_by_a_voice (fst st) (fst st') /\
  Graph.connections_of (fst st') = [(0%nat, ToNode 1); (1%nat, Destination)] /\
  Graph.releases_the_ended (fst st') (fst (Engine.apply (Engine.Advance 2) st')) /\
  Graph.connections_of (fst (Engine.apply (Engine.Advance 2) st')) = [(0%nat, ToNode 1)].
Proof.
  intros st st'. split; [reflexivity|]. split; [|split; [reflexivity|split; [|reflexivity]]].
  - apply (proj1 X6_graph_changes (Engine.PlayTone 440) st). intros dt H. discriminate H.
  - exact (proj2 X6_graph_changes 2%Q st').
Defined.

Lemma nth_error_app_Some {A} (l l' : list A) i a :
  nth_error l i = Some a -> nth_error (l ++ l') i = Some a.
Proof.
  intros H. rewrite nth_error_app1; trivial.
  apply nth_error_Some. congruence.
Qed.

Lemma wired_app ns ns' e : Graph.wired ns e -> Graph.wired (ns ++ ns') e.
Proof.
  destruct e as [i [j|]]; cbn [Graph.wired].
  - intros (-> & [o Ho] & [g Hg]). split; [reflexivity|].
    split; eexists; apply nth_error_app_Some; eauto.
  - intros [g Hg]. eexists. apply nth_error_app_Some; eauto.
Qed.

Lemma voices_only_shape now ns cs :
  Spec.voices_only now ns cs ->
  Forall (Graph.wired ns) cs /\
  (2 * List.length (filter is_osc ns))%nat = List.length ns /\
  List.length cs
  = (List.length (filter is_osc ns) + List.length (filter Graph.is_sounding ns))%nat.
Proof.
  induction 1 as [|ns cs f t0 Hv (Hw & Ho & Hc)].
  - repeat split. constructor.
  - split; [|split].
    + apply Forall_app. split.
      * eapply Forall_impl; [|exact Hw]. intros e. apply wired_app.
      * constructor; cbn [Graph.wired].
        -- split; [reflexivity|]. split.
           ++ destruct (Spec.over now t0); eexists; apply nth_error_mid.
           ++ eexists. apply nth_error_mid1.
        -- destruct (Spec.over now t0); constructor; [|constructor].
           cbn [Graph.wired]. eexists. apply nth_error_mid1.
    + rewrite filter_app, !length_app.
      destruct (Spec.over now t0); cbn [filter is_osc Spec.voice_osc Spec.ended_voice_osc
                                       Spec.voice_gain List.length]; lia.
    + rewrite !filter_app, !length_app.
      destruct (Spec.over now t0);
        cbn [filter is_osc Graph.is_sounding Spec.voice_osc Spec.ended_voice_osc
             Spec.voice_gain List.length ended negb]; lia.
Qed.

(** X7.  In every history of the engine the graph is made of pairs: as
    many gain nodes as oscillators; every connection leads either an
    oscillator into the gain node created right after it or a gain node
    into the destination, so no oscillator is wired to the destination
    directly; and there are as many connections as there are voices plus
    voices that have not ended. *)
Theorem X7_graph_wiring g ops :
  let s := fst (Engine.exec ops (Engine.start g)) in
  Forall (Graph.wired (Graph.nodes_of s)) (Graph.connections_of s) /\
  (2 * List.length (voices s))%nat = List.length (Graph.nodes_of s) /\
  List.length (Graph.connections_of s)
  = (List.length (voices s) + List.length (Graph.sounding s))%nat.
Proof.
  intros s.
  pose proof (engine_ok_exec ops (Engine.start g) engine_ok_initial) as Hok.
  fold s in Hok. unfold Spec.engine_ok in Hok.
  unfold Graph.sounding, Graph.nodes_of, Graph.connections_of, voices.
  destruct (context s) as [c|].
  - destruct Hok as (_ & _ & _ & Hv). eapply voices_only_shape; eauto.
  - repeat split. constructor.
Qed.

Lemma every_index_drawn i :
  (0 <= i < 5)%Z -> randomIndex (Rand.value (Z.to_N (2 * i + 1), 10%positive)) = i.
Proof.
  intros H.
  assert (Hc : i = 0 \/ i = 1 \/ i = 2 \/ i = 3 \/ i = 4) by lia.
  destruct Hc as [->|[->|[->|[->| ->]]]]; vm_compute; reflexivity.
Qed.

(** X8.  [playRandomNote] never throws: the index
    [floor (Math.random() * 5)] is always within the table, for every draw
    and every engine; every one of the five notes can be drawn; and the
    frequency it plays is that of a table entry, all of which lie between
    293.66 and 523.25. *)
Theorem X8_random_note_in_table :
  (forall g s, exists s' g', playRandomNote g s = Some (s', g')) /\
  (forall nd, exists note,
     scale_at (randomIndex (Rand.value nd)) = Some note /\
     In note Constants.PENTATONIC_SCALE) /\
  (forall i, (0 <= i < 5)%Z -> exists nd, randomIndex (Rand.value nd) = i) /\
  Forall (fun note => (293.66 <= Constants.freq note /\ Constants.freq note <= 523.25)%Q)
         Constants.PENTATONIC_SCALE.
Proof.
  split; [|split; [|split]].
  - intros g s. destruct (playRandomNote_total g s) as [[s' g'] E]. eauto.
  - intros nd. apply scale_at_defined, randomIndex_range.
  - intros i Hi. eexists. now apply every_index_drawn.
  - repeat constructor; cbn; discriminate.
Qed.

Lemma X8_random_note_in_table_witness :
  (0 <= 3 < 5)%Z /\ exists nd, randomIndex (Rand.value nd) = 3%Z.
Proof.
  split; [lia|].
  exact (proj1 (proj2 (proj2 X8_random_note_in_table)) 3%Z ltac:(lia)).
Defined.

End GraphExtras.

(* ====================================================================== *)
(** * Further properties of the dispatcher *)
(* ====================================================================== *)

Section HandlerExtras.

Import App.

Lemma onmessage_returns d s : exists s', onmessage d s = Returned s'.
Proof.
  unfold onmessage.
  assert (Htry : exists o, onmessage_try d s = o /\
                           (forall s', o = Threw s' -> s' = s)).
  { unfold onmessage_try. destruct (JSON.parse _); [|eexists; split; [reflexivity|]].
    - destruct (JSON.get_address _); [|eexists; split; [reflexivity|]].
      + destruct (JSON.strict_eq_text _ _).
        * destruct (triggerEffect_returns None None (Some SrcOSC) s) as [s' ->].
          eexists. split; [reflexivity|discriminate].
        * eexists. split; [reflexivity|discriminate].
      + now intros s' [= <-].
    - now intros s' [= <-]. }
  destruct Htry as (o & -> & Ho). destruct o as [s'|s']; [eauto|].
  destruct d; [|eauto..].
  destruct (JSON.includes _ _); [|eauto].
  apply triggerEffect_returns.
Qed.

Lemma onMIDIMessage_returns data s : exists s', onMIDIMessage data s = Returned s'.
Proof.
  unfold onMIDIMessage. destruct (_ && _); [apply triggerEffect_returns|eauto].
Qed.

Lemma commit_outcome_returns b o :
  (exists s', o = Returned s') -> exists s', commit_outcome b o = Returned s'.
Proof. intros [s' ->]. cbn. eauto. Qed.

(** [startExperience] throws exactly when the engine has no context and
    the platform's constructor throws; the state is then as it was. *)
Lemma startExperience_cases s :
  (startExperience s = Threw s /\
   Audio.context (audioService s) = None /\
   audioContext (platform s) = Audio.Throws) \/
  (exists s', startExperience s = Returned s' /\
              (Audio.context (audioService s) <> None \/
               audioContext (platform s) <> Audio.Throws)).
Proof.
  unfold startExperience.
  destruct (Audio.init _ _) as [a|] eqn:E.
  - right. eexists. split; [reflexivity|].
    destruct (Audio.context (audioService s)) eqn:Ec; [left; discriminate|right].
    intros Hp. rewrite Hp in E. now rewrite (init_throws _ Ec) in E.
  - left. apply init_None in E. tauto.
Qed.

(** The handler of a gesture: it returns, or the engine has no context,
    the constructor throws, and the exception leaves the handler with
    nothing changed. *)
Lemma gesture_outcome k s :
  (forall s0, exists s', k s0 = Returned s') ->
  let o := commit_outcome (audioReady s)
             (bind (if negb (audioReady s) then startExperience s else Returned s) k) in
  (exists s', o = Returned s') \/
  (o = Threw s /\ audioReady s = false /\
   Audio.context (audioService s) = None /\
   audioContext (platform s) = Audio.Throws).
Proof.
  intros Hk o. subst o. destruct (audioReady s) eqn:Ea; cbn [negb bind].
  - left. apply commit_outcome_returns, Hk.
  - destruct (startExperience_cases s) as [(-> & Hc & Hp)|(s1 & -> & _)]; cbn [bind].
    + right. cbn [commit_outcome]. unfold commit. rewrite Ea. cbn [negb andb]. auto.
    + left. apply commit_outcome_returns, Hk.
Qed.

Lemma step_outcome e s :
  (exists s', step e s = Returned s') \/
  (step e s = Threw s /\ user_gesture e = true /\ audioReady s = false /\
   Audio.context (audioService s) = None /\
   audioContext (platform s) = Audio.Throws).
Proof.
  destruct e as [c|c| |x y| |code|granted|data| |d| |dt]; cbn [step user_gesture].
  - eauto.
  - destruct (RippleCanvas.canvasRef _); eauto.
  - destruct (frame_total (canvas s)) as [cv ->]. eauto.
  - destruct (gesture_outcome (triggerEffect (Some x) (Some y) (Some SrcClick)) s)
      as [H|H]; [intros; apply triggerEffect_returns|now left|right; tauto].
  - destruct (audioReady s) eqn:Ea; [eauto|].
    destruct (startExperience_cases s) as [(-> & Hc & Hp)|(s1 & -> & _)].
    + right. cbn [commit_outcome]. unfold commit. rewrite Ea. cbn [negb andb]. auto.
    + left. cbn. eauto.
  - unfold handleKeyDown. destruct (_ || _) eqn:Ek.
    + destruct (gesture_outcome (triggerEffect None None (Some SrcKeyboard)) s)
        as [H|H]; [intros; apply triggerEffect_returns|now left|right; tauto].
    + left. cbn. eauto.
  - destruct (midiRequested s); [destruct granted|]; eauto.
  - destruct (onmidimessage s); [left; apply onMIDIMessage_returns|eauto].
  - destruct (socket s); eauto.
  - destruct (socket s); [left; apply onmessage_returns|eauto].
  - eauto.
  - eauto.
Qed.

Lemma step_returns e s :
  audioReady s = true \/ audioContext (platform s) <> Audio.Throws \/
  Audio.context (audioService s) <> None \/ user_gesture e = false ->
  exists s', step e s = Returned s'.
Proof.
  intros H. destruct (step_outcome e s) as [Hr|(_ & Hg & Ha & Hc & Hp)]; trivial.
  exfalso. destruct H as [H|[H|[H|H]]]; congruence.
Qed.

(** Whatever relation between the states before and after holds across a
    call of [triggerEffect] holds across the MIDI and the socket handler. *)
Lemma handlers_through_trigger (R : t -> t -> Prop) :
  (forall s, R s s) ->
  (forall src s, src <> Some SrcClick -> R s (state_of (triggerEffect None None src s))) ->
  (forall data s, R s (state_of (onMIDIMessage data s))) /\
  (forall d s, R s (state_of (onmessage d s))).
Proof.
  intros Hrefl Htrig0.
  assert (Htrig : forall src s, src <> Some SrcClick ->
                                R s (state_of (triggerEffect None None src s)))
    by exact Htrig0.
  clear Htrig0.
  assert (Hmidi : forall n, Some (SrcMIDI n) <> Some SrcClick) by discriminate.
  assert (Hosc : Some SrcOSC <> Some SrcClick) by discriminate.
  split.
  - intros data s. unfold onMIDIMessage. destruct (_ && _); [now apply Htrig|apply Hrefl].
  - intros d s. unfold onmessage.
    assert (Htry : R s (state_of (onmessage_try d s)) /\
                   (forall s', onmessage_try d s = Threw s' -> s' = s)).
    { unfold onmessage_try. destruct (JSON.parse _); [|split; [apply Hrefl|now intros ? [= <-]]].
      destruct (JSON.get_address _); [|split; [apply Hrefl|now intros ? [= <-]]].
      destruct (JSON.strict_eq_text _ _); [|split; [apply Hrefl|discriminate]].
      split; [now apply Htrig|].
      destruct (triggerEffect_returns None None (Some SrcOSC) s) as [s1 ->]. discriminate. }
    destruct Htry as [Hp Ht]. destruct (onmessage_try d s) as [s'|s']; [exact Hp|].
    rewrite (Ht s' eq_refl).
    destruct d; [|apply Hrefl..].
    destruct (JSON.includes _ _); [now apply Htrig|apply Hrefl].
Qed.

End HandlerExtras.

Section DispatchFrames.

Import App.

(** The parts of the state that [triggerEffect] leaves alone, and what it
    does to the others. *)
Lemma triggerEffect_canvas x y src s :
  canvas (state_of (triggerEffect x y src s))
  = fst (RippleCanvas.addRipple x y (rng s) (canvas s)).
Proof.
  unfold triggerEffect.
  replace (rng (match src with Some so => _ | None => _ end)) with (rng s)
    by (destruct src; reflexivity).
  replace (canvas (match src with Some so => _ | None => _ end)) with (canvas s)
    by (destruct src; reflexivity).
  destruct (RippleCanvas.addRipple x y _ _) as [cv g1].
  destruct (is_running _); [destruct (Audio.playRandomNote _ _) as [[a g']|]|]; reflexivity.
Qed.

Lemma triggerEffect_defers x y src s :
  platform (state_of (triggerEffect x y src s)) = platform s.
Proof.
  unfold triggerEffect.
  destruct (RippleCanvas.addRipple x y _ _) as [cv g1].
  destruct (is_running _); [destruct (Audio.playRandomNote _ _) as [[a g']|]|];
    destruct src; reflexivity.
Qed.

Lemma triggerEffect_audio_cases x y src s :
  (is_running (Audio.getContextState (audioService s)) = false /\
   audioService (state_of (triggerEffect x y src s)) = audioService s) \/
  (is_running (Audio.getContextState (audioService s)) = true /\
   exists g a' g',
     Audio.playRandomNote g (audioService s) = Some (a', g') /\
     audioService (state_of (triggerEffect x y src s)) = a').
Proof.
  destruct (is_running (Audio.getContextState (audioService s))) eqn:E.
  - right. split; trivial. unfold triggerEffect.
    destruct (RippleCanvas.addRipple x y _ _) as [cv g1].
    replace (Audio.getContextState _) with (Audio.getContextState (audioService s))
      by (destruct src; reflexivity).
    rewrite E.
    replace (audioService (set_rng g1 _)) with (audioService s)
      by (destruct src; reflexivity).
    destruct (playRandomNote_total (rng (set_rng g1 (set_canvas cv
               match src with
               | Some so => setDebugMsg (TriggerMsg so)
                              (record_trigger {| tx := x; ty := y; source := src |} s)
               | None => record_trigger {| tx := x; ty := y; source := src |} s
               end))) (audioService s)) as [[a g'] Ep].
    rewrite Ep. cbn. eauto.
  - left. split; trivial. now apply triggerEffect_audio.
Qed.

Lemma triggerEffect_audio_path x y src s :
  Dispatch.audio_path (audioService s) (audioService (state_of (triggerEffect x y src s))).
Proof.
  destruct (triggerEffect_audio_cases x y src s) as [[_ ->]|[_ (g & a & g' & Hp & ->)]].
  - constructor.
  - econstructor; [eapply Dispatch.move_play; eauto|constructor].
Qed.

Lemma commit_frame b s :
  audioService (commit b s) = audioService s /\
  platform (commit b s) = platform s /\
  canvas (commit b s) = canvas s /\
  triggers (commit b s) = triggers s /\
  rng (commit b s) = rng s.
Proof. unfold commit. destruct (negb b && audioReady s); repeat split. Qed.

Lemma startExperience_frame s :
  audioService (state_of (startExperience s))
  = Engine.after_init (audioContext (platform s)) (audioService s) /\
  platform (state_of (startExperience s)) = platform s /\
  canvas (state_of (startExperience s)) = canvas s /\
  triggers (state_of (startExperience s)) = triggers s /\
  rng (state_of (startExperience s)) = rng s.
Proof.
  unfold startExperience, Engine.after_init.
  destruct (Audio.init _ _); cbn [state_of]; [|repeat split].
  destruct (_ || _); repeat split.
Qed.

Lemma init_context p a a' :
  Audio.init p a = Some a' -> exists c, Audio.context a' = Some c.
Proof.
  destruct (Audio.context a) as [c|] eqn:E.
  - rewrite (init_initialized p a c E). intros [= <-].
    destruct (Audio.state c); cbn; rewrite ?E; eauto.
  - destruct p as [d|]; [|now rewrite (init_throws a E)].
    rewrite (init_uninitialized d a E). intros [= <-]. cbn. eauto.
Qed.

(** When [startExperience] returns on an engine in good order, the
    dispatcher is unlocked. *)
Lemma startExperience_unlocks s s' :
  Spec.engine_ok (audioService s) -> startExperience s = Returned s' ->
  audioReady s' = true.
Proof.
  intros Hok. unfold startExperience.
  destruct (Audio.init _ _) as [a|] eqn:E; [|discriminate].
  intros [= <-].
  pose proof (engine_ok_init _ _ _ Hok E) as Hok'.
  destruct (init_context _ _ _ E) as [c Ec].
  unfold Spec.engine_ok in Hok'. rewrite Ec in Hok'. destruct Hok' as (_ & _ & Hs & _).
  cbn [audioService set_audio].
  unfold Audio.getContextState. rewrite Ec.
  destruct (Audio.state c); cbn; trivial. congruence.
Qed.

Lemma on_audio_context_eq f s :
  audioService (on_audio_context f s) = Engine.on_context f (audioService s) /\
  platform (on_audio_context f s) = platform s /\
  canvas (on_audio_context f s) = canvas s /\
  triggers (on_audio_context f s) = triggers s /\
  audioReady (on_audio_context f s) = audioReady s.
Proof.
  unfold on_audio_context, Engine.on_context.
  destruct (Audio.context (audioService s)); repeat split.
Qed.

Lemma path_one a b : Dispatch.audio_move a b -> Dispatch.audio_path a b.
Proof. intros H. econstructor; [exact H|constructor]. Qed.

Lemma path_trans a b c :
  Dispatch.audio_path a b -> Dispatch.audio_path b c -> Dispatch.audio_path a c.
Proof. induction 1; trivial. intros H2. econstructor; eauto. Qed.

(** The state in which a gesture handler goes on after its
    [if (!audioReady) startExperience();], when that has not thrown. *)
Lemma gesture_cases k s :
  let o := bind (if negb (audioReady s) then startExperience s else Returned s) k in
  (audioReady s = true /\ o = k s) \/
  (audioReady s = false /\ exists s1, startExperience s = Returned s1 /\ o = k s1) \/
  (audioReady s = false /\ startExperience s = Threw s /\ o = Threw s).
Proof.
  intros o. subst o. destruct (audioReady s); cbn [negb bind]; [now left|right].
  destruct (startExperience_cases s) as [(E & _)|(s1 & E & _)]; rewrite E; cbn [bind].
  - right. auto.
  - left. eauto.
Qed.

Lemma startExperience_audio_path s :
  Dispatch.audio_path (audioService s) (audioService (state_of (startExperience s))).
Proof. rewrite (proj1 (startExperience_frame s)). apply path_one. constructor. Qed.

Lemma gesture_audio_path x y src s :
  Dispatch.audio_path (audioService s)
    (audioService (state_of (bind (if negb (audioReady s) then startExperience s
                                   else Returned s)
                                  (triggerEffect x y src)))).
Proof.
  destruct (gesture_cases (triggerEffect x y src) s)
    as [(_ & ->)|[(_ & s1 & E & ->)|(_ & E & ->)]].
  - apply triggerEffect_audio_path.
  - eapply path_trans; [|apply triggerEffect_audio_path].
    pose proof (startExperience_audio_path s) as H. now rewrite E in H.
  - constructor.
Qed.

(** Every step moves the engine along moves of the four kinds only. *)
Lemma step_audio_path e s :
  Dispatch.audio_path (audioService s) (audioService (state_of (step e s))).
Proof.
  destruct e as [c|c| |x y| |code|granted|data| |d| |dt]; cbn [step].
  - constructor.
  - destruct (RippleCanvas.canvasRef _); constructor.
  - destruct (RippleCanvas.frame _); constructor.
  - rewrite state_of_commit, (proj1 (commit_frame _ _)). apply gesture_audio_path.
  - destruct (audioReady s); cbn [state_of]; [constructor|].
    rewrite state_of_commit, (proj1 (commit_frame _ _)).
    apply startExperience_audio_path.
  - rewrite state_of_commit, (proj1 (commit_frame _ _)). unfold handleKeyDown.
    destruct (_ || _); [apply gesture_audio_path|constructor].
  - destruct (midiRequested s); [destruct granted|]; constructor.
  - destruct (onmidimessage s); [|constructor]. unfold onMIDIMessage.
    destruct (_ && _); [apply triggerEffect_audio_path|constructor].
  - destruct (socket s); constructor.
  - destruct (socket s); [|constructor].
    unfold onmessage.
    assert (Htry : Dispatch.audio_path (audioService s)
                     (audioService (state_of (onmessage_try d s))) /\
                   (forall s', onmessage_try d s = Threw s' -> s' = s)).
    { unfold onmessage_try. destruct (JSON.parse _); [|split; [constructor|now intros ? [= <-]]].
      destruct (JSON.get_address _); [|split; [constructor|now intros ? [= <-]]].
      destruct (JSON.strict_eq_text _ _); [|split; [constructor|discriminate]].
      split; [apply triggerEffect_audio_path|].
      destruct (triggerEffect_returns None None (Some SrcOSC) s) as [s1 ->]. discriminate. }
    destruct Htry as [Hp Ht]. destruct (onmessage_try d s) as [s'|s']; [exact Hp|].
    rewrite (Ht s' eq_refl).
    destruct d; [|constructor..].
    destruct (JSON.includes _ _); [apply triggerEffect_audio_path|constructor].
  - cbn [state_of]. rewrite (proj1 (on_audio_context_eq _ s)). apply path_one. constructor.
  - cbn [state_of]. rewrite (proj1 (on_audio_context_eq _ s)). apply path_one. constructor.
Qed.

Lemma engine_ok_move a b : Dispatch.audio_move a b -> Spec.engine_ok a -> Spec.engine_ok b.
Proof.
  intros [p a0|g a0 a' g' Hp|a0|dt a0] Hok.
  - now apply engine_ok_after_init.
  - exact (engine_ok_playRandomNote g a0 (a', g') Hok Hp).
  - apply engine_ok_on_context; trivial; intros c;
      [apply confirm_resume_frame|apply confirm_resume_voices].
  - apply engine_ok_on_context; trivial; intros c.
    + now rewrite advance_state.
    + apply advance_voices.
Qed.

Lemma engine_ok_path a b : Dispatch.audio_path a b -> Spec.engine_ok a -> Spec.engine_ok b.
Proof.
  induction 1 as [|a b c Hm _ IH]; trivial.
  intros Hok. apply IH. exact (engine_ok_move a b Hm Hok).
Qed.

Lemma engine_ok_run es : forall s,
  Spec.engine_ok (audioService s) -> Spec.engine_ok (audioService (run es s)).
Proof.
  induction es as [|e es IH]; intros s Hok; cbn [run]; trivial.
  apply IH. eapply engine_ok_path; [apply step_audio_path|exact Hok].
Qed.

End DispatchFrames.

Section LockExtras.

Import App.

(** A relation that holds across [startExperience] and across the
    handler's call of [triggerEffect] holds across the handler. *)
Lemma gesture_rel (R : t -> t -> Prop) k s :
  (forall s0, R s0 s0) -> (forall a b c, R a b -> R b c -> R a c) ->
  R s (state_of (startExperience s)) -> (forall s0, R s0 (state_of (k s0))) ->
  R s (state_of (bind (if negb (audioReady s) then startExperience s else Returned s) k)).
Proof.
  intros Hrefl Htrans Hstart Hk.
  destruct (gesture_cases k s) as [(_ & ->)|[(_ & s1 & E & ->)|(_ & E & ->)]].
  - apply Hk.
  - rewrite E in Hstart. cbn [state_of] in Hstart. eapply Htrans; [exact Hstart|apply Hk].
  - apply Hrefl.
Qed.

Lemma step_platform e s : platform (state_of (step e s)) = platform s.
Proof.
  destruct (handlers_through_trigger
              (fun s s' => platform s' = platform s)
              (fun _ => eq_refl) (fun src s _ => triggerEffect_defers None None src s))
    as [Hmidi Hsock].
  assert (Hgest : forall x y src,
             platform (state_of (bind (if negb (audioReady s) then startExperience s
                                       else Returned s) (triggerEffect x y src)))
             = platform s).
  { intros x y src.
    apply (gesture_rel (fun s s' => platform s' = platform s)); trivial.
    - intros a b c H1 H2. congruence.
    - apply startExperience_frame.
    - intros s0. apply triggerEffect_defers. }
  destruct e as [c|c| |x y| |code|granted|data| |d| |dt]; cbn [step].
  - reflexivity.
  - now destruct (RippleCanvas.canvasRef _).
  - now destruct (RippleCanvas.frame _).
  - rewrite state_of_commit, (proj1 (proj2 (commit_frame _ _))). apply Hgest.
  - destruct (audioReady s); cbn [state_of]; trivial.
    rewrite state_of_commit, (proj1 (proj2 (commit_frame _ _))). apply startExperience_frame.
  - rewrite state_of_commit, (proj1 (proj2 (commit_frame _ _))). unfold handleKeyDown.
    destruct (_ || _); [apply Hgest|reflexivity].
  - destruct (midiRequested s); [destruct granted|]; reflexivity.
  - destruct (onmidimessage s); [apply Hmidi|reflexivity].
  - now destruct (socket s).
  - destruct (socket s); [apply Hsock|reflexivity].
  - apply on_audio_context_eq.
  - apply on_audio_context_eq.
Qed.

Lemma run_platform es : forall s, platform (run es s) = platform s.
Proof.
  induction es as [|e es IH]; intros s; cbn [run]; trivial.
  now rewrite IH, step_platform.
Qed.

Lemma after_init_context p a :
  Dispatch.has_context a -> Dispatch.has_context (Engine.after_init p a).
Proof.
  intros [c Hc]. unfold Engine.after_init, Dispatch.has_context.
  rewrite (init_initialized p a c Hc). destruct (Audio.state c); cbn; eauto.
Qed.

Lemma move_context a b :
  Dispatch.audio_move a b -> Dispatch.has_context a -> Dispatch.has_context b.
Proof.
  intros [p a0|g a0 a' g' Hp|a0|dt a0] [c Hc]; unfold Dispatch.has_context.
  - apply after_init_context. now exists c.
  - revert Hp. unfold Audio.playRandomNote. rewrite Hc.
    destruct (Audio.isEnabled a0); cbn [negb Rand.Math_random].
    + destruct (Audio.scale_at _); [|discriminate]. intros [= <- _].
      rewrite (playTone_spec _ a0 c Hc). cbn. eauto.
    + intros [= <- _]. eauto.
  - unfold Engine.on_context. rewrite Hc. cbn. eauto.
  - unfold Engine.on_context. rewrite Hc. cbn. eauto.
Qed.

Lemma path_context a b :
  Dispatch.audio_path a b -> Dispatch.has_context a -> Dispatch.has_context b.
Proof.
  induction 1 as [|a b c Hm _ IH]; trivial.
  intros H. apply IH. exact (move_context a b Hm H).
Qed.

(** On a locked dispatcher whose [init()] throws, every gesture ends in
    that exception, with nothing changed. *)
Lemma gesture_throws e s :
  user_gesture e = true -> audioReady s = false ->
  Audio.init (audioContext (platform s)) (audioService s) = None ->
  step e s = Threw s.
Proof.
  intros Hg Hl Hi.
  assert (Hs : startExperience s = Threw s) by (unfold startExperience; now rewrite Hi).
  assert (Hc : commit false s = s) by (unfold commit; now rewrite Hl).
  destruct e as [c|c| |x y| |code|granted|data| |d| |dt]; cbn [user_gesture] in Hg;
    try discriminate; cbn [step].
  - unfold handleCanvasClick. rewrite Hl, Hs. cbn. now rewrite Hc.
  - rewrite Hl, Hs. cbn. now rewrite Hc.
  - unfold handleKeyDown. rewrite Hg, Hl, Hs. cbn. now rewrite Hc.
Qed.

(** The engine after the gesture that unlocks lies on a path from the
    engine just initialized. *)
Lemma unlock_step_audio e s :
  audioReady s = false -> user_gesture e = true ->
  Dispatch.audio_path (Engine.after_init (audioContext (platform s)) (audioService s))
                      (audioService (state_of (step e s))).
Proof.
  intros Hl Hg.
  assert (Hgest : forall x y src,
             Dispatch.audio_path
               (Engine.after_init (audioContext (platform s)) (audioService s))
               (audioService (state_of (bind (if negb (audioReady s) then startExperience s
                                              else Returned s) (triggerEffect x y src))))).
  { intros x y src. rewrite <- (proj1 (startExperience_frame s)).
    destruct (gesture_cases (triggerEffect x y src) s)
      as [(Hr & _)|[(_ & s1 & E & ->)|(_ & E & ->)]]; [congruence| |].
    - rewrite E. cbn [state_of]. apply triggerEffect_audio_path.
    - rewrite E. constructor. }
  destruct e as [c|c| |x y| |code|granted|data| |d| |dt]; cbn [user_gesture] in Hg;
    try discriminate; cbn [step].
  - rewrite state_of_commit, (proj1 (commit_frame _ _)). apply Hgest.
  - rewrite Hl. rewrite state_of_commit.
    rewrite (proj1 (commit_frame _ _)), (proj1 (startExperience_frame s)). constructor.
  - rewrite state_of_commit, (proj1 (commit_frame _ _)). unfold handleKeyDown.
    rewrite Hg. apply Hgest.
Qed.

Lemma locked_step_audio e s :
  audioService s = Audio.initial -> audioReady (state_of (step e s)) = false ->
  audioService (state_of (step e s)) = Audio.initial.
Proof.
  intros Hi Hl.
  assert (Hq : forall x y src s0,
             audioService s0 = Audio.initial ->
             audioService (state_of (triggerEffect x y src s0)) = Audio.initial).
  { intros x y src s0 H0. rewrite triggerEffect_audio; trivial. now rewrite H0. }
  destruct (handlers_through_trigger
              (fun s s' => audioService s = Audio.initial -> audioService s' = Audio.initial)
              (fun _ H => H) (fun src s _ => Hq None None src s)) as [Hmidi Hsock].
  assert (Hok : Spec.engine_ok (audioService s)) by (rewrite Hi; apply engine_ok_initial).
  assert (Hgest : forall x y src,
             audioReady (state_of (bind (if negb (audioReady s) then startExperience s
                                         else Returned s) (triggerEffect x y src))) = false ->
             audioService (state_of (bind (if negb (audioReady s) then startExperience s
                                           else Returned s) (triggerEffect x y src)))
             = Audio.initial).
  { intros x y src.
    destruct (gesture_cases (triggerEffect x y src) s)
      as [(Hr & ->)|[(_ & s1 & E & ->)|(_ & E & ->)]]; intros Hl1.
    - now apply Hq.
    - exfalso. pose proof (triggerEffect_gates x y src s1) as Hg.
      apply gates_eq in Hg as (Hg & _). rewrite Hg in Hl1.
      rewrite (startExperience_unlocks s s1 Hok E) in Hl1. discriminate.
    - exact Hi. }
  destruct e as [c|c| |x y| |code|granted|data| |d| |dt]; cbn [step] in *.
  - exact Hi.
  - now destruct (RippleCanvas.canvasRef _).
  - now destruct (RippleCanvas.frame _).
  - rewrite state_of_commit in *. rewrite audioReady_commit in Hl.
    rewrite (proj1 (commit_frame _ _)). now apply Hgest.
  - destruct (audioReady s) eqn:Ea; cbn [state_of] in *; [congruence|].
    rewrite state_of_commit in *. rewrite audioReady_commit in Hl.
    rewrite (proj1 (commit_frame _ _)).
    destruct (startExperience_cases s) as [(E & _)|(s1 & E & _)]; rewrite E in *;
      cbn [state_of] in *; trivial.
    rewrite (startExperience_unlocks s s1 Hok E) in Hl. discriminate.
  - rewrite state_of_commit in *. rewrite audioReady_commit in Hl.
    rewrite (proj1 (commit_frame _ _)). unfold handleKeyDown in *.
    destruct (_ || _); [now apply Hgest|exact Hi].
  - destruct (midiRequested s); [destruct granted|]; exact Hi.
  - destruct (onmidimessage s); [now apply Hmidi|exact Hi].
  - now destruct (socket s).
  - destruct (socket s); [now apply Hsock|exact Hi].
  - cbn [state_of]. rewrite (proj1 (on_audio_context_eq _ s)), Hi. reflexivity.
  - cbn [state_of]. rewrite (proj1 (on_audio_context_eq _ s)), Hi. reflexivity.
Qed.

Lemma engine_follows_lock_step p e s :
  Dispatch.engine_follows_lock p s ->
  Dispatch.engine_follows_lock p (state_of (step e s)).
Proof.
  intros (Hd & Hl & Hu). split; [now rewrite step_platform|]. split.
  - intros Hl'. destruct (audioReady s) eqn:Ea.
    + exfalso. destruct (step_gates e s) as [H|[(_ & H & _)|(granted & _ & _ & H)]];
        try congruence.
      apply gates_eq in H as (H & _). congruence.
    + apply locked_step_audio; auto.
  - intros Hu'. destruct (audioReady s) eqn:Ea.
    + eapply path_context; [apply step_audio_path|auto].
    + destruct (step_gates e s) as [H|[(Hg & _)|(granted & _ & _ & H)]]; try congruence.
      * apply gates_eq in H as (H & _). congruence.
      * destruct (Audio.init (audioContext (platform s)) (audioService s)) as [a|] eqn:Ei.
        -- eapply path_context; [apply (unlock_step_audio e s Ea Hg)|].
           unfold Engine.after_init. rewrite Ei. eapply init_context; eauto.
        -- rewrite (gesture_throws e s Hg Ea Ei) in Hu'. cbn in Hu'. congruence.
Qed.

Lemma engine_follows_lock_run p es : forall s,
  Dispatch.engine_follows_lock p s -> Dispatch.engine_follows_lock p (run es s).
Proof.
  induction es as [|e es IH]; intros s H; cbn [run]; trivial.
  apply IH. now apply engine_follows_lock_step.
Qed.

Lemma engine_follows_lock_initial p g : Dispatch.engine_follows_lock p (initial p g).
Proof. split; [reflexivity|]. split; [reflexivity|discriminate]. Qed.

(** X9.  The only exception that a handler of the application does not
    catch is that of the audio context's constructor.  Where the
    dispatcher is unlocked, or the engine has a context, or the
    platform's constructor does not throw, or the event is no gesture,
    the handler returns normally, whatever the state and the event (frame,
    click, key, MIDI message, socket message of any kind, platform
    notification).  A handler that does throw is that of a gesture on a
    locked dispatcher, and it leaves everything as it was: no trigger, no
    unlocking.  On a platform whose constructor throws, every gesture, at
    every point of every history, ends so.  The MIDI and the bridge
    handler never throw, and a socket frame that is not text is dropped
    with nothing changed. *)
Theorem X9_handler_exceptions :
  (forall e s,
     audioReady s = true \/ audioContext (platform s) <> Audio.Throws \/
     Audio.context (audioService s) <> None \/ user_gesture e = false ->
     exists s', step e s = Returned s') /\
  (forall e s s',
     step e s = Threw s' ->
     s' = s /\ user_gesture e = true /\ audioReady s = false /\
     audioContext (platform s) = Audio.Throws) /\
  (forall p g es e,
     audioContext p = Audio.Throws -> user_gesture e = true ->
     step e (run es (initial p g)) = Threw (run es (initial p g))) /\
  (forall d s, exists s', onmessage d s = Returned s') /\
  (forall data s, exists s', onMIDIMessage data s = Returned s') /\
  (forall s, onmessage BlobData s = Returned s /\
             onmessage ArrayBufferData s = Returned s).
Proof.
  split; [exact step_returns|]. split; [|split; [|split; [|split]]].
  - intros e s s' E.
    destruct (step_outcome e s) as [[s1 E1]|(E1 & Hg & Ha & _ & Hp)]; [congruence|].
    rewrite E1 in E. injection E as <-. auto.
  - intros p g es e Hp Hg.
    destruct (engine_follows_lock_run p es _ (engine_follows_lock_initial p g))
      as (Hpl & Hfresh & Hctx).
    set (s := run es (initial p g)) in *.
    assert (Hl : audioReady s = false).
    { destruct (audioReady s) eqn:Ea; trivial. exfalso.
      assert (Hall : forall es0 s0,
                 audioContext (platform s0) = Audio.Throws -> audioReady s0 = false ->
                 audioService s0 = Audio.initial ->
                 audioReady (run es0 s0) = false).
      { clear. induction es0 as [|e0 es0 IH]; intros s0 Hp0 Hl0 Hi0; cbn [run]; trivial.
        assert (Hstay : audioReady (state_of (step e0 s0)) = false).
        { destruct (step_gates e0 s0) as [H|[(Hg & _)|(granted & _ & _ & H)]].
          - apply gates_eq in H as (H & _). congruence.
          - rewrite (gesture_throws e0 s0 Hg Hl0); trivial.
            rewrite Hp0, Hi0. reflexivity.
          - congruence. }
        apply IH; trivial.
        + now rewrite step_platform.
        + now apply locked_step_audio. }
      specialize (Hall es (initial p g) Hp eq_refl eq_refl). fold s in Hall. congruence. }
    apply gesture_throws; trivial. rewrite Hpl, Hp, (Hfresh Hl). reflexivity.
  - exact onmessage_returns.
  - exact onMIDIMessage_returns.
  - intros s; split; reflexivity.
Qed.

Lemma X9_handler_exceptions_witness :
  user_gesture (KeyDown "Space") = true /\
  step (KeyDown "Space") (run Scenario.locked_history (initial Scenario.bare Scenario.g0))
    = Threw (run Scenario.locked_history (initial Scenario.bare Scenario.g0)) /\
  exists s', step (KeyDown "Space") Scenario.playing = Returned s'.
Proof.
  split; [reflexivity|]. split.
  - exact (proj1 (proj2 (proj2 X9_handler_exceptions)) Scenario.bare Scenario.g0
                 Scenario.locked_history (KeyDown "Space") eq_refl eq_refl).
  - exact (proj1 X9_handler_exceptions (KeyDown "Space") Scenario.playing
                 (or_introl eq_refl)).
Defined.

Lemma addRipple_given x y g cv c :
  RippleCanvas.canvasRef cv = Some c ->
  RippleCanvas.ripplesRef (fst (RippleCanvas.addRipple (Some x) (Some y) g cv))
  = RippleCanvas.ripplesRef cv ++ [Ripple.new x y].
Proof. intros Hc. unfold RippleCanvas.addRipple. now rewrite Hc. Qed.

Lemma voices_playTone f a c :
  Audio.context a = Some c ->
  Audio.voices (Audio.playTone f a)
  = Audio.voices a
    ++ [Spec.voice_osc f (Audio.currentTime c) (S (List.length (Audio.nodes c)))].
Proof.
  intros Hc. rewrite (playTone_spec f a c Hc). unfold Audio.voices.
  cbn [Audio.context Audio.with_context Audio.nodes]. rewrite Hc.
  now rewrite filter_app.
Qed.

(** What one successful [playRandomNote] does to the voices and to the
    view of an engine that has a context. *)
Lemma play_adds_a_scale_voice g a a' g' c :
  Audio.context a = Some c -> Audio.isEnabled a = true ->
  Audio.playRandomNote g a = Some (a', g') ->
  Engine.view a' = Engine.view a /\
  exists note,
    In note Constants.PENTATONIC_SCALE /\
    Graph.nodes_of a' =
      Graph.nodes_of a
      ++ [Spec.voice_osc (Constants.freq note) (Audio.currentTime c)
                         (S (List.length (Audio.nodes c)));
          Spec.voice_gain (Audio.currentTime c)] /\
    Audio.voices a' =
      Audio.voices a
      ++ [Spec.voice_osc (Constants.freq note) (Audio.currentTime c)
                         (S (List.length (Audio.nodes c)))].
Proof.
  intros Hc He Hp. split; [exact (view_playRandomNote g a (a', g') Hp)|].
  destruct (playRandomNote_plays g a c Hc He) as (note & _ & Hin & E).
  rewrite E in Hp. injection Hp as <- _. exists note. split; trivial. split.
  - rewrite (playTone_spec _ a c Hc). unfold Graph.nodes_of. cbn. now rewrite Hc.
  - now apply voices_playTone.
Qed.

(** X10.  End to end, the unlocking click.  At any point of any history at
    which the dispatcher is still locked and the canvas is mounted, a click
    at [(x, y)] does one of two things.  If the platform's audio context
    constructor throws, the click ends in that exception and changes
    nothing: no unlocking, no entity, no trigger.  Otherwise it unlocks,
    asks for MIDI access if the platform has it, opens the bridge socket
    unless the socket's constructor throws, spawns exactly one entity at
    [(x, y)], records exactly one trigger, and constructs the one audio
    context; if the platform starts that context running, exactly one
    note is played, and if the platform defers its start the engine is
    left Suspended and this first click is silent. *)
Theorem X10_unlocking_click p g es x y c :
  let s := run es (initial p g) in
  audioReady s = false -> RippleCanvas.canvasRef (canvas s) = Some c ->
  match audioContext p with
  | Audio.Throws => step (Click x y) s = Threw s
  | Audio.Starts d =>
      exists s',
        step (Click x y) s = Returned s' /\
        audioReady s' = true /\
        midiRequested s' = requestMIDIAccess p /\ socket s' = webSocket p /\
        Dispatch.ripples_of s' = Dispatch.ripples_of s ++ [Ripple.new x y] /\
        triggers s' = triggers s ++ [Dispatch.click_trigger x y] /\
        Audio.getContextState (audioService s')
          = Audio.ctx_state (if d then Audio.suspended else Audio.running) /\
        Audio.constructed (audioService s') = 1%nat /\
        List.length (Dispatch.voices_of s') = (if d then 0 else 1)%nat
  end.
Proof.
  intros s Hl Hc.
  destruct (engine_follows_lock_run p es _ (engine_follows_lock_initial p g))
    as (Hp & Hfresh & _).
  fold s in Hp, Hfresh. specialize (Hfresh Hl).
  destruct (audioContext p) as [d|] eqn:Ep.
  2: { apply gesture_throws; trivial. now rewrite Hp, Ep, Hfresh. }
  assert (Hs1 : exists s1,
             startExperience s = Returned s1 /\ audioReady s1 = true /\
             midiRequested s1 = midiRequested s /\ socket s1 = socket s /\
             canvas s1 = canvas s /\ triggers s1 = triggers s /\ platform s1 = p /\
             audioService s1
             = {| Audio.context :=
                    Some {| Audio.state := if d then Audio.suspended else Audio.running;
                            Audio.currentTime := 0; Audio.resumeRequested := d;
                            Audio.nodes := []; Audio.connections := [] |};
                  Audio.isEnabled := true; Audio.constructed := 1 |}).
  { unfold startExperience. rewrite Hp, Ep, Hfresh.
    rewrite (init_uninitialized d Audio.initial eq_refl).
    eexists. split; [reflexivity|]. destruct d; cbn; repeat split; trivial. }
  destruct Hs1 as (s1 & Es1 & Hr1 & Hm1 & Hk1 & Hc1 & Ht1 & Hp1 & Ha1).
  destruct (triggerEffect_fires (Some x) (Some y) (Some SrcClick) s1)
    as (s2 & Es2 & Htr & _ & Hrip & _ & _ & Hau & Hga & Hp2).
  exists (commit false s2). split.
  { cbn [step]. unfold handleCanvasClick. rewrite Hl, Es1. cbn [negb bind].
    now rewrite Es2. }
  apply gates_eq in Hga as (Hr2 & Hm2 & _ & Hk2).
  destruct (commit_frame false s2) as (Hca & _ & Hcc & Hct & _).
  pose proof (gates_commit false s2) as Hgc. rewrite Hr2, Hr1, Hp2, Hp1 in Hgc.
  cbn [negb andb] in Hgc. injection Hgc as H1 H2 _ H4.
  split; [exact H1|]. split; [exact H2|]. split; [exact H4|].
  unfold Dispatch.ripples_of, Dispatch.voices_of in *. rewrite Hca, Hcc, Hct.
  rewrite Hc1, Hc in Hrip. rewrite Ht1 in Htr.
  split; [exact Hrip|]. split; [exact Htr|].
  rewrite Ha1 in Hau. destruct d; cbn in Hau.
  - rewrite Hau. repeat split.
  - destruct Hau as (c0 & note & [= <-] & _ & ->). repeat split.
Qed.

Lemma X10_unlocking_click_witness :
  audioReady (run [Mount Scenario.c0] (initial Scenario.plain Scenario.g0)) = false /\
  RippleCanvas.canvasRef (canvas (run [Mount Scenario.c0] (initial Scenario.plain Scenario.g0)))
    = Some Scenario.c0 /\
  (exists s',
     step (Click 100 200) (run [Mount Scenario.c0] (initial Scenario.plain Scenario.g0))
       = Returned s' /\
     audioReady s' = true /\ List.length (Dispatch.voices_of s') = 1%nat) /\
  step (Click 100 200) (run [Mount Scenario.c0] (initial Scenario.bare Scenario.g0))
    = Threw (run [Mount Scenario.c0] (initial Scenario.bare Scenario.g0)).
Proof.
  split; [reflexivity|]. split; [reflexivity|]. split.
  - destruct (X10_unlocking_click Scenario.plain Scenario.g0 [Mount Scenario.c0] 100 200
                Scenario.c0 eq_refl eq_refl) as (s' & E & Hr & _ & _ & _ & _ & _ & _ & Hv).
    exists s'. repeat split; assumption.
  - exact (X10_unlocking_click Scenario.bare Scenario.g0 [Mount Scenario.c0] 100 200
             Scenario.c0 eq_refl eq_refl).
Defined.

End LockExtras.

Section AfterUnlock.

Import App.

Lemma triggerEffect_view x y src s :
  Engine.view (audioService (state_of (triggerEffect x y src s)))
  = Engine.view (audioService s).
Proof.
  destruct (triggerEffect_audio_cases x y src s) as [[_ ->]|[_ (g & a & g' & Hp & ->)]];
    trivial.
  exact (view_playRandomNote g _ (a, g') Hp).
Qed.

(** A gesture handler records its one trigger, unless it throws before. *)
Lemma gesture_triggers x y src s :
  let o := bind (if negb (audioReady s) then startExperience s else Returned s)
                (triggerEffect x y src) in
  (audioReady s = false /\ o = Threw s) \/
  triggers (state_of o) = triggers s ++ [ {| tx := x; ty := y; source := src |} ].
Proof.
  intros o. subst o.
  destruct (gesture_cases (triggerEffect x y src) s)
    as [(_ & ->)|[(_ & s1 & E & ->)|(Hl & _ & ->)]]; [right|right|now left].
  - apply triggerEffect_triggers.
  - rewrite triggerEffect_triggers.
    pose proof (proj1 (proj2 (proj2 (proj2 (startExperience_frame s))))) as Ht.
    rewrite E in Ht. cbn [state_of] in Ht. now rewrite Ht.
Qed.

Lemma click_triggers x y s :
  audioReady s = true ->
  triggers (state_of (step (Click x y) s)) = triggers s ++ [Dispatch.click_trigger x y].
Proof.
  intros Ha.
  cbn [step]. rewrite state_of_commit, (proj1 (proj2 (proj2 (proj2 (commit_frame _ _))))).
  unfold handleCanvasClick.
  destruct (gesture_triggers (Some x) (Some y) (Some SrcClick) s) as [[Hl _]|H];
    [congruence|exact H].
Qed.

Lemma unlocked_stays e s :
  audioReady s = true -> audioReady (state_of (step e s)) = true.
Proof.
  intros Ha. destruct (step_gates e s) as [H|[(_ & H & _)|(granted & _ & _ & H)]];
    try congruence.
  apply gates_eq in H as (H & _). congruence.
Qed.

Lemma unlocked_view e s :
  audioReady s = true -> e <> Resumed ->
  Engine.view (audioService (state_of (step e s))) = Engine.view (audioService s).
Proof.
  intros Ha Hne.
  destruct (handlers_through_trigger
              (fun s s' => Engine.view (audioService s') = Engine.view (audioService s))
              (fun _ => eq_refl) (fun src s _ => triggerEffect_view None None src s))
    as [Hmidi Hsock].
  destruct e as [c|c| |x y| |code|granted|data| |d| |dt]; cbn [step].
  - reflexivity.
  - now destruct (RippleCanvas.canvasRef _).
  - now destruct (RippleCanvas.frame _).
  - rewrite state_of_commit, (proj1 (commit_frame _ _)). unfold handleCanvasClick.
    rewrite Ha. cbn [negb bind]. apply triggerEffect_view.
  - now rewrite Ha.
  - rewrite state_of_commit, (proj1 (commit_frame _ _)). unfold handleKeyDown.
    destruct (_ || _); [|reflexivity]. rewrite Ha. cbn [negb bind]. apply triggerEffect_view.
  - destruct (midiRequested s); [destruct granted|]; reflexivity.
  - destruct (onmidimessage s); [apply Hmidi|reflexivity].
  - now destruct (socket s).
  - destruct (socket s); [apply Hsock|reflexivity].
  - congruence.
  - cbn [state_of]. rewrite (proj1 (on_audio_context_eq _ s)). apply view_advance.
Qed.

(** X11.  Once unlocked, the dispatcher stays unlocked under every event,
    and from then on no handler calls [init()] again: the engine's state,
    its pending resume and its count of constructed contexts change under
    no event but the platform's confirmation of the resume.  In every
    history an unlocked dispatcher has exactly one context, never closed,
    and a locked one has none. *)
Theorem X11_unlocked_for_good :
  (forall e s, audioReady s = true ->
     audioReady (state_of (step e s)) = true /\
     (e <> Resumed ->
      Engine.view (audioService (state_of (step e s))) = Engine.view (audioService s))) /\
  (forall d g es,
     let s := run es (initial d g) in
     if audioReady s
     then Audio.constructed (audioService s) = 1%nat /\
          (Audio.getContextState (audioService s) = Audio.ctx_state Audio.running \/
           Audio.getContextState (audioService s) = Audio.ctx_state Audio.suspended)
     else audioService s = Audio.initial).
Proof.
  split.
  - intros e s Ha. split; [now apply unlocked_stays|now apply unlocked_view].
  - intros d g es s.
    destruct (engine_follows_lock_run d es _ (engine_follows_lock_initial d g))
      as (_ & Hl & Hu).
    pose proof (engine_ok_run es (initial d g) engine_ok_initial) as Hok.
    fold s in Hl, Hu, Hok.
    destruct (audioReady s); [|now apply Hl].
    destruct (Hu eq_refl) as [c Hc]. unfold Spec.engine_ok in Hok.
    unfold Audio.getContextState. rewrite Hc in *.
    destruct Hok as (Hn & _ & Hs & _). split; trivial.
    destruct (Audio.state c); auto. congruence.
Qed.

Lemma X11_unlocked_for_good_witness :
  audioReady (state_of (step StartButton (initial Scenario.deferring Scenario.g0))) = true /\
  audioReady (state_of (step (KeyDown "Escape")
                          (state_of (step StartButton
                                       (initial Scenario.deferring Scenario.g0))))) = true.
Proof.
  split; [reflexivity|].
  exact (proj1 (proj1 X11_unlocked_for_good (KeyDown "Escape")
                  (state_of (step StartButton (initial Scenario.deferring Scenario.g0)))
                  eq_refl)).
Defined.

Lemma settled_step e s :
  audioReady s = true -> midiRequested s = false -> onmidimessage s = false ->
  audioReady (state_of (step e s)) = true /\
  midiRequested (state_of (step e s)) = false /\
  onmidimessage (state_of (step e s)) = false.
Proof.
  intros Ha Hm Ho.
  destruct (step_gates e s) as [H|[(_ & H & _)|(granted & _ & H & _)]]; try congruence.
  apply gates_eq in H as (-> & -> & -> & _). auto.
Qed.

Lemma settled_run es : forall s,
  audioReady s = true -> midiRequested s = false -> onmidimessage s = false ->
  audioReady (run es s) = true /\ midiRequested (run es s) = false /\
  onmidimessage (run es s) = false.
Proof.
  induction es as [|e es IH]; intros s Ha Hm Ho; cbn [run]; auto.
  destruct (settled_step e s Ha Hm Ho) as (Ha' & Hm' & Ho'). now apply IH.
Qed.

(** X12.  When MIDI access is refused the MIDI source is inactive for
    good: whatever happens afterwards, no handler is ever installed and
    every MIDI message is dropped with nothing changed, while the other
    sources go on working (a click still produces its trigger). *)
Theorem X12_midi_denied s es :
  audioReady s = true -> onmidimessage s = false ->
  let s2 := run es (state_of (step (MIDIAccess false) s)) in
  onmidimessage s2 = false /\ midiRequested s2 = false /\
  (forall data, step (MIDIMessage data) s2 = Returned s2) /\
  (forall x y,
     triggers (state_of (step (Click x y) s2)) = triggers s2 ++ [Dispatch.click_trigger x y]).
Proof.
  intros Ha Ho s2.
  assert (H1 : audioReady (state_of (step (MIDIAccess false) s)) = true /\
               midiRequested (state_of (step (MIDIAccess false) s)) = false /\
               onmidimessage (state_of (step (MIDIAccess false) s)) = false).
  { cbn [step]. destruct (midiRequested s) eqn:Em; cbn; auto. }
  destruct H1 as (Ha1 & Hm1 & Ho1).
  destruct (settled_run es _ Ha1 Hm1 Ho1) as (Ha2 & Hm2 & Ho2). fold s2 in Ha2, Hm2, Ho2.
  split; trivial. split; trivial. split.
  - intros data. cbn [step]. now rewrite Ho2.
  - intros x y. now apply click_triggers.
Qed.

Lemma X12_midi_denied_witness :
  audioReady (state_of (step StartButton (initial Scenario.plain Scenario.g0))) = true /\
  onmidimessage (state_of (step StartButton (initial Scenario.plain Scenario.g0))) = false /\
  onmidimessage
    (run [MIDIAccess true]
         (state_of (step (MIDIAccess false)
                      (state_of (step StartButton
                                   (initial Scenario.plain Scenario.g0)))))) = false.
Proof.
  split; [reflexivity|]. split; [reflexivity|].
  exact (proj1 (X12_midi_denied
                  (state_of (step StartButton (initial Scenario.plain Scenario.g0)))
                  [MIDIAccess true] eq_refl eq_refl)).
Defined.

End AfterUnlock.

Section Accounting.

Import App.

Lemma init_nodes p a :
  Graph.nodes_of (Engine.after_init p a) = Graph.nodes_of a /\
  Audio.voices (Engine.after_init p a) = Audio.voices a.
Proof.
  unfold Graph.nodes_of, Audio.voices, Engine.after_init.
  destruct (Audio.context a) as [c|] eqn:E.
  - rewrite (init_initialized p a c E). destruct (Audio.state c); cbn; now rewrite ?E.
  - destruct p as [d|].
    + now rewrite (init_uninitialized d a E).
    + now rewrite (init_throws a E), E.
Qed.

Lemma on_context_nodes f a :
  (forall c, Audio.nodes (f c) = Audio.nodes c) ->
  Graph.nodes_of (Engine.on_context f a) = Graph.nodes_of a /\
  Audio.voices (Engine.on_context f a) = Audio.voices a.
Proof.
  intros Hf. unfold Graph.nodes_of, Audio.voices, Engine.on_context.
  destruct (Audio.context a) as [c|] eqn:E; cbn; rewrite ?E, ?Hf; auto.
Qed.

Lemma is_osc_mark now n : Audio.is_osc (Audio.mark_ended now n) = Audio.is_osc n.
Proof.
  destruct n as [o|g]; [|reflexivity]. unfold Audio.mark_ended.
  now destruct (Audio.due now (Audio.Osc o)).
Qed.

Lemma scale_tone_mark now n : Graph.scale_tone n -> Graph.scale_tone (Audio.mark_ended now n).
Proof.
  destruct n as [o|g]; [|trivial]. unfold Audio.mark_ended.
  now destruct (Audio.due now (Audio.Osc o)).
Qed.

Lemma filter_map_length {A} (f : A -> bool) (m : A -> A) l :
  (forall a, f (m a) = f a) -> List.length (filter f (map m l)) = List.length (filter f l).
Proof.
  intros H. induction l as [|a l IH]; cbn; trivial.
  rewrite H. destruct (f a); cbn; now rewrite IH.
Qed.

(** The passing of time keeps the number of voices and their tones. *)
Lemma advance_nodes dt a :
  List.length (Audio.voices (Engine.on_context (Audio.advance dt) a))
  = List.length (Audio.voices a) /\
  (Forall Graph.scale_tone (Graph.nodes_of a) ->
   Forall Graph.scale_tone (Graph.nodes_of (Engine.on_context (Audio.advance dt) a))).
Proof.
  unfold Graph.nodes_of, Audio.voices, Engine.on_context.
  destruct (Audio.context a) as [c|] eqn:E; cbn [Audio.context Audio.with_context];
    [|rewrite E; auto].
  unfold Audio.advance. destruct (Audio.state c); auto.
  destruct (Qle_bool 0 dt); auto.
  cbn [Audio.dispatch_ended Audio.nodes Audio.currentTime]. split.
  - apply filter_map_length. intros n. apply is_osc_mark.
  - intros H. rewrite Forall_forall in *. intros n Hn.
    apply in_map_iff in Hn as (n0 & <- & Hn0). apply scale_tone_mark. auto.
Qed.

(** What a move of the engine, on an engine in good order, does to its
    nodes: it keeps the number of the voices and their tones, or adds one
    voice of a scale note at the end. *)
Lemma move_nodes a b :
  Dispatch.audio_move a b -> Spec.engine_ok a ->
  (List.length (Audio.voices b) = List.length (Audio.voices a) /\
   (Forall Graph.scale_tone (Graph.nodes_of a) ->
    Forall Graph.scale_tone (Graph.nodes_of b))) \/
  exists note t0 gn,
    In note Constants.PENTATONIC_SCALE /\
    Graph.nodes_of b
      = Graph.nodes_of a ++ [Spec.voice_osc (Constants.freq note) t0 gn; Spec.voice_gain t0] /\
    Audio.voices b = Audio.voices a ++ [Spec.voice_osc (Constants.freq note) t0 gn].
Proof.
  intros [p a0|g a0 a' g' Hp|a0|dt a0] Hok.
  - left. destruct (init_nodes p a0) as [-> ->]. auto.
  - unfold Spec.engine_ok in Hok. destruct (Audio.context a0) as [c|] eqn:E.
    + destruct Hok as (_ & He & _).
      destruct (play_adds_a_scale_voice g a0 a' g' c E He Hp) as (_ & note & Hin & Hn & Hv).
      right. eauto 8.
    + left. unfold Audio.playRandomNote in Hp. rewrite E in Hp. injection Hp as <- _. auto.
  - left. destruct (on_context_nodes Audio.confirm_resume a0) as [-> ->]; auto.
    intros c. apply confirm_resume_frame.
  - left. apply advance_nodes.
Qed.

Lemma scale_tone_voice note t0 gn :
  In note Constants.PENTATONIC_SCALE ->
  Forall Graph.scale_tone
         [Spec.voice_osc (Constants.freq note) t0 gn; Spec.voice_gain t0].
Proof.
  intros Hin. constructor; [|constructor; [exact I|constructor]].
  cbn. exists note, t0. split; [exact Hin|reflexivity].
Qed.

Lemma scale_tones_path a b :
  Dispatch.audio_path a b -> Spec.engine_ok a ->
  Forall Graph.scale_tone (Graph.nodes_of a) ->
  Forall Graph.scale_tone (Graph.nodes_of b).
Proof.
  induction 1 as [|a b c Hm _ IH]; trivial.
  intros Hok Hs. apply IH; [exact (engine_ok_move a b Hm Hok)|].
  destruct (move_nodes a b Hm Hok) as [[_ H]|(note & t0 & gn & Hin & -> & _)]; auto.
  apply Forall_app. split; trivial. now apply scale_tone_voice.
Qed.

Lemma scale_tones_run es : forall s,
  Spec.engine_ok (audioService s) ->
  Forall Graph.scale_tone (Graph.nodes_of (audioService s)) ->
  Forall Graph.scale_tone (Graph.nodes_of (audioService (run es s))).
Proof.
  induction es as [|e es IH]; intros s Hok Hs; cbn [run]; trivial.
  apply IH.
  - eapply engine_ok_path; [apply step_audio_path|exact Hok].
  - eapply scale_tones_path; [apply step_audio_path|exact Hok|exact Hs].
Qed.

(** The triggers grow by [k], the voices by no more than [k] has entries. *)
Lemma triggerEffect_account x y src s :
  Spec.engine_ok (audioService s) ->
  triggers (state_of (triggerEffect x y src s))
    = triggers s ++ [ {| tx := x; ty := y; source := src |} ] /\
  (List.length (Dispatch.voices_of (state_of (triggerEffect x y src s)))
   <= List.length (Dispatch.voices_of s) + 1)%nat.
Proof.
  intros Hok. split; [apply triggerEffect_triggers|].
  unfold Dispatch.voices_of.
  destruct (triggerEffect_audio_cases x y src s) as [[_ ->]|[_ (g & a & g' & Hp & ->)]];
    [lia|].
  destruct (move_nodes _ _ (Dispatch.move_play g _ a g' Hp) Hok)
    as [[-> _]|(note & t0 & gn & _ & _ & ->)]; [lia|].
  rewrite length_app. cbn. lia.
Qed.

Lemma step_account e s :
  Spec.engine_ok (audioService s) ->
  exists k,
    triggers (state_of (step e s)) = triggers s ++ k /\
    (List.length (Dispatch.voices_of (state_of (step e s)))
     <= List.length (Dispatch.voices_of s) + List.length k)%nat.
Proof.
  intros Hok.
  set (R := fun s0 s1 : t =>
              Spec.engine_ok (audioService s0) ->
              Spec.engine_ok (audioService s1) /\
              exists k, triggers s1 = triggers s0 ++ k /\
                        (List.length (Dispatch.voices_of s1)
                         <= List.length (Dispatch.voices_of s0) + List.length k)%nat).
  assert (Hrefl : forall s0, R s0 s0).
  { intros s0 H0. split; trivial. exists []. rewrite app_nil_r. split; [reflexivity|lia]. }
  assert (Htrans : forall a b c, R a b -> R b c -> R a c).
  { intros a b c Hab Hbc Ha. destruct (Hab Ha) as (Hb & k1 & Ht1 & Hv1).
    destruct (Hbc Hb) as (Hc & k2 & Ht2 & Hv2). split; trivial.
    exists (k1 ++ k2). rewrite Ht2, Ht1, <- app_assoc, length_app. split; [reflexivity|lia]. }
  assert (Hsame : forall s0 s1 : t,
             Dispatch.audio_path (audioService s0) (audioService s1) ->
             triggers s1 = triggers s0 ->
             List.length (Dispatch.voices_of s1) = List.length (Dispatch.voices_of s0) ->
             R s0 s1).
  { intros s0 s1 Hp Ht Hv H0. split; [eapply engine_ok_path; eauto|].
    exists []. rewrite app_nil_r, Hv. split; [exact Ht|lia]. }
  assert (Htrig : forall x y src s0, R s0 (state_of (triggerEffect x y src s0))).
  { intros x y src s0 H0. split.
    - eapply engine_ok_path; [apply triggerEffect_audio_path|exact H0].
    - destruct (triggerEffect_account x y src s0 H0) as [Ht Hv].
      eexists. split; [exact Ht|exact Hv]. }
  assert (Hstart : forall s0, R s0 (state_of (startExperience s0))).
  { intros s0. destruct (startExperience_frame s0) as (Ea & _ & _ & Et & _).
    apply Hsame; [apply startExperience_audio_path|exact Et|].
    unfold Dispatch.voices_of. rewrite Ea. now rewrite (proj2 (init_nodes _ _)). }
  assert (Hgest : forall x y src,
             R s (state_of (bind (if negb (audioReady s) then startExperience s
                                  else Returned s) (triggerEffect x y src)))).
  { intros x y src. apply (gesture_rel R); auto. }
  destruct (handlers_through_trigger R Hrefl (fun src s0 _ => Htrig None None src s0))
    as [Hmidi Hsock].
  assert (Hcommit : forall b s0 s1, R s0 s1 -> R s0 (commit b s1)).
  { intros b s0 s1 H H0. destruct (commit_frame b s1) as (Ea & _ & _ & Et & _).
    unfold Dispatch.voices_of. rewrite Ea, Et. exact (H H0). }
  assert (Hall : R s (state_of (step e s))).
  { assert (Hquiet : forall s1 : t,
               audioService s1 = audioService s -> triggers s1 = triggers s -> R s s1).
    { intros s1 Ea Et. apply Hsame; trivial.
      - rewrite Ea. constructor.
      - unfold Dispatch.voices_of. now rewrite Ea. }
    destruct e as [c|c| |x y| |code|granted|data| |d| |dt]; cbn [step].
    - now apply Hquiet.
    - destruct (RippleCanvas.canvasRef _); now apply Hquiet.
    - destruct (RippleCanvas.frame _); now apply Hquiet.
    - rewrite state_of_commit. apply Hcommit, Hgest.
    - destruct (audioReady s); [apply Hrefl|]. rewrite state_of_commit.
      apply Hcommit, Hstart.
    - rewrite state_of_commit. apply Hcommit. unfold handleKeyDown.
      destruct (_ || _); [apply Hgest|apply Hrefl].
    - destruct (midiRequested s); [destruct granted|]; now apply Hquiet.
    - destruct (onmidimessage s); [apply Hmidi|apply Hrefl].
    - destruct (socket s); now apply Hquiet.
    - destruct (socket s); [apply Hsock|apply Hrefl].
    - cbn [state_of]. destruct (on_audio_context_eq Audio.confirm_resume s)
        as (Ea & _ & _ & Et & _).
      apply Hsame; trivial.
      + rewrite Ea. apply path_one. constructor.
      + unfold Dispatch.voices_of. rewrite Ea.
        rewrite (proj2 (on_context_nodes Audio.confirm_resume _
                          (fun c => proj1 (proj2 (proj2 (confirm_resume_frame c)))))).
        reflexivity.
    - cbn [state_of]. destruct (on_audio_context_eq (Audio.advance dt) s)
        as (Ea & _ & _ & Et & _).
      apply Hsame; trivial.
      + rewrite Ea. apply path_one. constructor.
      + unfold Dispatch.voices_of. rewrite Ea. apply advance_nodes. }
  exact (proj2 (Hall Hok)).
Qed.

Lemma run_account es : forall s,
  Spec.engine_ok (audioService s) ->
  exists k,
    triggers (run es s) = triggers s ++ k /\
    (List.length (Dispatch.voices_of (run es s))
     <= List.length (Dispatch.voices_of s) + List.length k)%nat.
Proof.
  induction es as [|e es IH]; intros s Hok; cbn [run].
  - exists []. rewrite app_nil_r. split; [reflexivity|lia].
  - destruct (step_account e s Hok) as (k1 & Ht1 & Hv1).
    destruct (IH (state_of (step e s))) as (k2 & Ht2 & Hv2).
    { eapply engine_ok_path; [apply step_audio_path|exact Hok]. }
    exists (k1 ++ k2). rewrite Ht2, Ht1, <- app_assoc, length_app.
    split; [reflexivity|lia].
Qed.

(** X13.  One trigger, at most one tone.  In every history of the
    application the number of voices ever synthesized is at most the
    number of triggers, every oscillator in the graph sounds a note of the
    scale table, and no more than one audio context has been constructed. *)
Theorem X13_at_most_one_tone_per_trigger d g es :
  let s := run es (initial d g) in
  (List.length (Dispatch.voices_of s) <= List.length (triggers s))%nat /\
  Forall Graph.scale_tone (Graph.nodes_of (audioService s)) /\
  (Audio.constructed (audioService s) <= 1)%nat.
Proof.
  intros s. split; [|split].
  - destruct (run_account es (initial d g) engine_ok_initial) as (k & Ht & Hv).
    fold s in Ht, Hv. rewrite Ht. cbn in Hv |- *. exact Hv.
  - apply scale_tones_run; [apply engine_ok_initial|constructor].
  - pose proof (engine_ok_run es (initial d g) engine_ok_initial) as Hok.
    fold s in Hok. unfold Spec.engine_ok in Hok.
    destruct (Audio.context (audioService s)); destruct Hok as (-> & _); lia.
Qed.

End Accounting.

Section SourceExtras.

Import App.

Lemma step_new_triggers e s :
  exists k,
    triggers (state_of (step e s)) = triggers s ++ k /\
    Forall Dispatch.coordinates_from_click k.
Proof.
  assert (Hsame : forall s0 s1 : t,
             triggers s1 = triggers s0 ->
             exists k, triggers s1 = triggers s0 ++ k /\
                       Forall Dispatch.coordinates_from_click k).
  { intros s0 s1 ->. exists []. rewrite app_nil_r. split; [reflexivity|constructor]. }
  assert (Hquiet : forall src s0, src <> Some SrcClick ->
             exists k, triggers (state_of (triggerEffect None None src s0)) = triggers s0 ++ k /\
                       Forall Dispatch.coordinates_from_click k).
  { intros src s0 Hne. rewrite triggerEffect_triggers. eexists. split; [reflexivity|].
    constructor; [|constructor]. unfold Dispatch.coordinates_from_click. cbn.
    destruct src as [[| | |]|]; try (split; reflexivity). congruence. }
  destruct (handlers_through_trigger
              (fun s s' => exists k, triggers s' = triggers s ++ k /\
                                     Forall Dispatch.coordinates_from_click k)
              (fun s0 => Hsame s0 s0 eq_refl) Hquiet) as [Hmidi Hsock].
  assert (Hct : forall b s0, triggers (commit b s0) = triggers s0)
    by (intros b s0; apply commit_frame).
  assert (Hgest : forall x y src,
             Dispatch.coordinates_from_click {| tx := x; ty := y; source := src |} ->
             exists k,
               triggers (state_of (bind (if negb (audioReady s) then startExperience s
                                         else Returned s) (triggerEffect x y src)))
               = triggers s ++ k /\
               Forall Dispatch.coordinates_from_click k).
  { intros x y src Hc.
    destruct (gesture_triggers x y src s) as [[_ ->]| ->]; [now apply Hsame|].
    eexists. split; [reflexivity|]. now repeat constructor. }
  destruct e as [c|c| |x y| |code|granted|data| |d| |dt]; cbn [step].
  - now apply Hsame.
  - destruct (RippleCanvas.canvasRef _); now apply Hsame.
  - destruct (RippleCanvas.frame _); now apply Hsame.
  - rewrite state_of_commit, Hct. apply Hgest.
    unfold Dispatch.coordinates_from_click. cbn. split; discriminate.
  - destruct (audioReady s); cbn [state_of]; [now apply Hsame|].
    rewrite state_of_commit. apply Hsame.
    rewrite Hct. apply startExperience_frame.
  - rewrite state_of_commit, Hct. unfold handleKeyDown.
    destruct (_ || _); [|now apply Hsame].
    apply Hgest. unfold Dispatch.coordinates_from_click. cbn. split; reflexivity.
  - destruct (midiRequested s); [destruct granted|]; now apply Hsame.
  - destruct (onmidimessage s); [apply Hmidi|now apply Hsame].
  - destruct (socket s); now apply Hsame.
  - destruct (socket s); [apply Hsock|now apply Hsame].
  - cbn [state_of]. apply Hsame. apply on_audio_context_eq.
  - cbn [state_of]. apply Hsame. apply on_audio_context_eq.
Qed.

Lemma run_coordinates es : forall s,
  Forall Dispatch.coordinates_from_click (triggers s) ->
  Forall Dispatch.coordinates_from_click (triggers (run es s)).
Proof.
  induction es as [|e es IH]; intros s H; cbn [run]; trivial.
  apply IH. destruct (step_new_triggers e s) as (k & -> & Hk).
  apply Forall_app. now split.
Qed.

(** X14.  Only the pointer gives coordinates.  In every history of the
    application each recorded trigger from a click carries both
    coordinates, and each trigger from the keyboard, from MIDI or from the
    bridge carries none, so its entity is placed at random. *)
Theorem X14_coordinates_only_from_click d g es :
  Forall Dispatch.coordinates_from_click (triggers (run es (initial d g))).
Proof. apply run_coordinates. constructor. Qed.

(** X15.  The keyboard adapter.  A key-down of any key other than Space
    and Enter changes nothing at all.  A key-down of Space or of Enter on
    a locked dispatcher whose engine has no context, on a platform whose
    audio context constructor throws, ends in that exception and changes
    nothing; everywhere else it returns and records exactly one trigger
    without coordinates.  On an unlocked dispatcher it is exactly one
    trigger with all that it does, and with a mounted canvas of positive
    size the one entity it appends has age 0 and a position within the
    canvas. *)
Theorem X15_keyboard_adapter :
  (forall code s, Dispatch.is_trigger_key code = false -> step (KeyDown code) s = Returned s) /\
  (forall code s,
     Dispatch.is_trigger_key code = true ->
     audioReady s = true \/ Audio.context (audioService s) <> None \/
     audioContext (platform s) <> Audio.Throws ->
     exists s',
       step (KeyDown code) s = Returned s' /\
       triggers s' = triggers s ++ [Dispatch.key_trigger]) /\
  (forall code s,
     Dispatch.is_trigger_key code = true ->
     audioReady s = false -> Audio.context (audioService s) = None ->
     audioContext (platform s) = Audio.Throws ->
     step (KeyDown code) s = Threw s) /\
  (forall code s,
     Dispatch.is_trigger_key code = true -> audioReady s = true ->
     exists s',
       step (KeyDown code) s = Returned s' /\ Dispatch.fires Dispatch.key_trigger s s') /\
  (forall code s c,
     Dispatch.is_trigger_key code = true -> audioReady s = true ->
     RippleCanvas.canvasRef (canvas s) = Some c ->
     (0 < RippleCanvas.width c)%Q -> (0 < RippleCanvas.height c)%Q ->
     exists r,
       Dispatch.ripples_of (state_of (step (KeyDown code) s)) = Dispatch.ripples_of s ++ [r] /\
       Ripple.age r = 0 /\ Ripple.active r = true /\
       (0 <= Ripple.x r /\ Ripple.x r < RippleCanvas.width c)%Q /\
       (0 <= Ripple.y r /\ Ripple.y r < RippleCanvas.height c)%Q).
Proof.
  assert (Hfire : forall code s,
             Dispatch.is_trigger_key code = true -> audioReady s = true ->
             exists s',
               step (KeyDown code) s = Returned s' /\
               Dispatch.fires Dispatch.key_trigger s s').
  { intros code s Hk Ha. cbn [step]. unfold handleKeyDown.
    unfold Dispatch.is_trigger_key in Hk. rewrite Hk, Ha. cbn [negb bind].
    destruct (triggerEffect_fires None None (Some SrcKeyboard) s) as (s' & -> & Hf).
    exists s'. split; [|exact Hf]. cbn [commit_outcome]. unfold commit.
    now rewrite andb_false_l. }
  split; [|split; [|split; [|split]]]; trivial.
  - intros code s Hk. cbn [step]. unfold handleKeyDown.
    unfold Dispatch.is_trigger_key in Hk. rewrite Hk. cbn [commit_outcome].
    unfold commit. now destruct (audioReady s).
  - intros code s Hk Hor.
    destruct (step_returns (KeyDown code) s) as [s' E]; [tauto|].
    exists s'. split; trivial.
    pose proof (f_equal state_of E) as Es. cbn [state_of step] in Es.
    rewrite state_of_commit in Es. unfold handleKeyDown in Es, E.
    unfold Dispatch.is_trigger_key in Hk. rewrite Hk in Es.
    cbn [step] in E. unfold handleKeyDown in E. rewrite Hk in E.
    destruct (gesture_triggers None None (Some SrcKeyboard) s) as [[_ Ht]|Ht].
    + rewrite Ht in E. discriminate E.
    + rewrite <- Es, (proj1 (proj2 (proj2 (proj2 (commit_frame _ _))))). exact Ht.
  - intros code s Hk Hl Hc Hp. apply gesture_throws; trivial.
    apply init_None. now split.
  - intros code s c Hk Ha Hc Hw Hh.
    destruct (Hfire code s Hk Ha) as (s' & -> & _ & _ & Hr & _).
    cbn [state_of]. rewrite Hr, Hc. eexists. split; [reflexivity|].
    cbn [Dispatch.spawned Dispatch.key_trigger tx ty
         Ripple.age Ripple.active Ripple.x Ripple.y Ripple.new].
    split; [reflexivity|]. split; [reflexivity|].
    split; apply scaled_draw_range; trivial; apply Rand_value_range.
Qed.

Lemma X15_keyboard_adapter_witness :
  Dispatch.is_trigger_key "Escape" = false /\
  Dispatch.is_trigger_key "Space" = true /\
  step (KeyDown "Escape") Scenario.playing = Returned Scenario.playing /\
  (exists s',
     step (KeyDown "Space") Scenario.playing = Returned s' /\
     Dispatch.fires Dispatch.key_trigger Scenario.playing s') /\
  step (KeyDown "Space") (initial Scenario.bare Scenario.g0)
    = Threw (initial Scenario.bare Scenario.g0).
Proof.
  split; [reflexivity|]. split; [reflexivity|]. split; [|split].
  - exact (proj1 X15_keyboard_adapter "Escape"%string Scenario.playing eq_refl).
  - exact (proj1 (proj2 (proj2 (proj2 X15_keyboard_adapter))) "Space"%string
                 Scenario.playing eq_refl eq_refl).
  - exact (proj1 (proj2 (proj2 X15_keyboard_adapter)) "Space"%string
                 (initial Scenario.bare Scenario.g0) eq_refl eq_refl eq_refl eq_refl).
Defined.

End SourceExtras.

(* ====================================================================== *)
(** * The render loop: its start, its one pending frame, its end *)
(* ====================================================================== *)

Section LoopExtras.

Import Loop.

Lemma render_alive s c :
  RippleCanvas.canvasRef (field s) = Some c ->
  exists f,
    RippleCanvas.render c (field s) = Some f /\
    RippleCanvas.canvasRef f = Some c /\
    RippleCanvas.animationFrameRef f = S (RippleCanvas.animationFrameRef (field s)) /\
    render s = Some (with_queue (queue s ++ [RippleCanvas.animationFrameRef f])
                                (with_field f s)).
Proof.
  intros Hc. unfold render. rewrite Hc, render_spec. eexists.
  split; [reflexivity|]. cbn. rewrite Hc. auto.
Qed.

Lemma mounted_alive c w g : alive (mounted true c w g).
Proof.
  unfold mounted, effect. cbn [attach boot field with_field RippleCanvas.mount
                               RippleCanvas.canvasRef].
  unfold render, handleResize. cbn. repeat split.
Qed.

Lemma step_alive e s : is_unmount e = false -> alive s -> alive (step e s).
Proof.
  intros He (Hq & Hl & Hcl & Hc). destruct e as [|w|x y|]; [| | |discriminate];
    cbn [step].
  - rewrite Hq.
    destruct (render_alive (with_queue [] s) (window s) Hc) as (f & _ & Hcf & _ & ->).
    unfold alive. cbn. auto.
  - rewrite Hl. unfold alive, handleResize. cbn. auto.
  - pose proof (addRipple_canvasRef x y (rng s) (field s)) as Hcr.
    assert (Haf : RippleCanvas.animationFrameRef
                    (fst (RippleCanvas.addRipple x y (rng s) (field s)))
                  = RippleCanvas.animationFrameRef (field s)).
    { unfold RippleCanvas.addRipple. rewrite Hc.
      destruct (RippleCanvas.coalesce x _ _) as [tx g1],
               (RippleCanvas.coalesce y _ _) as [ty g2]. reflexivity. }
    destruct (RippleCanvas.addRipple x y (rng s) (field s)) as [f g].
    cbn [fst] in Hcr, Haf. unfold alive. cbn. rewrite Haf, Hcr. auto.
Qed.

Lemma run_alive es : forall s,
  forallb (fun e => negb (is_unmount e)) es = true -> alive s -> alive (run es s).
Proof.
  unfold run. induction es as [|e es IH]; intros s Hes Ha; cbn [fold_left]; trivial.
  cbn [forallb] in Hes. apply andb_true_iff in Hes as [He Hes].
  apply IH; trivial. apply step_alive; trivial. now destruct (is_unmount e).
Qed.

Lemma cancel_one id : cancel id [id] = [].
Proof. unfold cancel. cbn. now rewrite Nat.eqb_refl. Qed.

Lemma unmount_dead s : alive s -> dead (step Unmount s).
Proof.
  intros (Hq & Hl & Hcl & Hc). cbn [step]. rewrite Hcl.
  unfold dead, run_cleanup. cbn. rewrite Hq, cancel_one. auto.
Qed.

Lemma step_dead e s :
  dead s -> dead (step e s) /\ field (step e s) = field s.
Proof.
  intros (Hq & Hl & Hcl & Hc). destruct s as [f w q l cl g].
  cbn [queue listening cleanup field] in Hq, Hl, Hcl, Hc. subst q l cl.
  destruct f as [cr rs af cx]. cbn [RippleCanvas.canvasRef] in Hc. subst cr.
  destruct e as [|w'|x y|]; cbn; unfold dead; cbn; auto.
Qed.

Lemma run_dead es : forall s,
  dead s -> dead (run es s) /\ field (run es s) = field s.
Proof.
  unfold run. induction es as [|e es IH]; intros s Hd; cbn [fold_left]; auto.
  destruct (step_dead e s Hd) as [Hd' Hf]. destruct (IH _ Hd') as [Hd'' Hf'].
  split; trivial. now rewrite Hf'.
Qed.

Lemma step_idle e s : idle s -> idle (step e s).
Proof.
  intros (Hq & Hl & Hcl & Hx & Ha & Hr). destruct s as [f w q l cl g].
  cbn [queue listening cleanup field] in Hq, Hl, Hcl, Hx, Ha, Hr. subst q l cl.
  destruct f as [cr rs af cx].
  cbn [RippleCanvas.ctx RippleCanvas.animationFrameRef RippleCanvas.ripplesRef]
    in Hx, Ha, Hr. subst af cx.
  destruct e as [|w'|x y|]; cbn [step queue listening cleanup field rng window].
  - unfold idle. cbn. auto 7.
  - unfold idle. cbn. auto 7.
  - unfold RippleCanvas.addRipple. cbn [RippleCanvas.canvasRef].
    destruct cr as [c|]; [|unfold idle; cbn; auto 7].
    destruct (RippleCanvas.coalesce x _ _) as [tx g1],
             (RippleCanvas.coalesce y _ _) as [ty g2]. unfold idle. cbn.
    repeat split; trivial. apply Forall_app. split; trivial.
    constructor; [|constructor]. split; reflexivity.
  - unfold idle. cbn. auto 7.
Qed.

Lemma run_idle es : forall s, idle s -> idle (run es s).
Proof.
  unfold run. induction es as [|e es IH]; intros s Hi; cbn [fold_left]; auto.
  apply IH, step_idle, Hi.
Qed.

Lemma mounted_idle c w g : idle (mounted false c w g).
Proof. unfold idle. cbn. auto 7. Qed.

Lemma step_resize_ripples w s :
  RippleCanvas.ripplesRef (field (step (WindowResize w) s))
  = RippleCanvas.ripplesRef (field s).
Proof. cbn [step]. destruct (listening s); reflexivity. Qed.

(** X16 (the render loop of the canvas component).  Once the effect has
    run on a canvas with a 2d context, and until the component is
    unmounted, whatever frames, resizes and spawns happen: exactly one frame
    request is pending, the one [animationFrameRef] holds; the resize
    listener is registered; the canvas has the size of the window; and a
    resize leaves the entities as they are.  Unmounting cancels that request
    and removes the listener, and from then on no event changes the field:
    no further pass runs, nothing more is drawn, no entity is added. *)
Theorem X16_one_pending_frame (c w : RippleCanvas.Canvas) (g : Rand.t)
    (es es' : list event) (w' : RippleCanvas.Canvas) :
  forallb (fun e => negb (is_unmount e)) es = true ->
  let s := run es (mounted true c w g) in
  let s' := step Unmount s in
  (queue s = [RippleCanvas.animationFrameRef (field s)] /\
   listening s = true /\
   RippleCanvas.canvasRef (field s) = Some (window s)) /\
  RippleCanvas.ripplesRef (field (step (WindowResize w') s))
    = RippleCanvas.ripplesRef (field s) /\
  (queue s' = [] /\ listening s' = false) /\
  queue (run es' s') = [] /\
  field (run es' s') = detach (field s).
Proof.
  intros Hes s s'.
  assert (Ha : alive s) by (apply run_alive; [exact Hes | apply mounted_alive]).
  assert (Hd : dead s') by (apply unmount_dead, Ha).
  destruct (run_dead es' s' Hd) as [(Hq' & _) Hf'].
  destruct Ha as (Hq & Hl & Hcl & Hc). destruct Hd as (Hdq & Hdl & _).
  repeat split; trivial.
  - apply step_resize_ripples.
  - rewrite Hf'. subst s'. cbn [step]. rewrite Hcl. reflexivity.
Qed.

Lemma X16_one_pending_frame_witness :
  let s := run [AddRipple None None; AnimationFrame; WindowResize Scenario.c0;
                AnimationFrame]
               (mounted true Scenario.c0 Scenario.c0 Scenario.g0) in
  queue s = [3%nat] /\
  field (run [AnimationFrame; AddRipple None None] (step Unmount s)) = detach (field s).
Proof.
  pose proof (@X16_one_pending_frame Scenario.c0 Scenario.c0 Scenario.g0
                [AddRipple None None; AnimationFrame; WindowResize Scenario.c0;
                 AnimationFrame]
                [AnimationFrame; AddRipple None None] Scenario.c0 eq_refl) as H.
  cbv zeta in H. destruct H as ((Hq & _) & _ & _ & _ & Hf).
  split; [|exact Hf]. rewrite Hq. reflexivity.
Defined.

Lemma unattached_idle b w g : idle (effect b (boot w g)).
Proof. unfold idle. cbn. auto 7. Qed.

(** X17 (the early returns of the effect).  When the effect finds no 2d
    context, or no canvas element at all, it returns before anything is
    registered: whatever happens afterwards, no frame is ever requested, no
    resize listener exists and nothing is ever drawn; entities spawned on
    the canvas without a context pile up in the array exactly as their
    constructor left them. *)
Theorem X17_no_context_no_loop (c w : RippleCanvas.Canvas) (g : Rand.t)
    (has2d : bool) (es : list event) :
  let s := run es (mounted false c w g) in
  let u := run es (effect has2d (boot w g)) in
  (queue s = [] /\ listening s = false /\
   RippleCanvas.ctx (field s) = [] /\
   Forall fresh (RippleCanvas.ripplesRef (field s))) /\
  (queue u = [] /\ listening u = false /\ RippleCanvas.ctx (field u) = []).
Proof.
  intros s u.
  destruct (run_idle es _ (mounted_idle c w g)) as (Hq & Hl & _ & Hx & _ & Hr).
  destruct (run_idle es _ (unattached_idle has2d w g)) as (Hq' & Hl' & _ & Hx' & _).
  auto 7.
Qed.

End LoopExtras.
